(** * OPB-82 scheme parser: a shallow embedding of tools/parse_opb82_scheme.py

    The program loads a raster image of the RBMK-1000 core layout, finds the
    connected blobs of six reference colours, turns every blob that is large
    enough into a grid cell and re-indexes the occupied grid coordinates into
    a dense range.

    Conventions of the embedding:
    - Python integers are [Z]; tuples of channel values are [list Z];
    - Python floats are exact rationals ([Q]) for the centroid arithmetic and
      real numbers ([R]) for the Euclidean colour distance: rounding to
      binary64 is not modelled;
    - raised exceptions are the [Raise] outcome of the [res] monad;
    - the [visited] set shared by the flood fills is a [gset (Z * Z)] passed
      from state to state; dictionaries with a fixed key order are
      association lists in that order. *)

From Stdlib Require Import ZArith QArith Qround Reals Lia Lra.
From stdpp Require Import base decidable option list gmap sets sorting pretty strings.

Local Open Scope Z_scope.

(** ** Outcomes of a computation *)

Inductive Exn :=
  ValueError | ZeroDivisionError | IndexError | KeyError | OverflowError.

(** [OutOfFuel] is not an exception of the program: it is the outcome of a
    loop of the model that was given too few iterations.  The theorems below
    show that the fuel the model passes is always enough. *)
Inductive res (A : Type) :=
  | Ok (a : A)
  | Raise (e : Exn)
  | OutOfFuel.
Arguments Ok {A} a.
Arguments Raise {A} e.
Arguments OutOfFuel {A}.

#[export] Instance res_ret : MRet res := λ A a, Ok a.
#[export] Instance res_bind : MBind res := λ A B k m,
  match m with
  | Ok a => k a
  | Raise e => Raise e
  | OutOfFuel => OutOfFuel
  end.

#[export] Instance Exn_eq_dec : EqDecision Exn.
Proof. solve_decision. Defined.

(** ** Colour classes and the colour matcher *)

Inductive CellType := AZ | TK | RR | AR | LAR | USP.

#[export] Instance CellType_eq_dec : EqDecision CellType.
Proof. solve_decision. Defined.

(** [COLORS]: the dictionary of reference colours, in insertion order. *)
Definition COLORS : list (CellType * list Z) :=
  [ (AZ,  [0xDE; 0x1A; 0x03]);
    (TK,  [0xA5; 0xB5; 0xA4]);
    (RR,  [0xEB; 0xEB; 0xEB]);
    (AR,  [0x01; 0xB1; 0x91]);
    (LAR, [0x00; 0x67; 0xCE]);
    (USP, [0xFE; 0xD8; 0x01]) ].

Definition COLOR_TOLERANCE : Z := 25.

Definition Zsum (l : list Z) : Z := foldr Z.add 0 l.

(** [sum((a - b) ** 2 for a, b in zip(c1, c2))]: [zip] stops at the shorter
    tuple. *)
Definition sum_sq_diff (c1 c2 : list Z) : Z :=
  Zsum (zip_with (λ a b, (a - b) ^ 2) c1 c2).

(** [color_distance]: the square root of the sum of squares.  The sum is
    an integer, so its root is 25 exactly or differs from 25 by more than
    0.019 (the roots of 624 and 626): rounding cannot change the outcome of
    the comparison with the tolerance. *)
Definition color_distance (c1 c2 : list Z) : R :=
  sqrt (IZR (sum_sq_diff c1 c2)).

(** The test [color_distance(c1, c2) < tolerance] for an integer tolerance,
    decided on integers: a square root is below a positive bound exactly when
    its argument is below the bound's square ([distance_below_spec]). *)
Definition distance_below (c1 c2 : list Z) (tolerance : Z) : bool :=
  (0 <? tolerance) && (sum_sq_diff c1 c2 <? tolerance * tolerance).

(** [if len(pixel) == 4: pixel = pixel[:3]] *)
Definition strip_alpha (pixel : list Z) : list Z :=
  if (length pixel =? 4)%nat then take 3 pixel else pixel.

(** The loop of [identify_color] over the items of a colour table. *)
Fixpoint identify_in (table : list (CellType * list Z)) (pixel : list Z)
  : option CellType :=
  match table with
  | [] => None
  | (cell_type, color) :: rest =>
      if distance_below pixel color COLOR_TOLERANCE then Some cell_type
      else identify_in rest pixel
  end.

Definition identify_color (pixel : list Z) : option CellType :=
  identify_in COLORS (strip_alpha pixel).

(** Lookup in a dictionary kept as an association list, [d[key]]. *)
Fixpoint assoc {A} (key : CellType) (d : list (CellType * A)) : option A :=
  match d with
  | [] => None
  | (k, v) :: rest => if decide (k = key) then Some v else assoc key rest
  end.

(** The reference colour of a class, [COLORS[cell_type]]. *)
Definition reference (cell_type : CellType) : list Z :=
  default [] (assoc cell_type COLORS).

(** Position of a class in the enumeration order of [COLORS]. *)
Definition class_index (cell_type : CellType) : nat :=
  default 0%nat (fst <$> list_find (λ e, e.1 = cell_type) COLORS).

(** A pixel is within tolerance of a class when its Euclidean distance to
    the class's reference colour, alpha stripped, is below 25. *)
Definition within_tolerance (pixel : list Z) (cell_type : CellType) : Prop :=
  (color_distance (strip_alpha pixel) (reference cell_type) < IZR COLOR_TOLERANCE)%R.

(** ** Images and pixel access *)

(** A decoded RGB image: [img.size] and the pixel-access object. *)
Record Image := {
  width : Z;
  height : Z;
  pixels : Z → Z → list Z
}.

(** [x < 0 or x >= width or y < 0 or y >= height] *)
Definition out_of_extent (img : Image) (x y : Z) : bool :=
  (x <? 0) || (width img <=? x) || (y <? 0) || (height img <=? y).

(** [pixels[x, y]].  A coordinate outside the extent is not a pixel of the
    image; asking for one is modelled as [IndexError]. *)
Definition getpixel (img : Image) (x y : Z) : res (list Z) :=
  if out_of_extent img x y then Raise IndexError else Ok (pixels img x y).

(** The closure [matches_color] of [find_connected_components]. *)
Definition matches_color (target_color : list Z) (tolerance : Z)
    (pixel : list Z) : bool :=
  distance_below (strip_alpha pixel) target_color tolerance.

(** ** Blob detector *)

(** State of one flood fill.  [reads] is a ghost field: the coordinates at
    which [pixels[...]] has been evaluated so far, latest first. *)
Record FillState := {
  queue : list (Z * Z);
  visited : gset (Z * Z);
  component_pixels : list (Z * Z);
  reads : list (Z * Z)
}.

(** One iteration of the [while queue:] loop of [flood_fill], after
    [x, y = queue.popleft()] left [rest] in the queue. *)
Definition fill_body (img : Image) (target_color : list Z) (tolerance : Z)
    (xy : Z * Z) (rest : list (Z * Z)) (s : FillState) : res FillState :=
  let '(x, y) := xy in
  if decide ((x, y) ∈ visited s) then
    Ok {| queue := rest; visited := visited s;
          component_pixels := component_pixels s; reads := reads s |}
  else if out_of_extent img x y then
    Ok {| queue := rest; visited := visited s;
          component_pixels := component_pixels s; reads := reads s |}
  else
    pixel ← getpixel img x y;
    if negb (matches_color target_color tolerance pixel) then
      Ok {| queue := rest; visited := visited s;
            component_pixels := component_pixels s;
            reads := (x, y) :: reads s |}
    else
      Ok {| queue := rest ++ [(x + 1, y); (x - 1, y); (x, y + 1); (x, y - 1)];
            visited := {[ (x, y) ]} ∪ visited s;
            component_pixels := component_pixels s ++ [(x, y)];
            reads := (x, y) :: reads s |}.

(** The [while queue:] loop; one unit of fuel per iteration. *)
Fixpoint fill_loop (img : Image) (target_color : list Z) (tolerance : Z)
    (fuel : nat) (s : FillState) : res FillState :=
  match queue s with
  | [] => Ok s
  | xy :: rest =>
      match fuel with
      | O => OutOfFuel
      | S fuel' =>
          s' ← fill_body img target_color tolerance xy rest s;
          fill_loop img target_color tolerance fuel' s'
      end
  end.

(** Python's true division of two integers with a non-zero divisor. *)
Definition true_div (a b : Z) : Q := (inject_Z a / inject_Z b)%Q.

(** The centre of mass computed once the queue is empty:
    [(center_x, center_y, len(component_pixels))], or [None] for no pixel. *)
Definition center_of_mass (component_pixels : list (Z * Z)) : option (Q * Q * Z) :=
  match component_pixels with
  | [] => None
  | _ :: _ =>
      let sum_x := Zsum (fst <$> component_pixels) in
      let sum_y := Zsum (snd <$> component_pixels) in
      let n := Z.of_nat (length component_pixels) in
      Some (true_div sum_x n, true_div sum_y n, n)
  end.

(** [flood_fill(start_x, start_y)]: the component found, if any, with the
    updated [visited] set and read log. *)
Definition flood_fill (img : Image) (target_color : list Z) (tolerance : Z)
    (fuel : nat) (seen : gset (Z * Z)) (log : list (Z * Z)) (start : Z * Z)
  : res (option (Q * Q * Z) * gset (Z * Z) * list (Z * Z)) :=
  if decide (start ∈ seen) then Ok (None, seen, log)
  else
    pixel ← getpixel img start.1 start.2;
    if negb (matches_color target_color tolerance pixel) then
      Ok (None, seen, start :: log)
    else
      s ← fill_loop img target_color tolerance fuel
            {| queue := [start]; visited := seen;
               component_pixels := []; reads := start :: log |};
      Ok (center_of_mass (component_pixels s), visited s, reads s).

(** A [for] loop whose body may raise. *)
Fixpoint for_each {A S : Type} (body : S → A → res S) (l : list A) (s : S)
  : res S :=
  match l with
  | [] => Ok s
  | a :: rest => s' ← body s a; for_each body rest s'
  end.

(** [for y in range(height): for x in range(width)]: the coordinates in
    raster order. *)
Definition raster (img : Image) : list (Z * Z) :=
  y ← seqZ 0 (height img); (λ x, (x, y)) <$> seqZ 0 (width img).

(** Fuel for one flood fill: every pixel is added to [visited] at most once
    and adds four coordinates to the queue. *)
Definition fill_fuel (img : Image) : nat := S (4 * length (raster img)).

(** State of the scan: the shared [visited] set, the components found so
    far and the ghost log of pixel reads. *)
Record ScanState := {
  seen : gset (Z * Z);
  components : list (Q * Q * Z);
  log : list (Z * Z)
}.

(** Body of the scan loop; [fuel] is what each flood fill may use. *)
Definition scan_step (img : Image) (target_color : list Z) (tolerance : Z)
    (fuel : nat) (st : ScanState) (xy : Z * Z) : res ScanState :=
  if decide (xy ∈ seen st) then Ok st
  else
    '(component, seen', log') ←
      flood_fill img target_color tolerance fuel (seen st) (log st) xy;
    match component with
    | Some c => Ok {| seen := seen'; components := components st ++ [c]; log := log' |}
    | None => Ok {| seen := seen'; components := components st; log := log' |}
    end.

Definition scan_image (img : Image) (target_color : list Z) (tolerance : Z)
  : res ScanState :=
  for_each (scan_step img target_color tolerance (fill_fuel img)) (raster img)
    {| seen := ∅; components := []; log := [] |}.

(** [find_connected_components(img, target_color, tolerance)] *)
Definition find_connected_components (img : Image) (target_color : list Z)
    (tolerance : Z) : res (list (Q * Q * Z)) :=
  st ← scan_image img target_color tolerance; Ok (components st).

(** ** Grid quantizer and area filter *)

(** A cell record.  The two [original_grid_*] keys exist only in the
    dictionaries that [normalize_coordinates] builds. *)
Record Cell := {
  grid_x : Z;
  grid_y : Z;
  original_grid_x : option Z;
  original_grid_y : option Z;
  pixel_x : Z;
  pixel_y : Z;
  area : Z
}.

(** [int(v)] for a float [v]: truncation toward zero. *)
Definition py_int (v : Q) : Z := Z.quot (Qnum v) (Z.pos (Qden v)).

(** The integers that convert to a float are those of magnitude below
    [float_limit]: the largest float is [2 ^ 1024 - 2 ^ 971], and an
    integer half a step above it or more rounds out of the range. *)
Definition float_limit : Z := 2 ^ 1024 - 2 ^ 970.

(** [v / d] for a float [v] and an integer [d].  The integer is converted
    to a float first, which raises [OverflowError] when it is too large;
    then a zero divisor raises [ZeroDivisionError]. *)
Definition float_div (v : Q) (d : Z) : res Q :=
  if float_limit <=? Z.abs d then Raise OverflowError
  else if d =? 0 then Raise ZeroDivisionError
  else Ok (v / inject_Z d)%Q.

(** The dictionary appended for one component that passed the filter. *)
Definition make_cell (cell_size : Z) (component : Q * Q * Z) : res Cell :=
  let '(center_x, center_y, n) := component in
  gx ← float_div center_x cell_size;
  gy ← float_div center_y cell_size;
  Ok {| grid_x := py_int gx; grid_y := py_int gy;
        original_grid_x := None; original_grid_y := None;
        pixel_x := py_int center_x; pixel_y := py_int center_y;
        area := n |}.

(** [for center_x, center_y, area in components: if area >= min_area: ...] *)
Fixpoint collect_cells (cell_size min_area : Z) (comps : list (Q * Q * Z))
  : res (list Cell) :=
  match comps with
  | [] => Ok []
  | c :: rest =>
      if min_area <=? c.2 then
        cell ← make_cell cell_size c;
        cells ← collect_cells cell_size min_area rest;
        Ok (cell :: cells)
      else collect_cells cell_size min_area rest
  end.

(** The loop of [parse_scheme] over the items of the colour table; the
    result dictionary has the table's key order. *)
Fixpoint detect_cells (img : Image) (cell_size min_area : Z)
    (table : list (CellType * list Z)) : res (list (CellType * list Cell)) :=
  match table with
  | [] => Ok []
  | (cell_type, color) :: rest =>
      comps ← find_connected_components img color COLOR_TOLERANCE;
      cell_list ← collect_cells cell_size min_area comps;
      more ← detect_cells img cell_size min_area rest;
      Ok ((cell_type, cell_list) :: more)
  end.

(** ** Coordinate normalizer *)

(** Every cell of every class, in dictionary order. *)
Definition all_cells (cells : list (CellType * list Cell)) : list Cell :=
  e ← cells; e.2.

Definition all_x (cells : list (CellType * list Cell)) : gset Z :=
  list_to_set (grid_x <$> all_cells cells).

Definition all_y (cells : list (CellType * list Cell)) : gset Z :=
  list_to_set (grid_y <$> all_cells cells).

(** [{old: new for new, old in enumerate(l)}], counting from [new]. *)
Fixpoint enumerate_from (new : nat) (l : list Z) (m : gmap Z Z) : gmap Z Z :=
  match l with
  | [] => m
  | old :: rest => enumerate_from (S new) rest (<[old := Z.of_nat new]> m)
  end.

Definition enumerate_map (l : list Z) : gmap Z Z := enumerate_from 0 l ∅.

(** [min(l)] and [max(l)]: [ValueError] on an empty sequence. *)
Definition py_min (l : list Z) : res Z :=
  match l with
  | [] => Raise ValueError
  | x :: rest => Ok (foldl Z.min x rest)
  end.

Definition py_max (l : list Z) : res Z :=
  match l with
  | [] => Raise ValueError
  | x :: rest => Ok (foldl Z.max x rest)
  end.

(** [m[key]]: [KeyError] for a missing key. *)
Definition getitem (m : gmap Z Z) (key : Z) : res Z :=
  match m !! key with
  | Some v => Ok v
  | None => Raise KeyError
  end.

Definition normalize_cell (x_map y_map : gmap Z Z) (cell : Cell) : res Cell :=
  nx ← getitem x_map (grid_x cell);
  ny ← getitem y_map (grid_y cell);
  Ok {| grid_x := nx; grid_y := ny;
        original_grid_x := Some (grid_x cell);
        original_grid_y := Some (grid_y cell);
        pixel_x := pixel_x cell; pixel_y := pixel_y cell;
        area := area cell |}.

(** A list built by appending the results of a body that may raise. *)
Fixpoint map_res {A B : Type} (f : A → res B) (l : list A) : res (list B) :=
  match l with
  | [] => Ok []
  | a :: rest => b ← f a; bs ← map_res f rest; Ok (b :: bs)
  end.

Section iteration_order.
(** The order in which the interpreter iterates a set of integers. *)
Variable set_iter : gset Z → list Z.

(** [sorted(s)] *)
Definition sorted (s : gset Z) : list Z := merge_sort Z.le (set_iter s).

Definition x_map_of (cells : list (CellType * list Cell)) : gmap Z Z :=
  enumerate_map (sorted (all_x cells)).

Definition y_map_of (cells : list (CellType * list Cell)) : gmap Z Z :=
  enumerate_map (sorted (all_y cells)).

(** The values formatted by the four [print] calls on the ranges. *)
Definition range_report (sorted_x sorted_y : list Z) : res (list Z) :=
  min_x ← py_min sorted_x;
  max_x ← py_max sorted_x;
  min_y ← py_min sorted_y;
  max_y ← py_max sorted_y;
  Ok [min_x; max_x; Z.of_nat (length sorted_x);
      min_y; max_y; Z.of_nat (length sorted_y);
      Z.of_nat (length sorted_x) - 1; Z.of_nat (length sorted_y) - 1].

Definition normalize_coordinates_with (cells : list (CellType * list Cell))
  : res (list (CellType * list Cell)) :=
  let sorted_x := sorted (all_x cells) in
  let sorted_y := sorted (all_y cells) in
  let x_map := enumerate_map sorted_x in
  let y_map := enumerate_map sorted_y in
  _ ← range_report sorted_x sorted_y;
  map_res (λ '(cell_type, cell_list),
             normalized ← map_res (normalize_cell x_map y_map) cell_list;
             Ok (cell_type, normalized)) cells.
End iteration_order.

(** ** The pipeline *)

Record Metadata := {
  image_size : Z * Z;
  cell_size : Z;
  total_cells : Z;
  grid_size : Z * Z
}.

(** The dictionary handed to [json.dump] and returned by [parse_scheme]. *)
Record Output := {
  metadata : Metadata;
  cells : list (CellType * list Cell);
  positions_by_type : list (CellType * list string)
}.

(** [max(v) - min(v) + 1 if v else 0] *)
Definition extent (v : list Z) : res Z :=
  match v with
  | [] => Ok 0
  | _ :: _ => hi ← py_max v; lo ← py_min v; Ok (hi - lo + 1)
  end.

(** [f"{p['grid_x']},{p['grid_y']}"] *)
Definition position_string (p : Cell) : string :=
  pretty (grid_x p) +:+ "," +:+ pretty (grid_y p).

Section pipeline.
Variable set_iter : gset Z → list Z.

(** [parse_scheme] from the decoded RGB image on: detection, statistics,
    normalization and the output dictionary.  Writing the two files does
    not change the returned dictionary and is left out. *)
Definition parse_scheme_with (img : Image) (cell_size min_area : Z)
  : res Output :=
  raw ← detect_cells img cell_size min_area COLORS;
  cells ← normalize_coordinates_with set_iter raw;
  let total := Zsum ((λ e, Z.of_nat (length e.2)) <$> cells) in
  grid_width ← extent (grid_x <$> all_cells cells);
  grid_height ← extent (grid_y <$> all_cells cells);
  Ok {| metadata := {| image_size := (width img, height img);
                       cell_size := cell_size;
                       total_cells := total;
                       grid_size := (grid_width, grid_height) |};
        cells := cells;
        positions_by_type :=
          (λ e, (e.1, position_string <$> e.2)) <$> cells |}.
End pipeline.

(** *** The structured data file *)

(** The JSON values that occur in the output. *)
Inductive JSON :=
  | JInt (z : Z)
  | JStr (s : string)
  | JList (items : list JSON)
  | JDict (items : list (string * JSON)).

Definition cell_type_name (cell_type : CellType) : string :=
  match cell_type with
  | AZ => "AZ" | TK => "TK" | RR => "RR"
  | AR => "AR" | LAR => "LAR" | USP => "USP"
  end.

(** A cell dictionary, keys in insertion order; the [original_grid_*] keys
    are present only when set. *)
Definition cell_json (c : Cell) : JSON :=
  JDict ([("grid_x", JInt (grid_x c)); ("grid_y", JInt (grid_y c))]
         ++ from_option (λ v, [("original_grid_x", JInt v)]) [] (original_grid_x c)
         ++ from_option (λ v, [("original_grid_y", JInt v)]) [] (original_grid_y c)
         ++ [("pixel_x", JInt (pixel_x c)); ("pixel_y", JInt (pixel_y c));
             ("area", JInt (area c))]).

Definition output_json (out : Output) : JSON :=
  JDict
    [ ("metadata",
       JDict [ ("image_size",
                JDict [ ("width", JInt (image_size (metadata out)).1);
                        ("height", JInt (image_size (metadata out)).2) ]);
               ("cell_size", JInt (cell_size (metadata out)));
               ("total_cells", JInt (total_cells (metadata out)));
               ("grid_size",
                JDict [ ("width", JInt (grid_size (metadata out)).1);
                        ("height", JInt (grid_size (metadata out)).2) ]) ]);
      ("cells",
       JDict ((λ e, (cell_type_name e.1, JList (cell_json <$> e.2)))
              <$> cells out));
      ("positions_by_type",
       JDict ((λ e, (cell_type_name e.1, JList (JStr <$> e.2)))
              <$> positions_by_type out)) ].

Definition quote : string := String (Ascii.ascii_of_nat 34) EmptyString.
Definition newline : string := String (Ascii.ascii_of_nat 10) EmptyString.

Fixpoint spaces (n : nat) : string :=
  match n with
  | O => EmptyString
  | S n' => String (Ascii.ascii_of_nat 32) (spaces n')
  end.

(** [sep.join(parts)] *)
Fixpoint join (sep : string) (parts : list string) : string :=
  match parts with
  | [] => EmptyString
  | [p] => p
  | p :: rest => p +:+ sep +:+ join sep rest
  end.

(** The text [json.dump(value, f, indent=2, ensure_ascii=False)] writes for
    a value nested [level] deep.  The strings of the output hold letters,
    digits, commas, underscores and minus signs only, so none needs an
    escape. *)
Fixpoint json_text (level : nat) (value : JSON) : string :=
  let inner := newline +:+ spaces (2 * S level) in
  let close := newline +:+ spaces (2 * level) in
  match value with
  | JInt z => pretty z
  | JStr s => quote +:+ s +:+ quote
  | JList [] => "[]"
  | JList items =>
      "[" +:+ inner
      +:+ join ("," +:+ inner) (map (json_text (S level)) items)
      +:+ close +:+ "]"
  | JDict [] => "{}"
  | JDict items =>
      "{" +:+ inner
      +:+ join ("," +:+ inner)
            (map (λ kv : string * JSON,
                    quote +:+ kv.1 +:+ quote +:+ ": "
                    +:+ json_text (S level) kv.2) items)
      +:+ close +:+ "}"
  end.

(** The text of the structured data file of a run that returned. *)
Definition json_dump (out : Output) : string := json_text 0 (output_json out).

(** What a run leaves in the structured data file: the text of its output
    dictionary, or the exception that ended it before the file was
    written. *)
Definition written_text (run : res Output) : res string :=
  out ← run; Ok (json_dump out).

(** The program as run: sets are iterated in the order of their element
    list.  The order has no influence on any result, as shown for the
    pipeline below. *)
Definition normalize_coordinates := normalize_coordinates_with elements.
Definition parse_scheme := parse_scheme_with elements.

(** The two maps the program as run builds for a cell collection. *)
Definition x_map (cells : list (CellType * list Cell)) : gmap Z Z :=
  x_map_of elements cells.
Definition y_map (cells : list (CellType * list Cell)) : gmap Z Z :=
  y_map_of elements cells.

(** ** Test images *)

Definition red : list Z := [0xDE; 0x1A; 0x03].
Definition black : list Z := [0; 0; 0].

(** A [w] x [h] image that is red at the listed coordinates and black
    elsewhere. *)
Definition red_on_black (w h : Z) (at_ : list (Z * Z)) : Image :=
  {| width := w; height := h;
     pixels := λ x y, if bool_decide ((x, y) ∈ at_) then red else black |}.

(** A [w] x [h] black image with a red block covering the columns
    [x0 .. x1 - 1] of the rows [y0 .. y1 - 1]. *)
Definition red_block (w h x0 y0 x1 y1 : Z) : Image :=
  {| width := w; height := h;
     pixels := λ x y,
       if (x0 <=? x) && (x <? x1) && (y0 <=? y) && (y <? y1)
       then red else black |}.

(** Cells as the detection stage builds them, for use in examples. *)
Definition sample_cell (gx gy px py a : Z) : Cell :=
  {| grid_x := gx; grid_y := gy; original_grid_x := None;
     original_grid_y := None; pixel_x := px; pixel_y := py; area := a |}.

Definition sample_cells : list (CellType * list Cell) :=
  [ (AZ, [sample_cell 2 7 60 190 120; sample_cell 9 4 240 110 130]);
    (TK, [sample_cell 5 7 140 190 125]);
    (RR, []); (AR, []); (LAR, []); (USP, []) ].

(** A component triple with an integral centre, for use in examples. *)
Definition sample_component (x y n : Z) : Q * Q * Z :=
  (inject_Z x, inject_Z y, n).

(** ** Notions used in the statements *)

(** A coordinate inside the image extent. *)
Definition in_extent (img : Image) (xy : Z * Z) : Prop :=
  out_of_extent img xy.1 xy.2 = false.

(** The pixel at a coordinate has the target colour. *)
Definition matches_at (img : Image) (target_color : list Z) (tolerance : Z)
    (xy : Z * Z) : bool :=
  matches_color target_color tolerance (pixels img xy.1 xy.2).

(** The pixels of the target colour, in raster order. *)
Definition matching_pixels (img : Image) (target_color : list Z)
    (tolerance : Z) : list (Z * Z) :=
  filter (λ xy, matches_at img target_color tolerance xy = true) (raster img).

(** The four neighbours the fill enqueues. *)
Definition neighbours (xy : Z * Z) : list (Z * Z) :=
  [(xy.1 + 1, xy.2); (xy.1 - 1, xy.2); (xy.1, xy.2 + 1); (xy.1, xy.2 - 1)].

(** Upper bound on the iterations left in a fill: one per queued
    coordinate and four per pixel of the image not yet visited. *)
Definition fill_measure (img : Image) (s : FillState) : nat :=
  (length (queue s) + 4 * size (list_to_set (raster img) ∖ visited s))%nat.

(** Every pixel of the list but the first is one of the four neighbours of
    a pixel earlier in the list: the list is connected by horizontal and
    vertical steps. *)
Definition linked4 (ps : list (Z * Z)) : Prop :=
  ∀ i p, ps !! S i = Some p →
    ∃ j q, (j ≤ i)%nat ∧ ps !! j = Some q ∧ p ∈ neighbours q.

(** A pixel of the image that has the target colour. *)
Definition target_pixel (img : Image) (target_color : list Z) (tolerance : Z)
    (xy : Z * Z) : Prop :=
  in_extent img xy ∧ matches_at img target_color tolerance xy = true.

(** [q] can be reached from [p] by horizontal and vertical steps over
    pixels of the target colour. *)
Inductive connected4 (img : Image) (target_color : list Z) (tolerance : Z)
  : Z * Z → Z * Z → Prop :=
  | connected4_refl p :
      target_pixel img target_color tolerance p →
      connected4 img target_color tolerance p p
  | connected4_step p q r :
      connected4 img target_color tolerance p q →
      r ∈ neighbours q →
      target_pixel img target_color tolerance r →
      connected4 img target_color tolerance p r.

(** A set of coordinates that no step to a pixel of the target colour
    leaves. *)
Definition closed4 (img : Image) (target_color : list Z) (tolerance : Z)
    (V : gset (Z * Z)) : Prop :=
  ∀ r n, r ∈ V → n ∈ neighbours r →
    target_pixel img target_color tolerance n → n ∈ V.

(** [ps] lists, without repetition, exactly the pixels connected to any of
    its members: a maximal 4-connected region of the target colour. *)
Definition region4 (img : Image) (target_color : list Z) (tolerance : Z)
    (ps : list (Z * Z)) : Prop :=
  ps ≠ [] ∧ NoDup ps ∧
  ∀ p, p ∈ ps → ∀ q, q ∈ ps ↔ connected4 img target_color tolerance p q.

(** [c] is the triple computed from the member pixels [ps] of a blob of
    the target colour. *)
Definition blob_of (img : Image) (target_color : list Z) (tolerance : Z)
    (ps : list (Z * Z)) (c : Q * Q * Z) : Prop :=
  center_of_mass ps = Some c ∧
  Forall (in_extent img) ps ∧
  Forall (λ xy, matches_at img target_color tolerance xy = true) ps ∧
  NoDup ps ∧
  linked4 ps.


(** A set of grid values is dense when it is an initial segment of the
    naturals: every value is below the number of values. *)
Definition dense (X : gset Z) : Prop :=
  ∀ v, v ∈ X → 0 ≤ v < Z.of_nat (size X).

(** [m] maps the values of [X] one-to-one onto [0 .. size X - 1] and
    keeps their order. *)
Definition rank_bijection (X : gset Z) (m : gmap Z Z) : Prop :=
  (∀ v, v ∈ X ↔ is_Some (m !! v)) ∧
  (∀ v n, m !! v = Some n → 0 ≤ n < Z.of_nat (size X)) ∧
  (∀ v w n k, m !! v = Some n → m !! w = Some k → (v < w ↔ n < k)) ∧
  (∀ n, 0 ≤ n < Z.of_nat (size X) → ∃ v, v ∈ X ∧ m !! v = Some n).

(** What normalization may change in a cell and what it must keep: the
    grid coordinates are looked up in the two maps, the former ones are
    kept as [original_grid_*], the rest is copied. *)
Definition normalized_from (x_map y_map : gmap Z Z) (c c' : Cell) : Prop :=
  x_map !! grid_x c = Some (grid_x c') ∧
  y_map !! grid_y c = Some (grid_y c') ∧
  original_grid_x c' = Some (grid_x c) ∧
  original_grid_y c' = Some (grid_y c) ∧
  pixel_x c' = pixel_x c ∧ pixel_y c' = pixel_y c ∧ area c' = area c.

(** What a cell keeps of the blob [c] it was built from: the number of
    member pixels as its area, and as pixel centre the means of the member
    coordinates cut to integers. *)
Definition truncated_centroid (img : Image) (target_color : list Z)
    (tolerance : Z) (c : Q * Q * Z) (cell : Cell) : Prop :=
  ∃ ps, blob_of img target_color tolerance ps c ∧
    area cell = Z.of_nat (length ps) ∧
    pixel_x cell = Zsum (fst <$> ps) / Z.of_nat (length ps) ∧
    pixel_y cell = Zsum (snd <$> ps) / Z.of_nat (length ps) ∧
    pixel_x cell = Qfloor c.1.1 ∧
    pixel_y cell = Qfloor c.1.2.

(** ** The code listing *)

(** [c.lower()] for one character: the ASCII capitals move down by 32. *)
Definition lower_ascii (c : Ascii.ascii) : Ascii.ascii :=
  let n := Ascii.nat_of_ascii c in
  if (65 <=? n)%nat && (n <=? 90)%nat then Ascii.ascii_of_nat (n + 32) else c.

(** [s.lower()] *)
Fixpoint lower (s : string) : string :=
  match s with
  | EmptyString => EmptyString
  | String c rest => String (lower_ascii c) (lower rest)
  end.

(** One pass of the loop that groups the columns by row:
    [if row not in by_row: by_row[row] = []] and then
    [by_row[row].append(p['grid_x'])]. *)
Definition add_to_row (by_row : gmap Z (list Z)) (p : Cell) : gmap Z (list Z) :=
  let row := grid_y p in
  let by_row' :=
    match by_row !! row with
    | None => <[row := []]> by_row
    | Some _ => by_row
    end in
  alter (λ cols, cols ++ [grid_x p]) row by_row'.

(** The dictionary [by_row] after the loop over the positions of a class. *)
Definition group_by_row (positions : list Cell) : gmap Z (list Z) :=
  foldl add_to_row ∅ positions.

(** [by_row[row]]: [KeyError] for a missing row. *)
Definition getrow (by_row : gmap Z (list Z)) (row : Z) : res (list Z) :=
  match by_row !! row with
  | Some cols => Ok cols
  | None => Raise KeyError
  end.

(** [f"'{col},{row}'"] *)
Definition quoted_position (row col : Z) : string :=
  "'" +:+ pretty col +:+ "," +:+ pretty row +:+ "'".

(** The two lines appended for a row and its sorted columns. *)
Definition row_lines (entry : Z * list Z) : list string :=
  let pos_str := join ", " (quoted_position entry.1 <$> entry.2) in
  ["    // Row " +:+ pretty entry.1; "    " +:+ pos_str +:+ ","].

(** The lines the listing starts with. *)
Definition header_lines : list string :=
  [ "// Auto-generated from OPB-82 scheme image";
    "// Cell positions extracted by parse_opb82_scheme.py";
    "// Coordinates are normalized to a continuous grid (grid lines removed)";
    "" ].

Section listing.
Variable set_iter : gset Z → list Z.

(** The rows of a class in the order they are written, each with the
    columns written for it: [sorted(set(by_row[row]))] for every [row] in
    [sorted(by_row.keys())].  The keys of a dictionary are iterated in
    insertion order; sorting makes the order irrelevant, as it does for a
    set. *)
Definition row_listing_with (positions : list Cell)
  : res (list (Z * list Z)) :=
  let by_row := group_by_row positions in
  map_res (λ row, cols ← getrow by_row row;
                  Ok (row, sorted set_iter (list_to_set cols)))
          (sorted set_iter (dom by_row)).

(** The lines appended for one item of the dictionary; none for a class
    without positions ([continue]). *)
Definition class_lines_with (cell_type : CellType) (positions : list Cell)
  : res (list string) :=
  match positions with
  | [] => Ok []
  | _ :: _ =>
      listing ← row_listing_with positions;
      Ok ([ "// " +:+ cell_type_name cell_type +:+ " positions - "
              +:+ pretty (length positions) +:+ " cells";
            "const " +:+ lower (cell_type_name cell_type)
              +:+ "Positions = new Set<string>([" ]
          ++ (listing ≫= row_lines)
          ++ [ "]);"; "" ])
  end.

(** [generate_typescript(cells)] *)
Definition generate_typescript_with (cells : list (CellType * list Cell))
  : res string :=
  sections ← map_res (λ e, class_lines_with e.1 e.2) cells;
  Ok (join newline (header_lines ++ mjoin sections)).
End listing.

Definition row_listing := row_listing_with elements.
Definition generate_typescript := generate_typescript_with elements.

(** What a run leaves in the code listing written beside the structured
    data file. *)
Definition typescript_text (run : res Output) : res string :=
  out ← run; generate_typescript (cells out).

(** ** Further notions used in the statements *)

(** The pixels of the target colour, as a set. *)
Definition target_set (img : Image) (target_color : list Z) (tolerance : Z)
  : gset (Z * Z) :=
  list_to_set (matching_pixels img target_color tolerance).

(** [p] comes before [q] in raster order: in a row above, or further left
    in the same row. *)
Definition raster_lt (p q : Z * Z) : Prop :=
  p.2 < q.2 ∨ (p.2 = q.2 ∧ p.1 < q.1).

(** The list of pixels begins with [start], which comes before all its
    other pixels in raster order. *)
Definition starts_at (start : Z * Z) (ps : list (Z * Z)) : Prop :=
  ∃ rest, ps = start :: rest ∧ Forall (raster_lt start) rest.

(** The listing has column [col] in row [row]. *)
Definition listed (listing : list (Z * list Z)) (col row : Z) : Prop :=
  ∃ cols, (row, cols) ∈ listing ∧ col ∈ cols.

(** The string holds a comma. *)
Fixpoint has_comma (s : string) : bool :=
  match s with
  | EmptyString => false
  | String c rest => bool_decide (c = Ascii.ascii_of_nat 44) || has_comma rest
  end.

(** The detector finds, for some class, a blob of at least the minimum
    area. *)
Definition some_blob_kept (img : Image) (min_area : Z) : Prop :=
  ∃ cell_type comps c,
    find_connected_components img (reference cell_type) COLOR_TOLERANCE
      = Ok comps ∧
    c ∈ comps ∧ min_area ≤ c.2.


(** A pitch that a float can be divided by: not zero, and small enough
    to convert to a float. *)
Definition usable_pitch (cell_size : Z) : Prop :=
  cell_size ≠ 0 ∧ Z.abs cell_size < float_limit.

(** A strictly increasing function on the integers. *)
Definition increasing (f : Z → Z) : Prop := ∀ a b, a < b → f a < f b.

(** A cell with its grid coordinates renamed, the column by [f] and the
    row by [g]. *)
Definition relabel_cell (f g : Z → Z) (c : Cell) : Cell :=
  {| grid_x := f (grid_x c); grid_y := g (grid_y c);
     original_grid_x := original_grid_x c;
     original_grid_y := original_grid_y c;
     pixel_x := pixel_x c; pixel_y := pixel_y c; area := area c |}.

(** The collection with every cell renamed. *)
Definition relabel (f g : Z → Z) (cells : list (CellType * list Cell))
  : list (CellType * list Cell) :=
  (λ e : CellType * list Cell, (e.1, relabel_cell f g <$> e.2)) <$> cells.

(** A 3 x 3 image whose top row holds two red pixels side by side. *)
Definition two_red_pixels : Image := red_on_black 3 3 [(0, 0); (1, 0)].

(** A 4 x 1 image whose two pixels on the right are red: one blob with its
    centre at x = 5/2. *)
Definition red_pair_right : Image := red_on_black 4 1 [(2, 0); (3, 0)].

(** * Properties *)

(** ** Colour matcher *)

Section color_matcher.

Lemma Zsum_nonneg (l : list Z) : Forall (λ z, 0 ≤ z) l → 0 ≤ Zsum l.
Proof. induction 1; simpl; lia. Qed.

Lemma sum_sq_diff_nonneg (c1 c2 : list Z) : 0 ≤ sum_sq_diff c1 c2.
Proof.
unfold sum_sq_diff. apply Zsum_nonneg.
revert c2. induction c1 as [|a c1 IH]; intros [|b c2]; simpl; try constructor.
- apply Z.pow_even_nonneg. by exists 1.
- apply IH.
Qed.

(** The integer test decides the comparison of the Euclidean distance with
  the tolerance. *)
Lemma distance_below_spec (c1 c2 : list Z) (tolerance : Z) :
distance_below c1 c2 tolerance = true ↔
(color_distance c1 c2 < IZR tolerance)%R.
Proof.
unfold distance_below, color_distance.
pose proof (sum_sq_diff_nonneg c1 c2) as Hs.
set (s := sum_sq_diff c1 c2) in *.
assert (0 <= IZR s)%R as Hs' by (by apply IZR_le).
rewrite andb_true_iff, Z.ltb_lt, Z.ltb_lt. split.
- intros [Ht Hlt].
  assert (0 < IZR tolerance)%R as Ht' by (by apply IZR_lt).
  rewrite <- (sqrt_square (IZR tolerance)) by lra.
  apply sqrt_lt_1_alt. split; [done|].
  rewrite <- mult_IZR. by apply IZR_lt.
- intros Hlt.
  pose proof (sqrt_pos (IZR s)) as Hpos.
  assert (0 < IZR tolerance)%R as Ht' by lra.
  split; [by apply lt_IZR|].
  apply lt_IZR. rewrite mult_IZR.
  apply sqrt_lt_0_alt. rewrite sqrt_square by lra. done.
Qed.

Lemma within_tolerance_decide (pixel : list Z) (cell_type : CellType) :
within_tolerance pixel cell_type ↔
distance_below (strip_alpha pixel) (reference cell_type) COLOR_TOLERANCE = true.
Proof. unfold within_tolerance. by rewrite distance_below_spec. Qed.

(** First-match semantics of the loop over any colour table. *)
Lemma identify_in_Some (table : list (CellType * list Z)) (pixel : list Z)
  (cell_type : CellType) :
identify_in table pixel = Some cell_type ↔
∃ i color, table !! i = Some (cell_type, color) ∧
  distance_below pixel color COLOR_TOLERANCE = true ∧
  ∀ j e, (j < i)%nat → table !! j = Some e →
    distance_below pixel e.2 COLOR_TOLERANCE = false.
Proof.
induction table as [|[ct color] rest IH]; simpl.
- split; [done|]. by intros (i & c & Hi & _).
- destruct (distance_below pixel color COLOR_TOLERANCE) eqn:Hd.
  + split.
    * intros [= <-]. exists 0%nat, color. repeat split; [done|]. lia.
    * intros (i & c & Hi & Hc & Hfirst). destruct i as [|i].
      -- simpl in Hi. by inversion Hi.
      -- specialize (Hfirst 0%nat (ct, color)). simpl in Hfirst.
         rewrite Hd in Hfirst. by discriminate Hfirst; [lia|].
  + rewrite IH. split.
    * intros (i & c & Hi & Hc & Hfirst). exists (S i), c.
      repeat split; [done..|]. intros [|j] e Hj He.
      -- simpl in He. by inversion He.
      -- apply (Hfirst j); [lia|done].
    * intros (i & c & Hi & Hc & Hfirst). destruct i as [|i].
      -- simpl in Hi. inversion Hi; subst. congruence.
      -- exists i, c. repeat split; [done..|]. intros j e Hj He.
         apply (Hfirst (S j)); [lia|done].
Qed.

Lemma identify_in_None (table : list (CellType * list Z)) (pixel : list Z) :
identify_in table pixel = None ↔
∀ e, e ∈ table → distance_below pixel e.2 COLOR_TOLERANCE = false.
Proof.
induction table as [|[ct color] rest IH]; simpl.
- split; [|done]. intros _ e He. by apply elem_of_nil in He.
- destruct (distance_below pixel color COLOR_TOLERANCE) eqn:Hd.
  + split; [done|]. intros H. specialize (H (ct, color)). simpl in H.
    rewrite Hd in H. discriminate H. by left.
  + rewrite IH. split.
    * intros H e [->|He]%elem_of_cons; [done|]. by apply H.
    * intros H e He. apply H. by right.
Qed.

Lemma COLORS_lookup (cell_type : CellType) :
COLORS !! class_index cell_type = Some (cell_type, reference cell_type).
Proof. by destruct cell_type. Qed.

Lemma COLORS_lookup_inv (i : nat) (cell_type : CellType) (color : list Z) :
COLORS !! i = Some (cell_type, color) →
i = class_index cell_type ∧ color = reference cell_type.
Proof.
do 6 (destruct i as [|i]; [intros [= <- <-]; by split|]). by destruct i.
Qed.

Lemma sum_sq_diff_rgb (r g b : Z) (rest : list Z) (r' g' b' : Z) :
sum_sq_diff (r :: g :: b :: rest) [r'; g'; b'] =
(r - r') ^ 2 + (g - g') ^ 2 + (b - b') ^ 2.
Proof. unfold sum_sq_diff. destruct rest; simpl; lia. Qed.

Lemma channels_below (r g b : Z) (rest : list Z) (r' g' b' : Z) :
sum_sq_diff (r :: g :: b :: rest) [r'; g'; b'] < 25 * 25 →
-25 < r - r' < 25 ∧ -25 < g - g' < 25 ∧ -25 < b - b' < 25.
Proof. rewrite sum_sq_diff_rgb. nia. Qed.

Lemma strip_alpha_rgb (pixel : list Z) :
(3 ≤ length pixel)%nat →
∃ r g b rest, strip_alpha pixel = r :: g :: b :: rest.
Proof.
intros Hlen. unfold strip_alpha.
destruct pixel as [|r [|g [|b rest]]]; simpl in Hlen; try lia.
destruct (length (r :: g :: b :: rest) =? 4)%nat; simpl; eauto.
Qed.

(** No RGB or RGBA pixel is within tolerance of two reference colours:
  any two of them differ by at least 50 in one channel. *)
Lemma reference_colors_separated (pixel : list Z) (c1 c2 : CellType) :
(3 ≤ length pixel)%nat →
within_tolerance pixel c1 → within_tolerance pixel c2 → c1 = c2.
Proof.
intros Hlen. rewrite !within_tolerance_decide.
unfold distance_below, COLOR_TOLERANCE. rewrite !andb_true_iff, !Z.ltb_lt.
intros [_ H1] [_ H2].
destruct (strip_alpha_rgb pixel Hlen) as (r & g & b & rest & Hp).
rewrite Hp in H1, H2.
destruct c1, c2; try done; exfalso;
  apply channels_below in H1; apply channels_below in H2; lia.
Qed.

Lemma identify_color_Some (pixel : list Z) (cell_type : CellType) :
identify_color pixel = Some cell_type ↔
within_tolerance pixel cell_type ∧
∀ c, (class_index c < class_index cell_type)%nat → ¬ within_tolerance pixel c.
Proof.
unfold identify_color. rewrite identify_in_Some. split.
- intros (i & color & Hi & Hd & Hfirst).
  apply COLORS_lookup_inv in Hi as [-> ->]. split.
  + by apply within_tolerance_decide.
  + intros c Hc Hw. apply within_tolerance_decide in Hw.
    specialize (Hfirst _ _ Hc (COLORS_lookup c)). simpl in Hfirst. congruence.
- intros [Hw Hfirst]. exists (class_index cell_type), (reference cell_type).
  split; [apply COLORS_lookup|]. split; [by apply within_tolerance_decide|].
  intros j [c color] Hj Hc. pose proof Hc as Hc'.
  apply COLORS_lookup_inv in Hc' as [-> ->]. simpl.
  apply not_true_is_false. intros Hd. apply (Hfirst c Hj).
  by apply within_tolerance_decide.
Qed.

Lemma identify_color_None (pixel : list Z) :
identify_color pixel = None ↔ ∀ c, ¬ within_tolerance pixel c.
Proof.
unfold identify_color. rewrite identify_in_None. split.
- intros H c Hw. apply within_tolerance_decide in Hw.
  assert ((c, reference c) ∈ COLORS) as Hin.
  { apply list_elem_of_lookup. exists (class_index c). apply COLORS_lookup. }
  apply H in Hin. simpl in Hin. congruence.
- intros H [c color] [i Hi]%list_elem_of_lookup.
  apply COLORS_lookup_inv in Hi as [-> ->]. simpl.
  apply not_true_is_false. intros Hd. apply (H c).
  by apply within_tolerance_decide.
Qed.

(** C4.  [identify_color] returns a class exactly when the pixel, alpha
  stripped, is at Euclidean distance strictly below 25 from the class's
  reference colour and no class earlier in the order AZ, TK, RR, AR, LAR,
  USP is; it returns [None] exactly when no reference colour is within the
  tolerance.  Hence a pixel within tolerance of a class that collides with
  no other class is given that class, and for pixels of three or more
  channels no collision can occur with this colour table. *)
Theorem identify_color_first_match (pixel : list Z) :
COLOR_TOLERANCE = 25 ∧
fst <$> COLORS = [AZ; TK; RR; AR; LAR; USP] ∧
(∀ c, (fst <$> COLORS) !! class_index c = Some c) ∧
(∀ cell_type, identify_color pixel = Some cell_type ↔
   within_tolerance pixel cell_type ∧
   ∀ c, (class_index c < class_index cell_type)%nat →
        ¬ within_tolerance pixel c) ∧
(identify_color pixel = None ↔ ∀ c, ¬ within_tolerance pixel c) ∧
(∀ cell_type, within_tolerance pixel cell_type →
   (∀ c, c ≠ cell_type → ¬ within_tolerance pixel c) →
   identify_color pixel = Some cell_type) ∧
((3 ≤ length pixel)%nat →
 ∀ cell_type, within_tolerance pixel cell_type →
   identify_color pixel = Some cell_type).
Proof.
split; [done|]. split; [done|]. split; [by intros []|].
split; [apply identify_color_Some|]. split; [apply identify_color_None|].
assert (∀ cell_type, within_tolerance pixel cell_type →
  (∀ c, c ≠ cell_type → ¬ within_tolerance pixel c) →
  identify_color pixel = Some cell_type) as Hunique.
{ intros cell_type Hw Hothers. apply identify_color_Some. split; [done|].
  intros c Hc. apply Hothers. intros ->. lia. }
split; [done|].
intros Hlen cell_type Hw. apply Hunique; [done|].
intros c Hne Hc. apply Hne. by eapply reference_colors_separated.
Qed.

(** The tolerance is strict: a pixel at distance exactly 25 (15 and 20 off
  in two channels) matches nothing, one at distance 24 matches. *)
Example identify_color_boundary :
identify_color [0xDE + 15; 0x1A + 20; 0x03] = None ∧
identify_color [0xDE + 24; 0x1A; 0x03] = Some AZ ∧
identify_color [0xDE; 0x1A; 0x03; 255] = Some AZ ∧
identify_color [0xEB; 0xEB; 0xEB] = Some RR ∧
identify_color [0; 0; 0] = None.
Proof. by vm_compute. Qed.

End color_matcher.

(** ** Blob detector: extent, termination and the read log *)

Section blob_detector.
Context (img : Image) (target_color : list Z) (tolerance : Z).

Lemma out_of_extent_false (x y : Z) :
  out_of_extent img x y = false ↔ 0 ≤ x < width img ∧ 0 ≤ y < height img.
Proof.
  unfold out_of_extent. rewrite !orb_false_iff, !Z.ltb_ge, !Z.leb_gt. lia.
Qed.

Lemma elem_of_raster (xy : Z * Z) : xy ∈ raster img ↔ in_extent img xy.
Proof.
  unfold raster, in_extent. rewrite out_of_extent_false, list_elem_of_bind.
  destruct xy as [x y]. simpl. split.
  - intros (y' & Hx & Hy). apply list_elem_of_fmap in Hx.
    destruct Hx as (x' & [= -> ->] & Hx). apply elem_of_seqZ in Hy, Hx. lia.
  - intros [Hx Hy]. exists y. split.
    + apply list_elem_of_fmap. exists x. split; [done|]. apply elem_of_seqZ. lia.
    + apply elem_of_seqZ. lia.
Qed.

Lemma NoDup_raster : NoDup (raster img).
Proof.
  unfold raster. apply NoDup_bind.
  - intros y1 y2 xy _ _ (x1 & -> & _)%list_elem_of_fmap
      (x2 & [= _ ->] & _)%list_elem_of_fmap. done.
  - intros y _. apply NoDup_fmap_2; [|apply NoDup_seqZ].
    intros x1 x2 [= ->]. done.
  - apply NoDup_seqZ.
Qed.

Lemma getpixel_in_extent (xy : Z * Z) :
  in_extent img xy → getpixel img xy.1 xy.2 = Ok (pixels img xy.1 xy.2).
Proof. unfold in_extent, getpixel. by intros ->. Qed.

(** A coordinate outside the extent is dropped before any pixel is read:
    the state changes in its queue only. *)
Lemma fill_body_outside (xy : Z * Z) (rest : list (Z * Z)) (s : FillState) :
  ¬ in_extent img xy →
  fill_body img target_color tolerance xy rest s =
  Ok {| queue := rest; visited := visited s;
        component_pixels := component_pixels s; reads := reads s |}.
Proof.
  unfold in_extent, fill_body. destruct xy as [x y]. simpl. intros Hout.
  destruct (decide _); [done|]. by destruct (out_of_extent img x y).
Qed.

(** The three ways an iteration ends, and what each does to the state. *)
Lemma fill_body_cases (xy : Z * Z) (rest : list (Z * Z)) (s : FillState) :
  (fill_body img target_color tolerance xy rest s =
     Ok {| queue := rest; visited := visited s;
           component_pixels := component_pixels s; reads := reads s |} ∧
   (xy ∈ visited s ∨ ¬ in_extent img xy)) ∨
  (fill_body img target_color tolerance xy rest s =
     Ok {| queue := rest; visited := visited s;
           component_pixels := component_pixels s;
           reads := xy :: reads s |} ∧
   (xy ∉ visited s) ∧ in_extent img xy ∧
   matches_at img target_color tolerance xy = false) ∨
  (fill_body img target_color tolerance xy rest s =
     Ok {| queue := rest ++ neighbours xy;
           visited := {[ xy ]} ∪ visited s;
           component_pixels := component_pixels s ++ [xy];
           reads := xy :: reads s |} ∧
   (xy ∉ visited s) ∧ in_extent img xy ∧
   matches_at img target_color tolerance xy = true).
Proof.
  unfold fill_body, in_extent, matches_at, neighbours, getpixel.
  destruct xy as [x y]. simpl.
  destruct (decide ((x, y) ∈ visited s)) as [Hv|Hv]; [left; eauto|].
  destruct (out_of_extent img x y) eqn:Hout.
  { left. split; [done|]. right. congruence. }
  simpl. destruct (matches_color target_color tolerance (pixels img x y)); simpl.
  - right. right. eauto.
  - right. left. eauto.
Qed.

Lemma fill_loop_unfold (fuel : nat) (s : FillState) :
  fill_loop img target_color tolerance fuel s =
  match queue s with
  | [] => Ok s
  | xy :: rest =>
      match fuel with
      | O => OutOfFuel
      | S fuel' =>
          s' ← fill_body img target_color tolerance xy rest s;
          fill_loop img target_color tolerance fuel' s'
      end
  end.
Proof. by destruct fuel. Qed.

(** Induction principle for the loop: a property kept by every iteration
    holds when the loop ends, and the queue is then empty. *)
Lemma fill_loop_invariant (P : FillState → Prop) :
  (∀ xy rest s s', queue s = xy :: rest → P s →
     fill_body img target_color tolerance xy rest s = Ok s' → P s') →
  ∀ fuel s s', P s →
    fill_loop img target_color tolerance fuel s = Ok s' →
    P s' ∧ queue s' = [].
Proof.
  intros Hstep fuel. induction fuel as [|fuel IH]; intros s s' HP;
    rewrite fill_loop_unfold; destruct (queue s) as [|xy rest] eqn:Hq;
    try done.
  - intros [= <-]. done.
  - intros [= <-]. done.
  - destruct (fill_body img target_color tolerance xy rest s) as [s1| |] eqn:Hb;
      simpl; try done.
    intros Hloop. apply (IH s1); [|done]. by eapply Hstep.
Qed.

Lemma size_difference_visit (B V : gset (Z * Z)) (xy : Z * Z) :
  xy ∈ B → xy ∉ V → size (B ∖ V) = S (size (B ∖ ({[ xy ]} ∪ V))).
Proof.
  intros HB HV.
  replace (B ∖ V) with ({[ xy ]} ∪ B ∖ ({[ xy ]} ∪ V)).
  - rewrite size_union by set_solver. by rewrite size_singleton.
  - apply set_eq. intros p. rewrite elem_of_union, !elem_of_difference,
      elem_of_union, elem_of_singleton.
    destruct (decide (p = xy)) as [->|]; naive_solver.
Qed.

(** Every iteration lowers the measure by one. *)
Lemma fill_body_measure (xy : Z * Z) (rest : list (Z * Z)) (s : FillState) :
  queue s = xy :: rest →
  ∃ s', fill_body img target_color tolerance xy rest s = Ok s' ∧
        fill_measure img s = S (fill_measure img s').
Proof.
  intros Hq. unfold fill_measure. rewrite Hq.
  destruct (fill_body_cases xy rest s)
    as [[-> _]|[(-> & _)|(-> & Hv & Hin & _)]]; eexists; (split; [done|]);
    simpl; try done.
  rewrite length_app. simpl.
  rewrite (size_difference_visit _ (visited s) xy); [lia| |done].
  apply elem_of_list_to_set, elem_of_raster. done.
Qed.

(** The loop ends normally whenever the fuel covers the measure. *)
Lemma fill_loop_terminates (fuel : nat) (s : FillState) :
  (fill_measure img s ≤ fuel)%nat →
  ∃ s', fill_loop img target_color tolerance fuel s = Ok s'.
Proof.
  revert s. induction fuel as [|fuel IH]; intros s Hm;
    rewrite fill_loop_unfold; destruct (queue s) as [|xy rest] eqn:Hq;
    eauto.
  - unfold fill_measure in Hm. rewrite Hq in Hm. simpl in Hm. lia.
  - destruct (fill_body_measure xy rest s Hq) as (s1 & -> & Hs1). simpl.
    apply IH. lia.
Qed.

(** More fuel does not change a finished loop. *)
Lemma fill_loop_more_fuel (fuel fuel' : nat) (s s' : FillState) :
  (fuel ≤ fuel')%nat →
  fill_loop img target_color tolerance fuel s = Ok s' →
  fill_loop img target_color tolerance fuel' s = Ok s'.
Proof.
  revert fuel' s. induction fuel as [|fuel IH]; intros fuel' s Hle;
    rewrite !fill_loop_unfold; destruct (queue s) as [|xy rest]; try done.
  destruct fuel' as [|fuel']; [lia|].
  destruct (fill_body img target_color tolerance xy rest s) as [s1| |];
    simpl; try done.
  apply IH. lia.
Qed.

(** What a finished fill leaves behind: the new reads and the new
    component pixels are inside the extent, the component pixels have the
    target colour, and [visited] grew by exactly the new component
    pixels. *)
Lemma fill_loop_result (fuel : nat) (s s' : FillState) :
  fill_loop img target_color tolerance fuel s = Ok s' →
  queue s' = [] ∧
  (∃ new, reads s' = new ++ reads s ∧ Forall (in_extent img) new) ∧
  (∃ new, component_pixels s' = component_pixels s ++ new ∧
          Forall (in_extent img) new ∧
          Forall (λ xy, matches_at img target_color tolerance xy = true) new ∧
          visited s' = list_to_set new ∪ visited s).
Proof.
  intros Hloop.
  pose (P := λ t : FillState,
    (∃ new, reads t = new ++ reads s ∧ Forall (in_extent img) new) ∧
    (∃ new, component_pixels t = component_pixels s ++ new ∧
            Forall (in_extent img) new ∧
            Forall (λ xy, matches_at img target_color tolerance xy = true) new ∧
            visited t = list_to_set new ∪ visited s)).
  destruct (fill_loop_invariant P) with (fuel := fuel) (s := s) (s' := s')
    as [HP Hq]; [| |done|done].
  - clear Hloop s'. intros xy rest t t' Hqt [(nr & Hr & Hnr) (nc & Hc & Hnc & Hmc & Hv)] Hb.
    destruct (fill_body_cases xy rest t)
      as [[Heq _]|[(Heq & _ & Hin & _)|(Heq & _ & Hin & Hm)]];
      rewrite Heq in Hb; injection Hb as <-; unfold P; simpl.
    + eauto 10.
    + split; [|eauto 10]. exists (xy :: nr).
      rewrite Hr. split; [done|]. by constructor.
    + split.
      * exists (xy :: nr). rewrite Hr. split; [done|]. by constructor.
      * exists (nc ++ [xy]). rewrite Hc, app_assoc. split; [done|].
        split; [apply Forall_app; split; [done|by constructor]|].
        split; [apply Forall_app; split; [done|by constructor]|].
        rewrite Hv, list_to_set_app_L. set_solver.
  - unfold P. split.
    + by exists [].
    + exists []. rewrite app_nil_r. repeat split; try done. set_solver.
Qed.

(** A fill started from [start] alone collects a list of distinct pixels
    connected by horizontal and vertical steps. *)
Lemma fill_loop_linked (fuel : nat) (V : gset (Z * Z)) (rd : list (Z * Z))
    (start : Z * Z) (s' : FillState) :
  fill_loop img target_color tolerance fuel
    {| queue := [start]; visited := V; component_pixels := [];
       reads := rd |} = Ok s' →
  NoDup (component_pixels s') ∧ linked4 (component_pixels s').
Proof.
  intros Hloop.
  pose (P := λ t : FillState,
    (NoDup (component_pixels t) ∧ linked4 (component_pixels t)) ∧
    (∀ p, p ∈ component_pixels t → p ∈ visited t) ∧
    (component_pixels t ≠ [] → start ∈ visited t) ∧
    Forall (λ q, q = start ∨
                 ∃ p, p ∈ component_pixels t ∧ q ∈ neighbours p) (queue t)).
  destruct (fill_loop_invariant P) with (fuel := fuel) (s' := s')
    (s := {| queue := [start]; visited := V; component_pixels := [];
             reads := rd |}) as [[HP _] _]; [| |done|done].
  - clear Hloop s'. intros xy rest t t' Hqt ((Hnd & Hl) & Hcv & Hsv & Hq) Hb.
    rewrite Hqt in Hq. apply Forall_cons in Hq as [Hxy Hrest].
    destruct (fill_body_cases xy rest t)
      as [[Heq _]|[(Heq & _)|(Heq & Hv & _)]];
      rewrite Heq in Hb; injection Hb as <-; unfold P; simpl; try done.
    split; [split|split; [|split]].
    + apply NoDup_app. split; [done|]. split; [|apply NoDup_singleton].
      intros p Hp Hp'%list_elem_of_singleton. subst p. by apply Hv, Hcv.
    + intros i p Hi. destruct (decide (S i < length (component_pixels t))%nat).
      { rewrite lookup_app_l in Hi by done.
        destruct (Hl i p Hi) as (j & q & Hj & Hjq & Hn).
        exists j, q. split; [done|]. split; [|done].
        apply lookup_app_l_Some. done. }
      rewrite lookup_app_r in Hi by lia.
      apply list_lookup_singleton_Some in Hi as [Hi <-].
      destruct Hxy as [->|(q & [j Hj]%list_elem_of_lookup & Hn)].
      { exfalso. apply Hv, Hsv. intros Hnil. rewrite Hnil in *. simpl in *. lia. }
      exists j, q. apply lookup_lt_Some in Hj as Hlt.
      split; [lia|]. split; [|done]. by apply lookup_app_l_Some.
    + intros p [Hp|Hp%list_elem_of_singleton]%elem_of_app; set_solver.
    + intros _. destruct (decide (component_pixels t = [])) as [Hnil|Hne].
      * destruct Hxy as [->|(q & Hq & _)]; [set_solver|].
        rewrite Hnil in Hq. by apply elem_of_nil in Hq.
      * specialize (Hsv Hne). set_solver.
    + apply Forall_app. split.
      * eapply Forall_impl; [exact Hrest|]. intros q [->|(p & Hp & Hn)]; [by left|].
        right. exists p. split; [|done]. apply elem_of_app. by left.
      * apply Forall_forall. intros q Hq. right. exists xy. split; [|done].
        apply elem_of_app. right. by apply list_elem_of_singleton.
  - unfold P. simpl. split; [split; [constructor|]|].
    + intros i p Hi. done.
    + split; [by intros p Hp%elem_of_nil|]. split; [done|].
      constructor; [by left|constructor].
Qed.

End blob_detector.

(** ** Blob detector: the scan *)

Section scan.
Context (img : Image) (target_color : list Z) (tolerance : Z).

Lemma fill_fuel_enough (start : Z * Z) (V : gset (Z * Z))
    (cp rd : list (Z * Z)) :
  (fill_measure img {| queue := [start]; visited := V;
                       component_pixels := cp; reads := rd |}
   ≤ fill_fuel img)%nat.
Proof.
  unfold fill_measure, fill_fuel. simpl.
  rewrite <- (size_list_to_set (C := gset (Z * Z)) (raster img))
    by apply NoDup_raster.
  assert (size (list_to_set (raster img) ∖ V)
          ≤ size (list_to_set (raster img) : gset (Z * Z)))%nat
    by (apply subseteq_size; set_solver).
  lia.
Qed.

(** [flood_fill] from a coordinate of the image returns normally; it
    reads pixels of the image only; and it either finds nothing and leaves
    [visited] alone, or returns the triple of a non-empty blob whose
    pixels it added to [visited]. *)
Lemma flood_fill_spec (V : gset (Z * Z)) (lg : list (Z * Z)) (start : Z * Z) :
  in_extent img start →
  ∃ c V' lg',
    flood_fill img target_color tolerance (fill_fuel img) V lg start
      = Ok (c, V', lg') ∧
    (∃ new, lg' = new ++ lg ∧ Forall (in_extent img) new) ∧
    ((c = None ∧ V' = V) ∨
     (∃ ps b, c = Some b ∧ blob_of img target_color tolerance ps b ∧
              V' = list_to_set ps ∪ V)).
Proof.
  intros Hin. unfold flood_fill.
  destruct (decide (start ∈ V)).
  { eexists _, _, _. split; [done|]. split; [|by left]. by exists []. }
  rewrite (getpixel_in_extent img start Hin). cbn -[fill_loop fill_fuel].
  destruct (matches_color target_color tolerance
              (pixels img start.1 start.2)) eqn:Hm; cbn -[fill_loop fill_fuel].
  - destruct (fill_loop_terminates img target_color tolerance (fill_fuel img)
      {| queue := [start]; visited := V; component_pixels := [];
         reads := start :: lg |}) as [s' Hs']; [apply fill_fuel_enough|].
    rewrite Hs'. simpl. eexists _, _, _. split; [done|].
    pose proof (fill_loop_linked _ _ _ _ _ _ _ _ Hs') as [Hnd Hlk].
    apply fill_loop_result in Hs'
      as (_ & (nr & Hr & Hnr) & (nc & Hc & Hnc & Hmc & Hv)).
    simpl in *. rewrite Hc in Hnd, Hlk. split.
    + exists (nr ++ [start]). rewrite Hr, <- app_assoc. split; [done|].
      apply Forall_app. split; [done|by constructor].
    + rewrite Hc, Hv. destruct (center_of_mass nc) as [b|] eqn:Hb.
      * right. exists nc, b. by repeat split.
      * left. destruct nc; [|done]. split; [done|]. set_solver.
  - eexists _, _, _. split; [done|]. split; [|by left].
    exists [start]. split; [done|]. by constructor.
Qed.

(** Induction principle for a loop whose body always returns. *)
Lemma for_each_invariant {A S : Type} (body : S → A → res S)
    (P : S → Prop) (Q : A → Prop) (l : list A) (s : S) :
  (∀ s a, P s → Q a → ∃ s', body s a = Ok s' ∧ P s') →
  Forall Q l → P s →
  ∃ s', for_each body l s = Ok s' ∧ P s'.
Proof.
  intros Hbody Hl. revert s. induction Hl as [|a l Ha Hl IH]; intros s HP;
    simpl; [eauto|].
  destruct (Hbody s a HP Ha) as (s1 & -> & HP1). simpl. by apply IH.
Qed.

Lemma scan_step_spec (st : ScanState) (xy : Z * Z) :
  in_extent img xy →
  ∃ st', scan_step img target_color tolerance (fill_fuel img) st xy = Ok st' ∧
    (∃ new, log st' = new ++ log st ∧ Forall (in_extent img) new) ∧
    ((components st' = components st ∧ seen st' = seen st) ∨
     (∃ ps b, components st' = components st ++ [b] ∧
              blob_of img target_color tolerance ps b ∧
              seen st' = list_to_set ps ∪ seen st)).
Proof.
  intros Hin. unfold scan_step. destruct (decide (xy ∈ seen st)).
  { exists st. split; [done|]. split; [|by left]. by exists []. }
  destruct (flood_fill_spec (seen st) (log st) xy Hin)
    as (c & V' & lg' & -> & Hlog & [[-> ->]|(ps & b & -> & Hb & ->)]); simpl.
  - eexists. split; [done|]. split; [done|]. by left.
  - eexists. split; [done|]. split; [done|]. right. by exists ps, b.
Qed.

(** The scan always returns; every pixel it read lies inside the image and
    every component it reports is the triple of a non-empty blob of pixels
    of the image that have the target colour. *)
Lemma scan_image_spec :
  ∃ st, scan_image img target_color tolerance = Ok st ∧
    Forall (in_extent img) (log st) ∧
    Forall (λ c, ∃ ps, blob_of img target_color tolerance ps c)
           (components st).
Proof.
  unfold scan_image.
  apply (for_each_invariant _
    (λ st, Forall (in_extent img) (log st) ∧
           Forall (λ c, ∃ ps, blob_of img target_color tolerance ps c)
                  (components st))
    (in_extent img)).
  - intros st xy [Hlog Hcomp] Hin.
    destruct (scan_step_spec st xy Hin)
      as (st' & Hst' & (new & Hnew & Hfa) & Hres).
    exists st'. split; [done|]. split.
    + rewrite Hnew. by apply Forall_app.
    + destruct Hres as [[-> _]|(ps & b & -> & Hb & _)]; [done|].
      apply Forall_app. split; [done|]. constructor; [|done]. by exists ps.
  - apply Forall_forall. intros xy. apply elem_of_raster.
  - simpl. split; constructor.
Qed.

Lemma find_connected_components_spec :
  ∃ comps, find_connected_components img target_color tolerance = Ok comps ∧
    Forall (λ c, ∃ ps, blob_of img target_color tolerance ps c) comps.
Proof.
  unfold find_connected_components.
  destruct scan_image_spec as (st & -> & _ & Hc). simpl. eauto.
Qed.

(** C7.  A dequeued coordinate outside the image extent is dropped before
    any pixel is read (the state changes in its queue only); from any
    state, whatever coordinates its queue holds, the fill loop ends
    normally and every pixel it read lies inside the extent; and so does
    every read of a whole scan of the image, which always returns. *)
Theorem flood_fill_never_reads_outside :
  (∀ x y rest s,
     (x < 0 ∨ x >= width img ∨ y < 0 ∨ y >= height img) →
     fill_body img target_color tolerance (x, y) rest s =
     Ok {| queue := rest; visited := visited s;
           component_pixels := component_pixels s; reads := reads s |}) ∧
  (∀ s, ∃ s' new,
     fill_loop img target_color tolerance (fill_measure img s) s = Ok s' ∧
     reads s' = new ++ reads s ∧
     Forall (λ xy, 0 ≤ xy.1 < width img ∧ 0 ≤ xy.2 < height img) new) ∧
  (∃ st, scan_image img target_color tolerance = Ok st ∧
     Forall (λ xy, 0 ≤ xy.1 < width img ∧ 0 ≤ xy.2 < height img) (log st)).
Proof.
  assert (∀ l, Forall (in_extent img) l →
    Forall (λ xy, 0 ≤ xy.1 < width img ∧ 0 ≤ xy.2 < height img) l) as Hext.
  { intros l Hl. eapply Forall_impl; [exact Hl|]. intros xy. unfold in_extent.
    by rewrite out_of_extent_false. }
  split; [|split].
  - intros x y rest s Hout. apply fill_body_outside.
    unfold in_extent. rewrite out_of_extent_false. simpl. lia.
  - intros s.
    destruct (fill_loop_terminates img target_color tolerance
                (fill_measure img s) s) as [s' Hs']; [done|].
    pose proof (fill_loop_result _ _ _ _ _ _ Hs')
      as (_ & (new & Hr & Hnew) & _).
    exists s', new. auto.
  - destruct scan_image_spec as (st & Hst & Hlog & _). exists st. auto.
Qed.

End scan.

(** Reads of one scan of a 2 x 2 image whose top row is red, latest first:
    the border pixels enqueue coordinates with x = -1, x = 2 and y = -1,
    none of which is read. *)
Example scan_reads_2x2 :
  log <$> (match scan_image (red_on_black 2 2 [(0,0);(1,0)]) red 25 with
           | Ok st => Some st | _ => None end)
  = Some [(1, 1); (0, 1); (1, 1); (0, 1); (1, 0); (0, 0); (0, 0)].
Proof. by vm_compute. Qed.

(** ** Blob detector: pixels without a matching neighbour *)

Section isolated_pixels.
Context (img : Image) (target_color : list Z) (tolerance : Z).





Lemma flood_fill_other_color (V : gset (Z * Z)) (lg : list (Z * Z))
    (xy : Z * Z) :
  in_extent img xy → xy ∉ V →
  matches_at img target_color tolerance xy = false →
  flood_fill img target_color tolerance (fill_fuel img) V lg xy
  = Ok (None, V, xy :: lg).
Proof.
  intros Hin HV Hm. unfold flood_fill. rewrite decide_False by done.
  rewrite (getpixel_in_extent img xy Hin). cbn -[fill_loop fill_fuel].
  unfold matches_at in Hm. by rewrite Hm.
Qed.


Lemma scan_step_other_color (st : ScanState) (xy : Z * Z) :
  in_extent img xy → xy ∉ seen st →
  matches_at img target_color tolerance xy = false →
  scan_step img target_color tolerance (fill_fuel img) st xy
  = Ok {| seen := seen st; components := components st;
          log := xy :: log st |}.
Proof.
  intros Hin Hs Hm. unfold scan_step. rewrite decide_False by done.
  by rewrite flood_fill_other_color.
Qed.



Lemma elem_of_matching_pixels (xy : Z * Z) :
  xy ∈ matching_pixels img target_color tolerance ↔
  in_extent img xy ∧ matches_at img target_color tolerance xy = true.
Proof.
  unfold matching_pixels. rewrite list_elem_of_filter, elem_of_raster.
  tauto.
Qed.


End isolated_pixels.


Example anti_diagonal_pixels :
  find_connected_components (red_on_black 3 3 [(2, 0); (1, 1)]) red 25
  = Ok [((2 # 1)%Q, (0 # 1)%Q, 1); ((1 # 1)%Q, (1 # 1)%Q, 1)].
Proof. by vm_compute. Qed.

(** Sharing an edge does merge: the same detector reports one blob of
    area 2 for two pixels side by side. *)
Example edge_pixels_one_blob :
  find_connected_components (red_on_black 3 3 [(0, 0); (1, 0)]) red 25
  = Ok [((1 # 2)%Q, (0 # 2)%Q, 2)].
Proof. by vm_compute. Qed.

(** ** Blob detector: blobs are the maximal 4-connected regions *)

Section regions.
Context (img : Image) (target_color : list Z) (tolerance : Z).

Lemma neighbours_sym (p q : Z * Z) : q ∈ neighbours p → p ∈ neighbours q.
Proof.
  destruct p as [a b], q as [c d]. unfold neighbours. simpl.
  repeat setoid_rewrite elem_of_cons. setoid_rewrite elem_of_nil.
  intros H. destruct_or!; simplify_eq;
    [right; left|left|do 3 right; left|do 2 right; left]; f_equal; lia.
Qed.

Lemma connected4_target_r (p q : Z * Z) :
  connected4 img target_color tolerance p q →
  target_pixel img target_color tolerance q.
Proof. by destruct 1. Qed.

Lemma connected4_target_l (p q : Z * Z) :
  connected4 img target_color tolerance p q →
  target_pixel img target_color tolerance p.
Proof. by induction 1. Qed.

Lemma connected4_trans (p q r : Z * Z) :
  connected4 img target_color tolerance p q →
  connected4 img target_color tolerance q r →
  connected4 img target_color tolerance p r.
Proof.
  intros Hpq. induction 1 as [q Hq|q r t Hqr IH Hn Ht]; [done|].
  eapply connected4_step; [by apply IH|done..].
Qed.

Lemma connected4_sym (p q : Z * Z) :
  connected4 img target_color tolerance p q →
  connected4 img target_color tolerance q p.
Proof.
  induction 1 as [p Hp|p q r Hpq IH Hn Hr]; [by constructor|].
  apply (connected4_trans r q p); [|done].
  eapply connected4_step; [by apply connected4_refl| |].
  - by apply neighbours_sym.
  - by eapply connected4_target_r.
Qed.

(** The pixels a fill collects were not visited before it. *)
Lemma fill_loop_fresh (fuel : nat) (V : gset (Z * Z)) (t t' : FillState) :
  (∀ p, p ∈ component_pixels t → p ∉ V) → V ⊆ visited t →
  fill_loop img target_color tolerance fuel t = Ok t' →
  ∀ p, p ∈ component_pixels t' → p ∉ V.
Proof.
  intros H1 H2 Hl.
  destruct (fill_loop_invariant img target_color tolerance
    (λ u, (∀ p, p ∈ component_pixels u → p ∉ V) ∧ V ⊆ visited u))
    with (fuel := fuel) (s := t) (s' := t') as [[H _] _];
    [|done|done|done].
  intros xy rest u u' _ [Hu1 Hu2] Hb.
  destruct (fill_body_cases img target_color tolerance xy rest u)
    as [[Heq _]|[(Heq & _)|(Heq & Hv & _)]];
    rewrite Heq in Hb; injection Hb as <-; simpl; [done|done|].
  split; [|set_solver].
  intros p [?|Hp%list_elem_of_singleton]%elem_of_app; [auto|]. subst p.
  intros ?. apply Hv. by apply Hu2.
Qed.

(** The fill started at an unvisited pixel of the target colour, with a
    closed [visited] set, collects exactly the pixels connected to the
    start and leaves [visited] closed. *)
Lemma fill_loop_region (fuel : nat) (V : gset (Z * Z)) (rd : list (Z * Z))
    (start : Z * Z) (s' : FillState) :
  target_pixel img target_color tolerance start → start ∉ V →
  closed4 img target_color tolerance V →
  fill_loop img target_color tolerance fuel
    {| queue := [start]; visited := V; component_pixels := [];
       reads := rd |} = Ok s' →
  (∀ q, q ∈ component_pixels s' ↔
        connected4 img target_color tolerance start q) ∧
  visited s' = list_to_set (component_pixels s') ∪ V ∧
  closed4 img target_color tolerance (visited s').
Proof.
  intros Hstart HV Hclosed Hloop.
  pose (P := λ t : FillState,
    (∀ q, q ∈ component_pixels t →
          connected4 img target_color tolerance start q) ∧
    Forall (λ q, q = start ∨
                 ∃ p, p ∈ component_pixels t ∧ q ∈ neighbours p) (queue t) ∧
    (start ∈ queue t ∨ start ∈ component_pixels t) ∧
    (∀ p n, p ∈ component_pixels t → n ∈ neighbours p →
            n ∈ queue t ∨ n ∈ visited t ∨
            ¬ target_pixel img target_color tolerance n) ∧
    visited t = list_to_set (component_pixels t) ∪ V).
  destruct (fill_loop_invariant img target_color tolerance P)
    with (fuel := fuel) (s' := s')
      (s := {| queue := [start]; visited := V; component_pixels := [];
               reads := rd |})
    as [(Hsound & _ & Hst & Hnb & Hvis) Hq]; [| |done|].
  - clear Hloop s'.
    intros xy rest t t' Hqt (Hsound & Hqueue & Hst & Hnb & Hvis) Hb.
    rewrite Hqt in Hqueue, Hst, Hnb.
    apply Forall_cons in Hqueue as [Hxy Hrest].
    assert (∀ n, n ∈ xy :: rest → n ∈ rest ∨ n = xy) as Hpop.
    { intros n [->|?]%elem_of_cons; auto. }
    destruct (fill_body_cases img target_color tolerance xy rest t)
      as [[Heq Hrej]|[(Heq & Hv & Hin & Hm)|(Heq & Hv & Hin & Hm)]];
      rewrite Heq in Hb; injection Hb as <-; unfold P; simpl.
    + split; [done|]. split; [done|]. split; [|split; [|done]].
      * destruct Hst as [[->|?]%elem_of_cons|?]; auto.
        destruct Hrej as [Hin|Hout].
        -- rewrite Hvis in Hin. set_solver.
        -- by destruct Hstart.
      * intros p n Hp Hn. destruct (Hnb p n Hp Hn) as [Hq|[?|?]]; auto.
        destruct (Hpop n Hq) as [? | ->]; auto.
        destruct Hrej as [?|Hout]; auto.
        do 2 right. by intros [? _].
    + split; [done|]. split; [done|]. split; [|split; [|done]].
      * destruct Hst as [[->|?]%elem_of_cons|?]; auto.
        destruct Hstart as [_ Hms]. congruence.
      * intros p n Hp Hn. destruct (Hnb p n Hp Hn) as [Hq|[?|?]]; auto.
        destruct (Hpop n Hq) as [? | ->]; auto.
        do 2 right. intros [_ ?]. congruence.
    + assert (connected4 img target_color tolerance start xy) as Hcxy.
      { destruct Hxy as [->|(p & Hp & Hn)]; [by constructor|].
        eapply connected4_step; [by apply Hsound|done|done]. }
      split; [|split; [|split; [|split]]].
      * intros q [?|Hq%list_elem_of_singleton]%elem_of_app; [auto|by subst q].
      * apply Forall_app. split.
        -- eapply Forall_impl; [exact Hrest|].
           intros q [->|(p & Hp & Hn)]; [by left|].
           right. exists p. split; [|done]. apply elem_of_app. by left.
        -- apply Forall_forall. intros q Hq. right. exists xy.
           split; [|done]. apply elem_of_app. right.
           by apply list_elem_of_singleton.
      * destruct Hst as [[->|?]%elem_of_cons|?].
        -- right. apply elem_of_app. right. by apply list_elem_of_singleton.
        -- left. apply elem_of_app. by left.
        -- right. apply elem_of_app. by left.
      * intros p n [Hp|Hp%list_elem_of_singleton]%elem_of_app Hn;
          [|subst p].
        -- destruct (Hnb p n Hp Hn) as [Hq|[?|?]]; auto.
           ++ destruct (Hpop n Hq) as [? | ->].
              ** left. apply elem_of_app. by left.
              ** right. left. apply elem_of_union. left.
                 by apply elem_of_singleton.
           ++ right. left. apply elem_of_union. by right.
        -- left. apply elem_of_app. by right.
      * rewrite Hvis. apply set_eq. intros q.
        rewrite !elem_of_union, !elem_of_list_to_set, elem_of_app,
          elem_of_singleton, list_elem_of_singleton. tauto.
  - unfold P. simpl. split; [by intros q ?%elem_of_nil|].
    split; [constructor; [by left|constructor]|].
    split; [left; by left|]. split; [by intros p n ?%elem_of_nil|].
    set_solver.
  - rewrite Hq in Hst, Hnb.
    assert (start ∈ component_pixels s') as Hs0.
    { destruct Hst as [?%elem_of_nil|?]; done. }
    assert (∀ p n, p ∈ component_pixels s' → n ∈ neighbours p →
              target_pixel img target_color tolerance n →
              n ∈ component_pixels s') as Hstep.
    { intros p n Hp Hn Ht.
      destruct (Hnb p n Hp Hn) as [?%elem_of_nil|[Hin|?]]; [done| |done].
      rewrite Hvis in Hin.
      apply elem_of_union in Hin as [?%elem_of_list_to_set|HinV]; [done|].
      exfalso.
      assert (p ∈ V) as HpV.
      { apply (Hclosed n p HinV); [by apply neighbours_sym|].
        by eapply connected4_target_r, Hsound. }
      revert HpV. eapply (fill_loop_fresh fuel V _ s'); [| |exact Hloop|exact Hp];
        simpl; [by intros ? ?%elem_of_nil|done]. }
    split; [|split; [done|]].
    + intros q. split; [apply Hsound|].
      induction 1 as [p Hp|p q r Hpq IH Hn Hr]; [done|].
      by apply (Hstep q r); [apply IH| |].
    + intros r n Hr Hn Ht. rewrite Hvis in Hr |- *.
      apply elem_of_union in Hr as [Hr%elem_of_list_to_set|Hr].
      * apply elem_of_union. left. apply elem_of_list_to_set.
        by apply (Hstep r n).
      * apply elem_of_union. right. by apply (Hclosed r n).
Qed.

Lemma flood_fill_region (V : gset (Z * Z)) (lg : list (Z * Z))
    (start : Z * Z) :
  target_pixel img target_color tolerance start → start ∉ V →
  closed4 img target_color tolerance V →
  ∃ ps b lg',
    flood_fill img target_color tolerance (fill_fuel img) V lg start
      = Ok (Some b, list_to_set ps ∪ V, lg') ∧
    blob_of img target_color tolerance ps b ∧
    region4 img target_color tolerance ps ∧
    start ∈ ps ∧ (∀ p, p ∈ ps → p ∉ V) ∧
    closed4 img target_color tolerance (list_to_set ps ∪ V).
Proof.
  intros Hstart HV Hclosed. pose proof Hstart as [Hin Hm].
  unfold flood_fill. rewrite decide_False by done.
  rewrite (getpixel_in_extent img start Hin). cbn -[fill_loop fill_fuel].
  unfold matches_at in Hm. rewrite Hm. cbn -[fill_loop fill_fuel].
  destruct (fill_loop_terminates img target_color tolerance (fill_fuel img)
    {| queue := [start]; visited := V; component_pixels := [];
       reads := start :: lg |}) as [s' Hs']; [apply fill_fuel_enough|].
  rewrite Hs'. cbn [mbind res_bind].
  pose proof (fill_loop_linked _ _ _ _ _ _ _ _ Hs') as [Hnd Hlk].
  pose proof (fill_loop_region _ _ _ _ _ Hstart HV Hclosed Hs')
    as (Hreg & Hvis & Hcl).
  pose proof (fill_loop_result _ _ _ _ _ _ Hs')
    as (_ & _ & (nc & Hc & Hnc & Hmc & _)).
  simpl in Hc. rewrite <- Hc in Hnc, Hmc. clear Hc nc.
  assert (start ∈ component_pixels s') as Hs0.
  { apply Hreg. by constructor. }
  destruct (center_of_mass (component_pixels s')) as [b|] eqn:Hb.
  2: { destruct (component_pixels s'); [by apply elem_of_nil in Hs0|done]. }
  exists (component_pixels s'), b, (reads s'). rewrite Hvis.
  split; [done|]. split; [done|]. split; [|split; [done|split]].
  - split; [intros Hnil; rewrite Hnil in Hs0; by apply elem_of_nil in Hs0|].
    split; [done|]. intros p Hp q. rewrite !Hreg. apply Hreg in Hp. split.
    + intros Hq. eapply connected4_trans; [by apply connected4_sym|done].
    + intros Hq. by eapply connected4_trans.
  - eapply (fill_loop_fresh (fill_fuel img) V); [| |exact Hs'];
      simpl; [by intros ? ?%elem_of_nil|done].
  - by rewrite <- Hvis.
Qed.

Lemma scan_step_visited (fuel : nat) (st : ScanState) (xy : Z * Z) :
  xy ∈ seen st → scan_step img target_color tolerance fuel st xy = Ok st.
Proof. intros Hxy. unfold scan_step. by rewrite decide_True. Qed.

Lemma scan_step_region (st : ScanState) (xy : Z * Z) :
  target_pixel img target_color tolerance xy → xy ∉ seen st →
  closed4 img target_color tolerance (seen st) →
  ∃ ps b lg',
    scan_step img target_color tolerance (fill_fuel img) st xy
      = Ok {| seen := list_to_set ps ∪ seen st;
              components := components st ++ [b]; log := lg' |} ∧
    blob_of img target_color tolerance ps b ∧
    region4 img target_color tolerance ps ∧
    xy ∈ ps ∧ (∀ p, p ∈ ps → p ∉ seen st) ∧
    closed4 img target_color tolerance (list_to_set ps ∪ seen st).
Proof.
  intros Ht Hxy Hcl.
  destruct (flood_fill_region (seen st) (log st) xy Ht Hxy Hcl)
    as (ps & b & lg' & Hff & Hrest).
  exists ps, b, lg'. split; [|done].
  unfold scan_step. rewrite decide_False by done. by rewrite Hff.
Qed.

(** The state of the scan after some coordinates: the components reported
    so far are the triples of maximal 4-connected regions that do not
    overlap, and [visited] holds exactly their pixels. *)
Lemma scan_regions (l : list (Z * Z)) :
  Forall (in_extent img) l →
  ∀ st blobs,
    closed4 img target_color tolerance (seen st) →
    seen st = list_to_set (mjoin blobs) →
    Forall2 (blob_of img target_color tolerance) blobs (components st) →
    Forall (region4 img target_color tolerance) blobs →
    NoDup (mjoin blobs) →
    ∃ st' blobs',
      for_each (scan_step img target_color tolerance (fill_fuel img)) l st
        = Ok st' ∧
      closed4 img target_color tolerance (seen st') ∧
      seen st' = list_to_set (mjoin blobs') ∧
      Forall2 (blob_of img target_color tolerance) blobs' (components st') ∧
      Forall (region4 img target_color tolerance) blobs' ∧
      NoDup (mjoin blobs') ∧
      seen st ⊆ seen st' ∧
      ∀ p, p ∈ l → target_pixel img target_color tolerance p → p ∈ seen st'.
Proof.
  induction 1 as [|xy l Hin Hl IH]; intros st blobs Hcl Hseen Hblobs Hreg Hnd;
    cbn [for_each].
  - exists st, blobs. repeat split; try done. by intros p ?%elem_of_nil.
  - destruct (decide (xy ∈ seen st)) as [Hxy|Hxy].
    { rewrite scan_step_visited by done. cbn [mbind res_bind].
      destruct (IH st blobs) as (st' & blobs' & ? & ? & ? & ? & ? & ? & Hsub & Hcov);
        try done.
      exists st', blobs'. repeat split; try done.
      intros p [->|?]%elem_of_cons ?; [by apply Hsub|by apply Hcov]. }
    destruct (matches_at img target_color tolerance xy) eqn:Hm.
    + destruct (scan_step_region st xy)
        as (ps & b & lg' & -> & Hb & Hr & Hxyps & Hfresh & Hcl');
        [done|done|done|].
      cbn [mbind res_bind].
      destruct (IH {| seen := list_to_set ps ∪ seen st;
                      components := components st ++ [b]; log := lg' |}
                   (blobs ++ [ps]))
        as (st' & blobs' & ? & ? & ? & ? & ? & ? & Hsub & Hcov); simpl.
      * done.
      * rewrite Hseen, join_app, list_to_set_app_L. simpl.
        rewrite app_nil_r. set_solver.
      * apply Forall2_app; [done|]. by constructor.
      * apply Forall_app. split; [done|]. by constructor.
      * rewrite join_app. simpl. rewrite app_nil_r. apply NoDup_app.
        split; [done|]. split; [|by destruct Hr as (_ & ? & _)].
        intros p Hp Hp'. apply (Hfresh p Hp'). rewrite Hseen.
        by apply elem_of_list_to_set.
      * exists st', blobs'. simpl in Hsub. repeat split; try done.
        -- set_solver.
        -- intros p [->|?]%elem_of_cons ?; [|by apply Hcov].
           apply Hsub. apply elem_of_union. left.
           by apply elem_of_list_to_set.
    + rewrite (scan_step_other_color img target_color tolerance) by done.
      cbn [mbind res_bind].
      destruct (IH {| seen := seen st; components := components st;
                      log := xy :: log st |} blobs)
        as (st' & blobs' & ? & ? & ? & ? & ? & ? & Hsub & Hcov); try done.
      exists st', blobs'. repeat split; try done.
      intros p Hp Ht. apply elem_of_cons in Hp as [->|?]; [|by apply Hcov].
      destruct Ht. congruence.
Qed.

(** The blobs reported for an image are its maximal 4-connected regions of
    the target colour: the components are the triples of lists of pixels
    that are each such a region, that do not overlap, and that together
    hold every pixel of the target colour and nothing else. *)
Lemma find_connected_components_regions :
  ∃ blobs comps,
    find_connected_components img target_color tolerance = Ok comps ∧
    Forall2 (blob_of img target_color tolerance) blobs comps ∧
    Forall (region4 img target_color tolerance) blobs ∧
    NoDup (mjoin blobs) ∧
    ∀ p, p ∈ mjoin blobs ↔ target_pixel img target_color tolerance p.
Proof.
  unfold find_connected_components, scan_image.
  destruct (scan_regions (raster img)) with
    (st := {| seen := ∅; components := []; log := [] |})
    (blobs := @nil (list (Z * Z)))
    as (st' & blobs' & -> & _ & Hseen & Hblobs & Hreg & Hnd & _ & Hcov);
    simpl.
  - apply Forall_forall. intros xy. apply elem_of_raster.
  - intros r n Hr. by apply not_elem_of_empty in Hr.
  - done.
  - constructor.
  - constructor.
  - constructor.
  - exists blobs', (components st').
    split; [done|]. split; [done|]. split; [done|]. split; [done|].
    intros p. split.
    + intros (ps & Hp & Hps)%list_elem_of_join.
      apply list_elem_of_lookup in Hps as [i Hi].
      destruct (Forall2_lookup_l _ _ _ _ _ Hblobs Hi) as (c & _ & Hc).
      destruct Hc as (_ & Hin & Hm & _).
      rewrite Forall_forall in Hin. rewrite Forall_forall in Hm.
      split; auto.
    + intros Ht. apply (elem_of_list_to_set (C := gset (Z * Z))).
      rewrite <- Hseen. apply Hcov; [|done].
      apply elem_of_raster. by destruct Ht.
Qed.

End regions.

(** ** Coordinate normalizer *)

Lemma StronglySorted_lookup_le (l : list Z) (i j : nat) (v w : Z) :
  StronglySorted Z.le l → l !! i = Some v → l !! j = Some w →
  (i < j)%nat → v ≤ w.
Proof.
  intros Hl. revert i j. induction Hl as [|x l Hl IH Hx]; intros i j Hi Hj Hij.
  - done.
  - destruct j as [|j]; [lia|]. simpl in Hj. destruct i as [|i].
    + simpl in Hi. injection Hi as <-.
      rewrite Forall_forall in Hx. apply Hx. by eapply list_elem_of_lookup_2.
    + simpl in Hi. apply (IH i j); [done..|lia].
Qed.

Lemma StronglySorted_seqZ (m n : Z) : StronglySorted Z.le (seqZ m n).
Proof.
  unfold seqZ. generalize (Z.to_nat n) as k. generalize 0%nat as s.
  intros s k. revert s. induction k as [|k IH]; intros s; simpl.
  - constructor.
  - constructor; [apply IH|]. apply Forall_forall.
    intros v (i & -> & Hi%elem_of_seq)%list_elem_of_fmap. lia.
Qed.

Lemma enumerate_from_notin (l : list Z) (new : nat) (m : gmap Z Z) (v : Z) :
  v ∉ l → enumerate_from new l m !! v = m !! v.
Proof.
  revert new m. induction l as [|old l IH]; intros new m Hv; simpl; [done|].
  apply not_elem_of_cons in Hv as [Hne Hv].
  rewrite IH by done. by rewrite lookup_insert_ne.
Qed.

Lemma enumerate_from_lookup (l : list Z) (new : nat) (m : gmap Z Z)
    (k : nat) (v : Z) :
  NoDup l → l !! k = Some v →
  enumerate_from new l m !! v = Some (Z.of_nat (new + k)).
Proof.
  revert new m k. induction l as [|old l IH]; intros new m k Hnd Hk; [done|].
  apply NoDup_cons in Hnd as [Hold Hnd]. destruct k as [|k]; simpl in *.
  - injection Hk as ->. rewrite enumerate_from_notin by done.
    rewrite lookup_insert_eq. f_equal. lia.
  - rewrite (IH (S new) _ k) by done. f_equal. lia.
Qed.

Lemma enumerate_map_lookup (l : list Z) (v n : Z) :
  NoDup l →
  enumerate_map l !! v = Some n ↔ ∃ k, l !! k = Some v ∧ n = Z.of_nat k.
Proof.
  intros Hnd. unfold enumerate_map. split.
  - intros Hv. destruct (decide (v ∈ l)) as [[k Hk]%list_elem_of_lookup|Hn].
    + exists k. split; [done|].
      rewrite (enumerate_from_lookup l 0 ∅ k v) in Hv by done.
      injection Hv as <-. done.
    + rewrite enumerate_from_notin in Hv by done. done.
  - intros (k & Hk & ->). by rewrite (enumerate_from_lookup l 0 ∅ k v).
Qed.

Section normalizer.
Context (set_iter : gset Z → list Z).
Context (set_iter_perm : ∀ X, set_iter X ≡ₚ elements X).

Lemma sorted_Permutation (X : gset Z) : sorted set_iter X ≡ₚ elements X.
Proof. unfold sorted. by rewrite merge_sort_Permutation. Qed.

Lemma sorted_StronglySorted (X : gset Z) :
  StronglySorted Z.le (sorted set_iter X).
Proof. apply StronglySorted_merge_sort; apply _. Qed.

Lemma sorted_NoDup (X : gset Z) : NoDup (sorted set_iter X).
Proof. rewrite (sorted_Permutation X). apply NoDup_elements. Qed.

Lemma elem_of_sorted (X : gset Z) (v : Z) : v ∈ sorted set_iter X ↔ v ∈ X.
Proof. rewrite (sorted_Permutation X). apply elem_of_elements. Qed.

Lemma length_sorted (X : gset Z) : length (sorted set_iter X) = size X.
Proof. by rewrite (sorted_Permutation X). Qed.

(** [sorted] is fixed by the set: any sorted list of the distinct
    elements is the one it returns. *)
Lemma sorted_unique (X : gset Z) (l : list Z) :
  StronglySorted Z.le l → NoDup l → (∀ v, v ∈ l ↔ v ∈ X) →
  sorted set_iter X = l.
Proof.
  intros Hl Hnd Hel. apply (StronglySorted_unique Z.le);
    [apply sorted_StronglySorted|done|].
  apply NoDup_Permutation; [apply sorted_NoDup|done|].
  intros v. by rewrite elem_of_sorted, Hel.
Qed.

Lemma sorted_lookup_lt (X : gset Z) (i j : nat) (v w : Z) :
  sorted set_iter X !! i = Some v → sorted set_iter X !! j = Some w →
  (i < j)%nat → v < w.
Proof.
  intros Hi Hj Hij.
  pose proof (StronglySorted_lookup_le _ i j v w
                (sorted_StronglySorted X) Hi Hj Hij) as Hle.
  assert (v ≠ w); [|lia]. intros ->.
  pose proof (NoDup_lookup _ i j w (sorted_NoDup X) Hi Hj). lia.
Qed.

Lemma sorted_lookup_lt_iff (X : gset Z) (i j : nat) (v w : Z) :
  sorted set_iter X !! i = Some v → sorted set_iter X !! j = Some w →
  v < w ↔ (i < j)%nat.
Proof.
  intros Hi Hj. split; [|by apply (sorted_lookup_lt X)].
  intros Hvw. destruct (decide (i < j)%nat) as [|Hge]; [done|exfalso].
  destruct (decide (i = j)) as [->|Hne]; [simplify_eq; lia|].
  pose proof (sorted_lookup_lt X j i w v Hj Hi). lia.
Qed.

(** The rank map of a set is an order-preserving bijection onto
    [0 .. size - 1]. *)
Lemma enumerate_sorted_bijection (X : gset Z) :
  rank_bijection X (enumerate_map (sorted set_iter X)).
Proof.
  pose proof (sorted_NoDup X) as Hnd.
  unfold rank_bijection. split; [|split; [|split]].
  - intros v. rewrite <- elem_of_sorted. split.
    + intros [k Hk]%list_elem_of_lookup. exists (Z.of_nat k).
      apply enumerate_map_lookup; eauto.
    + intros [n (k & Hk & _)%enumerate_map_lookup]; [|done].
      by eapply list_elem_of_lookup_2.
  - intros v n (k & Hk & ->)%enumerate_map_lookup; [|done].
    apply lookup_lt_Some in Hk. rewrite length_sorted in Hk. lia.
  - intros v w n k (i & Hi & ->)%enumerate_map_lookup
      (j & Hj & ->)%enumerate_map_lookup; [|done..].
    rewrite (sorted_lookup_lt_iff X i j v w Hi Hj). lia.
  - intros n Hn.
    destruct (lookup_lt_is_Some_2 (sorted set_iter X) (Z.to_nat n))
      as [v Hv]; [rewrite length_sorted; lia|].
    exists v. split; [apply elem_of_sorted; by eapply list_elem_of_lookup_2|].
    apply enumerate_map_lookup; [done|]. exists (Z.to_nat n).
    split; [done|lia].
Qed.

(** On a dense set the rank map is the identity. *)
Lemma enumerate_sorted_dense (X : gset Z) (v : Z) :
  dense X → v ∈ X → enumerate_map (sorted set_iter X) !! v = Some v.
Proof.
  intros Hd Hv.
  assert (X = list_to_set (seqZ 0 (Z.of_nat (size X)))) as HX.
  { apply set_subseteq_size_eq.
    - intros w Hw. apply elem_of_list_to_set, elem_of_seqZ.
      specialize (Hd w Hw). lia.
    - rewrite size_list_to_set by apply NoDup_seqZ.
      rewrite length_seqZ. lia. }
  assert (sorted set_iter X = seqZ 0 (Z.of_nat (size X))) as Hs.
  { apply sorted_unique; [apply StronglySorted_seqZ|apply NoDup_seqZ|].
    intros w. rewrite HX at 2. by rewrite elem_of_list_to_set. }
  apply enumerate_map_lookup; [apply sorted_NoDup|].
  exists (Z.to_nat v). specialize (Hd v Hv). split; [|lia].
  rewrite Hs. apply lookup_seqZ. lia.
Qed.

End normalizer.

Lemma map_res_Forall2 {A B : Type} (f : A → res B) (l : list A) :
  (∀ a, a ∈ l → ∃ b, f a = Ok b) →
  ∃ bs, map_res f l = Ok bs ∧ Forall2 (λ a b, f a = Ok b) l bs.
Proof.
  induction l as [|a l IH]; intros Hf; simpl.
  - exists []. split; [done|constructor].
  - destruct (Hf a) as [b Hb]; [by left|]. rewrite Hb. simpl.
    destruct IH as (bs & -> & Hbs); [intros a' Ha'; apply Hf; by right|].
    simpl. exists (b :: bs). split; [done|]. by constructor.
Qed.

Lemma map_res_Ok_Forall2 {A B : Type} (f : A → res B) (l : list A)
    (bs : list B) :
  map_res f l = Ok bs → Forall2 (λ a b, f a = Ok b) l bs.
Proof.
  revert bs. induction l as [|a l IH]; intros bs; simpl.
  - intros [= <-]. constructor.
  - destruct (f a) as [b| |] eqn:Hb; simpl; try done.
    destruct (map_res f l) as [bs'| |]; simpl; try done.
    intros [= <-]. constructor; [done|]. by apply IH.
Qed.

Lemma normalize_cell_Ok (x_map y_map : gmap Z Z) (c c' : Cell) :
  normalize_cell x_map y_map c = Ok c' → normalized_from x_map y_map c c'.
Proof.
  unfold normalize_cell, getitem, normalized_from.
  destruct (x_map !! grid_x c) as [nx|]; simpl; [|done].
  destruct (y_map !! grid_y c) as [ny|]; simpl; [|done].
  by intros [= <-].
Qed.

Lemma normalize_cell_total (x_map y_map : gmap Z Z) (c : Cell) :
  is_Some (x_map !! grid_x c) → is_Some (y_map !! grid_y c) →
  ∃ c', normalize_cell x_map y_map c = Ok c'.
Proof.
  intros [nx Hx] [ny Hy]. unfold normalize_cell, getitem.
  rewrite Hx, Hy. simpl. eauto.
Qed.

Lemma elem_of_all_cells (cells : list (CellType * list Cell)) (c : Cell) :
  c ∈ all_cells cells ↔ ∃ e, e ∈ cells ∧ c ∈ e.2.
Proof.
  unfold all_cells. rewrite list_elem_of_bind. naive_solver.
Qed.

Lemma elem_of_all_x (cells : list (CellType * list Cell)) (v : Z) :
  v ∈ all_x cells ↔ ∃ c, c ∈ all_cells cells ∧ grid_x c = v.
Proof.
  unfold all_x. rewrite elem_of_list_to_set, list_elem_of_fmap. naive_solver.
Qed.

Lemma elem_of_all_y (cells : list (CellType * list Cell)) (v : Z) :
  v ∈ all_y cells ↔ ∃ c, c ∈ all_cells cells ∧ grid_y c = v.
Proof.
  unfold all_y. rewrite elem_of_list_to_set, list_elem_of_fmap. naive_solver.
Qed.

Lemma assoc_Forall2 {A B : Type} (R : A → B → Prop)
    (d : list (CellType * A)) (d' : list (CellType * B)) (key : CellType) :
  Forall2 (λ e o, o.1 = e.1 ∧ R e.2 o.2) d d' →
  match assoc key d, assoc key d' with
  | Some v, Some v' => R v v'
  | None, None => True
  | _, _ => False
  end.
Proof.
  induction 1 as [|[k v] [k' v'] d d' [Hk Hv] _ IH]; simpl in *; [done|].
  subst k'. by destruct (decide (k = key)).
Qed.

Section normalize_coordinates.
Context (set_iter : gset Z → list Z).
Context (set_iter_perm : ∀ X, set_iter X ≡ₚ elements X).

Lemma sorted_nil_iff (X : gset Z) : sorted set_iter X = [] ↔ X = ∅.
Proof.
  split.
  - intros Hs. apply set_eq. intros v.
    rewrite <- (elem_of_sorted set_iter set_iter_perm), Hs. set_solver.
  - intros ->. apply (sorted_unique set_iter set_iter_perm);
      [constructor|constructor|set_solver].
Qed.

Lemma all_x_empty_iff (cells : list (CellType * list Cell)) :
  all_x cells = ∅ ↔ all_cells cells = [].
Proof.
  unfold all_x. split.
  - intros H. destruct (all_cells cells) as [|c l]; [done|]. set_solver.
  - by intros ->.
Qed.

Lemma all_y_empty_iff (cells : list (CellType * list Cell)) :
  all_y cells = ∅ ↔ all_cells cells = [].
Proof.
  unfold all_y. split.
  - intros H. destruct (all_cells cells) as [|c l]; [done|]. set_solver.
  - by intros ->.
Qed.

(** With no cell at all the range report asks for the minimum of an
    empty sequence. *)
Lemma normalize_coordinates_with_empty (cells : list (CellType * list Cell)) :
  all_cells cells = [] →
  normalize_coordinates_with set_iter cells = Raise ValueError.
Proof.
  intros Hnil. unfold normalize_coordinates_with.
  assert (sorted set_iter (all_x cells) = []) as ->.
  { by apply sorted_nil_iff, all_x_empty_iff. }
  done.
Qed.

(** With at least one cell the function returns a dictionary with the
    same keys whose cells are the input's, each related to its source by
    [normalized_from]. *)
Lemma normalize_coordinates_with_total (cells : list (CellType * list Cell)) :
  all_cells cells ≠ [] →
  ∃ out, normalize_coordinates_with set_iter cells = Ok out ∧
    Forall2 (λ e o, o.1 = e.1 ∧
               Forall2 (normalized_from (x_map_of set_iter cells)
                                        (y_map_of set_iter cells)) e.2 o.2)
            cells out.
Proof.
  intros Hne. unfold normalize_coordinates_with.
  destruct (sorted set_iter (all_x cells)) as [|x0 sx] eqn:Hsx.
  { apply sorted_nil_iff, all_x_empty_iff in Hsx. done. }
  destruct (sorted set_iter (all_y cells)) as [|y0 sy] eqn:Hsy.
  { apply sorted_nil_iff, all_y_empty_iff in Hsy. done. }
  cbn [range_report py_min py_max mbind res_bind].
  rewrite <- Hsx, <- Hsy.
  fold (x_map_of set_iter cells). fold (y_map_of set_iter cells).
  destruct (map_res_Forall2
    (λ '(cell_type, cell_list),
       normalized ← map_res (normalize_cell (x_map_of set_iter cells)
                               (y_map_of set_iter cells)) cell_list;
       Ok (cell_type, normalized)) cells) as (out & Hout & Hall).
  - intros [ty l] He.
    destruct (map_res_Forall2 (normalize_cell (x_map_of set_iter cells)
                                 (y_map_of set_iter cells)) l)
      as (l' & -> & _); [|simpl; eauto].
    intros c Hc. apply normalize_cell_total.
    + apply (enumerate_sorted_bijection set_iter set_iter_perm).
      apply elem_of_all_x. exists c. split; [|done].
      apply elem_of_all_cells. by exists (ty, l).
    + apply (enumerate_sorted_bijection set_iter set_iter_perm).
      apply elem_of_all_y. exists c. split; [|done].
      apply elem_of_all_cells. by exists (ty, l).
  - exists out. split; [done|].
    eapply Forall2_impl; [exact Hall|]. intros [ty l] o. simpl.
    destruct (map_res _ l) as [l'| |] eqn:Hl; simpl; try done.
    intros [= <-]. simpl. split; [done|].
    apply map_res_Ok_Forall2 in Hl.
    eapply Forall2_impl; [exact Hl|]. intros c c'. apply normalize_cell_Ok.
Qed.

End normalize_coordinates.

(** ** Coordinate normalizer: what it changes and what it keeps *)

Lemma elements_perm_refl (X : gset Z) : elements X ≡ₚ elements X.
Proof. done. Qed.

Lemma normalized_cells_Forall2 (R : Cell → Cell → Prop)
    (cells out : list (CellType * list Cell)) :
  Forall2 (λ e o, o.1 = e.1 ∧ Forall2 R e.2 o.2) cells out →
  Forall2 R (all_cells cells) (all_cells out).
Proof.
  unfold all_cells. intros H. apply Forall2_bind.
  eapply Forall2_impl; [exact H|]. by intros e o [_ ?].
Qed.

Lemma normalized_keys {R : list Cell → list Cell → Prop}
    (cells out : list (CellType * list Cell)) :
  Forall2 (λ e o, o.1 = e.1 ∧ R e.2 o.2) cells out →
  fst <$> out = fst <$> cells.
Proof.
  induction 1 as [|e o d d' [Heq _] _ IH]; [done|].
  by rewrite !fmap_cons, Heq, IH.
Qed.

(** Normalization changes the grid coordinates only.  For a collection with
    at least one cell, [normalize_coordinates] returns a dictionary with the
    same keys in the same order; under every key the list has the same
    length and order, and each cell keeps [pixel_x], [pixel_y] and [area]
    and records the input's [grid_x] and [grid_y] as [original_grid_x] and
    [original_grid_y]. *)
Theorem normalize_coordinates_frame (cells : list (CellType * list Cell)) :
  all_cells cells ≠ [] →
  ∃ out, normalize_coordinates cells = Ok out ∧
    fst <$> out = fst <$> cells ∧
    ∀ cell_type,
      match assoc cell_type cells, assoc cell_type out with
      | Some l, Some l' =>
          length l' = length l ∧
          Forall2 (λ c c',
            pixel_x c' = pixel_x c ∧ pixel_y c' = pixel_y c ∧
            area c' = area c ∧
            original_grid_x c' = Some (grid_x c) ∧
            original_grid_y c' = Some (grid_y c)) l l'
      | None, None => True
      | _, _ => False
      end.
Proof.
  intros Hne.
  destruct (normalize_coordinates_with_total elements elements_perm_refl
              cells Hne) as (out & Hout & Hall).
  exists out. split; [done|]. split; [by eapply normalized_keys|].
  intros cell_type.
  pose proof (assoc_Forall2 _ cells out cell_type Hall) as Hty.
  destruct (assoc cell_type cells) as [l|], (assoc cell_type out) as [l'|];
    try done.
  split; [symmetry; by eapply Forall2_length|].
  eapply Forall2_impl; [exact Hty|].
  intros c c' (_ & _ & ? & ? & ? & ? & ?). done.
Qed.

Lemma normalize_coordinates_frame_witness :
  all_cells sample_cells ≠ [] ∧
  ∃ out, normalize_coordinates sample_cells = Ok out ∧
    fst <$> out = fst <$> sample_cells ∧
    ∀ cell_type,
      match assoc cell_type sample_cells, assoc cell_type out with
      | Some l, Some l' =>
          length l' = length l ∧
          Forall2 (λ c c',
            pixel_x c' = pixel_x c ∧ pixel_y c' = pixel_y c ∧
            area c' = area c ∧
            original_grid_x c' = Some (grid_x c) ∧
            original_grid_y c' = Some (grid_y c)) l l'
      | None, None => True
      | _, _ => False
      end.
Proof.
  split; [discriminate|].
  apply (normalize_coordinates_frame sample_cells). discriminate.
Defined.

Example normalize_sample :
  normalize_coordinates sample_cells = Ok
    [ (AZ, [ {| grid_x := 0; grid_y := 1; original_grid_x := Some 2;
                original_grid_y := Some 7; pixel_x := 60; pixel_y := 190;
                area := 120 |};
             {| grid_x := 2; grid_y := 0; original_grid_x := Some 9;
                original_grid_y := Some 4; pixel_x := 240; pixel_y := 110;
                area := 130 |} ]);
      (TK, [ {| grid_x := 1; grid_y := 1; original_grid_x := Some 5;
                original_grid_y := Some 7; pixel_x := 140; pixel_y := 190;
                area := 125 |} ]);
      (RR, []); (AR, []); (LAR, []); (USP, []) ].
Proof. by vm_compute. Qed.

(** C10 (the code departs from it).  The claim holds on every collection
    with a cell, as shown above.  On a collection without cells, whatever
    its classes, the function does not return the empty lists the claim
    describes: it raises [ValueError] in its range report, before the
    mapping loop. *)
Theorem normalize_coordinates_raises_without_cells :
  normalize_coordinates
    [(AZ, []); (TK, []); (RR, []); (AR, []); (LAR, []); (USP, [])]
    = Raise ValueError ∧
  normalize_coordinates [(TK, [])] = Raise ValueError ∧
  normalize_coordinates [] = Raise ValueError.
Proof. by vm_compute. Qed.

(** ** Coordinate normalizer: ranks *)

(** The ranks of a list of cells along one axis form a dense set. *)
Lemma ranks_dense (f : Cell → Z) (m : gmap Z Z) (l l' : list Cell) :
  rank_bijection (list_to_set (f <$> l)) m →
  Forall2 (λ c c', m !! f c = Some (f c')) l l' →
  dense (list_to_set (f <$> l')).
Proof.
  intros (Hdom & Hrange & _ & Honto) Hall.
  set (X := list_to_set (f <$> l) : gset Z) in *.
  assert ((list_to_set (f <$> l') : gset Z)
          = list_to_set (seqZ 0 (Z.of_nat (size X)))) as Himg.
  { apply set_eq. intros k.
    rewrite !elem_of_list_to_set, elem_of_seqZ, list_elem_of_fmap. split.
    - intros (c' & -> & [i Hi]%list_elem_of_lookup).
      destruct (Forall2_lookup_r _ _ _ _ _ Hall Hi) as (c & _ & Hc).
      specialize (Hrange _ _ Hc). lia.
    - intros Hk. destruct (Honto k) as (v & Hv & Hvk); [lia|].
      apply elem_of_list_to_set, list_elem_of_fmap in Hv
        as (c & -> & [i Hi]%list_elem_of_lookup).
      destruct (Forall2_lookup_l _ _ _ _ _ Hall Hi) as (c' & Hi' & Hc).
      exists c'. split; [congruence|]. by eapply list_elem_of_lookup_2. }
  intros v. rewrite Himg. rewrite size_list_to_set by apply NoDup_seqZ.
  rewrite elem_of_list_to_set, elem_of_seqZ, length_seqZ. lia.
Qed.

Lemma x_map_bijection (cells : list (CellType * list Cell)) :
  rank_bijection (all_x cells) (x_map cells).
Proof. apply (enumerate_sorted_bijection elements elements_perm_refl). Qed.

Lemma y_map_bijection (cells : list (CellType * list Cell)) :
  rank_bijection (all_y cells) (y_map cells).
Proof. apply (enumerate_sorted_bijection elements elements_perm_refl). Qed.

Lemma normalize_coordinates_total (cells : list (CellType * list Cell)) :
  all_cells cells ≠ [] →
  ∃ out, normalize_coordinates cells = Ok out ∧
    Forall2 (normalized_from (x_map cells) (y_map cells))
            (all_cells cells) (all_cells out).
Proof.
  intros Hne.
  destruct (normalize_coordinates_with_total elements elements_perm_refl
              cells Hne) as (out & Hout & Hall).
  exists out. split; [done|]. by apply normalized_cells_Forall2.
Qed.

(** Normalizing a collection whose grid values are dense on both axes
    returns every cell at its own grid coordinates. *)
Lemma normalize_coordinates_dense (cells : list (CellType * list Cell)) :
  all_cells cells ≠ [] → dense (all_x cells) → dense (all_y cells) →
  ∃ out, normalize_coordinates cells = Ok out ∧
    Forall2 (λ c c', grid_x c' = grid_x c ∧ grid_y c' = grid_y c)
            (all_cells cells) (all_cells out).
Proof.
  intros Hne Hdx Hdy.
  destruct (normalize_coordinates_total cells Hne) as (out & Hout & Hall).
  exists out. split; [done|].
  apply Forall2_same_length_lookup. split; [by eapply Forall2_length|].
  intros i c c' Hc Hc'.
  destruct (Forall2_lookup_l _ _ _ _ _ Hall Hc) as (c'' & Hc'' & Hn).
  assert (c'' = c') as -> by congruence.
  destruct Hn as (Hx & Hy & _).
  assert (c ∈ all_cells cells) as Hin by (by eapply list_elem_of_lookup_2).
  unfold x_map, x_map_of in Hx. unfold y_map, y_map_of in Hy.
  rewrite (enumerate_sorted_dense elements elements_perm_refl) in Hx;
    [|done|apply elem_of_all_x; eauto].
  rewrite (enumerate_sorted_dense elements elements_perm_refl) in Hy;
    [|done|apply elem_of_all_y; eauto].
  split; congruence.
Qed.

(** The values 2, 5 and 9 get the ranks 0, 1 and 2. *)
Lemma rank_2_5_9 (X : gset Z) :
  X = {[ 2; 5; 9 ]} →
  enumerate_map (sorted elements X) !! 2 = Some 0 ∧
  enumerate_map (sorted elements X) !! 5 = Some 1 ∧
  enumerate_map (sorted elements X) !! 9 = Some 2.
Proof.
  intros ->.
  rewrite (sorted_unique elements elements_perm_refl _ [2; 5; 9]).
  - done.
  - repeat constructor; lia.
  - repeat constructor; set_solver.
  - set_solver.
Qed.

(** C3.  For a collection with at least one cell, the map built for each
    axis takes the occupied raw grid values one-to-one onto
    [0 .. occupied_count - 1] and keeps their order; the function returns
    and every output cell has the ranks of its source's grid values as grid
    coordinates.  Raw X values 2, 5 and 9 get 0, 1 and 2.  Normalizing a
    collection that is already dense, and hence normalizing the output
    again, leaves [grid_x] and [grid_y] of every cell unchanged. *)
Theorem normalization_is_order_preserving_bijection
    (cells : list (CellType * list Cell)) :
  all_cells cells ≠ [] →
  rank_bijection (all_x cells) (x_map cells) ∧
  rank_bijection (all_y cells) (y_map cells) ∧
  (all_x cells = {[ 2; 5; 9 ]} →
     x_map cells !! 2 = Some 0 ∧ x_map cells !! 5 = Some 1 ∧
     x_map cells !! 9 = Some 2) ∧
  (∃ out, normalize_coordinates cells = Ok out ∧
     Forall2 (λ c c', x_map cells !! grid_x c = Some (grid_x c') ∧
                      y_map cells !! grid_y c = Some (grid_y c'))
             (all_cells cells) (all_cells out) ∧
     (dense (all_x cells) → dense (all_y cells) →
        Forall2 (λ c c', grid_x c' = grid_x c ∧ grid_y c' = grid_y c)
                (all_cells cells) (all_cells out)) ∧
     (∃ again, normalize_coordinates out = Ok again ∧
        Forall2 (λ c c', grid_x c' = grid_x c ∧ grid_y c' = grid_y c)
                (all_cells out) (all_cells again))).
Proof.
  intros Hne.
  split; [apply x_map_bijection|]. split; [apply y_map_bijection|].
  split; [apply rank_2_5_9|].
  destruct (normalize_coordinates_total cells Hne) as (out & Hout & Hall).
  exists out. split; [done|]. split; [|split].
  - eapply Forall2_impl; [exact Hall|]. by intros c c' (? & ? & _).
  - intros Hdx Hdy.
    destruct (normalize_coordinates_dense cells Hne Hdx Hdy)
      as (out' & Hout' & Hsame).
    assert (out' = out) as -> by congruence. done.
  - apply normalize_coordinates_dense.
    + intros Hnil. apply Forall2_length in Hall. rewrite Hnil in Hall.
      destruct (all_cells cells); [done|discriminate].
    + apply (ranks_dense grid_x (x_map cells) (all_cells cells));
        [apply x_map_bijection|].
      eapply Forall2_impl; [exact Hall|]. by intros c c' (? & _).
    + apply (ranks_dense grid_y (y_map cells) (all_cells cells));
        [apply y_map_bijection|].
      eapply Forall2_impl; [exact Hall|]. by intros c c' (_ & ? & _).
Qed.

Lemma normalization_witness :
  all_cells sample_cells ≠ [] ∧
  all_x sample_cells = {[ 2; 5; 9 ]} ∧
  x_map sample_cells !! 2 = Some 0 ∧
  x_map sample_cells !! 5 = Some 1 ∧
  x_map sample_cells !! 9 = Some 2.
Proof.
  assert (all_cells sample_cells ≠ []) as Hne by discriminate.
  split; [exact Hne|].
  assert (all_x sample_cells = {[ 2; 5; 9 ]}) as HX by (by vm_compute).
  split; [exact HX|].
  exact (proj1 (proj2 (proj2
    (normalization_is_order_preserving_bijection sample_cells Hne))) HX).
Defined.

(** ** Grid quantizer and area filter *)

Lemma py_int_nonneg (v : Q) : (0 <= v)%Q → py_int v = Qfloor v.
Proof.
  destruct v as [n d]. unfold Qle, py_int, Qfloor. simpl. intros Hn.
  apply Z.quot_div_nonneg; lia.
Qed.

Lemma true_div_nonneg (a b : Z) : 0 ≤ a → 0 < b → (0 <= true_div a b)%Q.
Proof.
  intros Ha Hb. destruct b as [|p|p]; try lia.
  unfold true_div, Qdiv, Qmult, Qinv, Qle. simpl. lia.
Qed.

Lemma py_int_true_div (a b : Z) : 0 < b → py_int (true_div a b) = a ÷ b.
Proof.
  intros Hb. destruct b as [|p|p]; try lia.
  unfold true_div, Qdiv, Qmult, Qinv, py_int. simpl.
  by rewrite Z.mul_1_r.
Qed.

Lemma Qdiv_nonneg (v : Q) (d : Z) : (0 <= v)%Q → 0 < d → (0 <= v / inject_Z d)%Q.
Proof.
  intros Hv Hd. apply Qle_shift_div_l.
  - unfold Qlt, inject_Z. simpl. lia.
  - by rewrite Qmult_0_l.
Qed.

Lemma float_div_usable (v : Q) (cell_size : Z) :
  usable_pitch cell_size →
  float_div v cell_size = Ok (v / inject_Z cell_size)%Q.
Proof.
  intros [Hne Hlt]. unfold float_div.
  rewrite (proj2 (Z.leb_gt float_limit (Z.abs cell_size)) Hlt).
  by rewrite (proj2 (Z.eqb_neq cell_size 0) Hne).
Qed.

(** A pitch that is not usable makes every division raise. *)
Lemma float_div_unusable (v : Q) (cell_size : Z) :
  ¬ usable_pitch cell_size →
  float_div v cell_size = Raise OverflowError ∨
  float_div v cell_size = Raise ZeroDivisionError.
Proof.
  intros Hnot. unfold float_div.
  destruct (float_limit <=? Z.abs cell_size) eqn:Hlim; [by left|].
  destruct (cell_size =? 0) eqn:Hz; [by right|].
  exfalso. apply Hnot. split; [by apply Z.eqb_neq|by apply Z.leb_gt].
Qed.

Lemma usable_pitch_26 : usable_pitch 26.
Proof. split; [done|]. by vm_compute. Qed.

Lemma make_cell_Ok (cell_size : Z) (center_x center_y : Q) (n : Z) :
  usable_pitch cell_size →
  make_cell cell_size (center_x, center_y, n) =
  Ok {| grid_x := py_int (center_x / inject_Z cell_size);
        grid_y := py_int (center_y / inject_Z cell_size);
        original_grid_x := None; original_grid_y := None;
        pixel_x := py_int center_x; pixel_y := py_int center_y;
        area := n |}.
Proof.
  intros Hok. unfold make_cell. by rewrite !float_div_usable.
Qed.

Lemma collect_cells_app (cell_size min_area : Z) (l1 l2 : list (Q * Q * Z)) :
  collect_cells cell_size min_area (l1 ++ l2) =
  (a ← collect_cells cell_size min_area l1;
   b ← collect_cells cell_size min_area l2;
   Ok (a ++ b)).
Proof.
  induction l1 as [|c l1 IH]; simpl.
  - by destruct (collect_cells cell_size min_area l2).
  - destruct (min_area <=? c.2); [|done].
    destruct (make_cell cell_size c) as [cell| |]; simpl; try done.
    rewrite IH.
    destruct (collect_cells cell_size min_area l1) as [a| |]; simpl; try done.
    by destruct (collect_cells cell_size min_area l2).
Qed.

(** With a usable pitch the filter returns, and its cells are those of
    the components of at least the minimum area, in order. *)
Lemma collect_cells_spec (cell_size min_area : Z) (comps : list (Q * Q * Z)) :
  usable_pitch cell_size →
  ∃ cells, collect_cells cell_size min_area comps = Ok cells ∧
    Forall2 (λ c cell, make_cell cell_size c = Ok cell)
            (filter (λ c, min_area ≤ c.2) comps) cells.
Proof.
  intros Hne. induction comps as [|[[cx cy] n] comps (cells & IH & Hall)];
    cbn [collect_cells snd].
  - exists []. split; [done|constructor].
  - rewrite filter_cons. cbn [snd].
    destruct (decide (min_area ≤ n)) as [Hn|Hn].
    + rewrite (proj2 (Z.leb_le _ _) Hn), make_cell_Ok, IH by done.
      cbn [mbind res_bind].
      eexists. split; [done|]. constructor; [|done]. by apply make_cell_Ok.
    + rewrite (proj2 (Z.leb_gt _ _)) by lia. eauto.
Qed.

(** C6, for a pitch the centre can be divided by.  The area filter is
    inclusive at its bound.  For a pitch that is not zero and converts to a
    float, any list of detected components and any minimum area, the filter
    returns a list of cells for the components before and after a given
    one, and for the whole list it returns: without a cell for that
    component when its area is [min_area - 1] (the cells of the others, in
    order), and with the cell of that component, of area [min_area], at its
    place when its area is [min_area]. *)
Theorem area_filter_boundary_inclusive (cell_size min_area : Z)
    (before after : list (Q * Q * Z)) (center_x center_y : Q) (n : Z) :
  cell_size ≠ 0 → Z.abs cell_size < float_limit →
  ∃ a b,
    collect_cells cell_size min_area before = Ok a ∧
    collect_cells cell_size min_area after = Ok b ∧
    length a = length (filter (λ c, min_area ≤ c.2) before) ∧
    length b = length (filter (λ c, min_area ≤ c.2) after) ∧
    (n = min_area - 1 →
       collect_cells cell_size min_area
         (before ++ (center_x, center_y, n) :: after) = Ok (a ++ b)) ∧
    (n = min_area →
       collect_cells cell_size min_area
         (before ++ (center_x, center_y, n) :: after)
       = Ok (a ++ {| grid_x := py_int (center_x / inject_Z cell_size);
                     grid_y := py_int (center_y / inject_Z cell_size);
                     original_grid_x := None; original_grid_y := None;
                     pixel_x := py_int center_x; pixel_y := py_int center_y;
                     area := min_area |} :: b)).
Proof.
  intros Hne Hlt. assert (usable_pitch cell_size) as Hok by done.
  destruct (collect_cells_spec cell_size min_area before Hok)
    as (a & Ha & Hfa).
  destruct (collect_cells_spec cell_size min_area after Hok)
    as (b & Hb & Hfb).
  exists a, b. split; [done|]. split; [done|].
  split; [symmetry; by eapply Forall2_length|].
  split; [symmetry; by eapply Forall2_length|].
  split; intros ->; rewrite collect_cells_app; cbn [collect_cells snd].
  - rewrite (proj2 (Z.leb_gt _ _)) by lia. by rewrite Ha, Hb.
  - rewrite Z.leb_refl, make_cell_Ok, Ha, Hb by done. done.
Qed.

Lemma area_filter_boundary_witness :
  26 ≠ 0 ∧ Z.abs 26 < float_limit ∧
  ∃ a b,
    collect_cells 26 100 [sample_component 13 13 100] = Ok a ∧
    collect_cells 26 100 [sample_component 70 13 99] = Ok b ∧
    length a = length (filter (λ c, 100 ≤ c.2) [sample_component 13 13 100]) ∧
    length b = length (filter (λ c, 100 ≤ c.2) [sample_component 70 13 99]) ∧
    (100 = 100 - 1 →
       collect_cells 26 100
         ([sample_component 13 13 100] ++
          (inject_Z 40, inject_Z 13, 100) :: [sample_component 70 13 99])
       = Ok (a ++ b)) ∧
    (100 = 100 →
       collect_cells 26 100
         ([sample_component 13 13 100] ++
          (inject_Z 40, inject_Z 13, 100) :: [sample_component 70 13 99])
       = Ok (a ++ {| grid_x := py_int (inject_Z 40 / inject_Z 26);
                     grid_y := py_int (inject_Z 13 / inject_Z 26);
                     original_grid_x := None; original_grid_y := None;
                     pixel_x := py_int (inject_Z 40);
                     pixel_y := py_int (inject_Z 13);
                     area := 100 |} :: b)).
Proof.
  split; [done|]. split; [by vm_compute|].
  apply (area_filter_boundary_inclusive 26 100
           [sample_component 13 13 100] [sample_component 70 13 99]
           (inject_Z 40) (inject_Z 13) 100); [done|by vm_compute].
Defined.

(** The claim as worded fails for a pitch the centre cannot be divided
    by: the detector finds one blob of two pixels, and with a minimum area
    of two the filter, reaching that blob, raises instead of including it,
    for a zero pitch and for one too large for a float; so does the run. *)
Lemma area_filter_unusable_pitch :
  find_connected_components two_red_pixels red 25
    = Ok [((1 # 2)%Q, (0 # 2)%Q, 2)] ∧
  collect_cells 0 2 [((1 # 2)%Q, (0 # 2)%Q, 2)] = Raise ZeroDivisionError ∧
  collect_cells (10 ^ 400) 2 [((1 # 2)%Q, (0 # 2)%Q, 2)]
    = Raise OverflowError ∧
  parse_scheme two_red_pixels 0 2 = Raise ZeroDivisionError ∧
  parse_scheme two_red_pixels (10 ^ 400) 2 = Raise OverflowError.
Proof. by vm_compute. Qed.

Example area_filter_99_100_101 :
  area <$> match collect_cells 26 100
                   [sample_component 13 13 99; sample_component 40 13 100;
                    sample_component 70 13 101] with
           | Ok cells => cells | _ => [] end
  = [100; 101].
Proof. by vm_compute. Qed.

Lemma Zsum_fmap_nonneg {A : Type} (f : A → Z) (l : list A) :
  Forall (λ a, 0 ≤ f a) l → 0 ≤ Zsum (f <$> l).
Proof.
  induction 1 as [|a l Ha Hl IH]; [done|].
  rewrite fmap_cons. unfold Zsum in *. simpl. lia.
Qed.

(** The triple of a blob: exact means of the member coordinates, which are
    not negative, and the number of members. *)
Lemma blob_of_centroid (img : Image) (target_color : list Z) (tolerance : Z)
    (ps : list (Z * Z)) (c : Q * Q * Z) :
  blob_of img target_color tolerance ps c →
  c = (true_div (Zsum (fst <$> ps)) (Z.of_nat (length ps)),
       true_div (Zsum (snd <$> ps)) (Z.of_nat (length ps)),
       Z.of_nat (length ps)) ∧
  0 < Z.of_nat (length ps) ∧
  0 ≤ Zsum (fst <$> ps) ∧ 0 ≤ Zsum (snd <$> ps).
Proof.
  intros (Hc & Hin & _). unfold center_of_mass in Hc.
  destruct ps as [|p ps]; [done|]. injection Hc as <-.
  split; [done|]. split; [simpl; lia|].
  split; apply Zsum_fmap_nonneg; (eapply Forall_impl; [exact Hin|]);
    intros xy; unfold in_extent; rewrite out_of_extent_false; lia.
Qed.

(** C8, for a positive pitch that converts to a float.  Every component
    the detector reports has a centre with non-negative coordinates, and
    for such a pitch the cell built from it has the grid coordinates
    [floor(center_x / pitch)] and [floor(center_y / pitch)]: on these values
    the truncation toward zero done by [int] is the floor. *)
Theorem grid_quantizer_is_floor (img : Image) (target_color : list Z)
    (tolerance cell_size : Z) (comps : list (Q * Q * Z))
    (center_x center_y : Q) (n : Z) :
  0 < cell_size → cell_size < float_limit →
  find_connected_components img target_color tolerance = Ok comps →
  (center_x, center_y, n) ∈ comps →
  (0 <= center_x)%Q ∧ (0 <= center_y)%Q ∧
  ∃ cell, make_cell cell_size (center_x, center_y, n) = Ok cell ∧
    grid_x cell = py_int (center_x / inject_Z cell_size) ∧
    grid_y cell = py_int (center_y / inject_Z cell_size) ∧
    grid_x cell = Qfloor (center_x / inject_Z cell_size) ∧
    grid_y cell = Qfloor (center_y / inject_Z cell_size).
Proof.
  intros Hpitch Hlimit Hfcc Hin.
  assert (usable_pitch cell_size) as Hok.
  { split; [lia|]. by rewrite Z.abs_eq by lia. }
  destruct (find_connected_components_spec img target_color tolerance)
    as (comps' & Hfcc' & Hall).
  assert (comps' = comps) as -> by congruence.
  rewrite Forall_forall in Hall. destruct (Hall _ Hin) as [ps Hps].
  apply blob_of_centroid in Hps as ([= -> -> ->] & Hn & Hx & Hy).
  pose proof (true_div_nonneg _ _ Hx Hn) as Hcx.
  pose proof (true_div_nonneg _ _ Hy Hn) as Hcy.
  split; [done|]. split; [done|].
  eexists. split; [by apply make_cell_Ok|]. simpl.
  split; [done|]. split; [done|].
  split; apply py_int_nonneg, Qdiv_nonneg; done.
Qed.

Lemma grid_quantizer_witness :
  0 < 26 ∧ 26 < float_limit ∧
  find_connected_components (red_on_black 3 3 [(0, 0); (1, 0)]) red 25
    = Ok [((1 # 2)%Q, (0 # 2)%Q, 2)] ∧
  ((1 # 2)%Q, (0 # 2)%Q, 2) ∈ [((1 # 2)%Q, (0 # 2)%Q, 2)] ∧
  (0 <= 1 # 2)%Q ∧ (0 <= 0 # 2)%Q ∧
  ∃ cell, make_cell 26 ((1 # 2)%Q, (0 # 2)%Q, 2) = Ok cell ∧
    grid_x cell = py_int ((1 # 2) / inject_Z 26) ∧
    grid_y cell = py_int ((0 # 2) / inject_Z 26) ∧
    grid_x cell = Qfloor ((1 # 2) / inject_Z 26) ∧
    grid_y cell = Qfloor ((0 # 2) / inject_Z 26).
Proof.
  split; [lia|]. split; [by vm_compute|]. split; [by vm_compute|].
  split; [by left|].
  apply (grid_quantizer_is_floor (red_on_black 3 3 [(0, 0); (1, 0)]) red 25 26
           [((1 # 2)%Q, (0 # 2)%Q, 2)]);
    [lia|by vm_compute|by vm_compute|by left].
Defined.

(** The claim as worded fails for a negative pitch: the blob of the two
    pixels (2, 0) and (3, 0) has its centre at x = 5/2, and with the pitch
    -2 the cell built from it holds [grid_x = -1], the quotient -5/4 cut
    toward zero, where the floor is -2.  It also fails for a pitch with no
    quotient at all: zero, or an integer too large for a float. *)
Lemma grid_quantizer_negative_pitch :
  ∃ cell,
    find_connected_components red_pair_right red 25
      = Ok [((5 # 2)%Q, (0 # 2)%Q, 2)] ∧
    make_cell (-2) ((5 # 2)%Q, (0 # 2)%Q, 2) = Ok cell ∧
    grid_x cell = -1 ∧
    Qfloor ((5 # 2) / inject_Z (-2)) = -2 ∧
    make_cell 0 ((5 # 2)%Q, (0 # 2)%Q, 2) = Raise ZeroDivisionError ∧
    make_cell (10 ^ 400) ((5 # 2)%Q, (0 # 2)%Q, 2) = Raise OverflowError.
Proof.
  eexists. split; [by vm_compute|]. split; [reflexivity|].
  split; [reflexivity|]. split; [reflexivity|]. split; by vm_compute.
Qed.

(** A negative value is truncated toward zero, not floored; with a
    positive pitch the quantizer never sees one. *)
Example py_int_truncates :
  py_int (7 # 2) = 3 ∧ Qfloor (7 # 2) = 3 ∧
  py_int (-7 # 2) = -3 ∧ Qfloor (-7 # 2) = -4.
Proof. by vm_compute. Qed.

(** ** The pipeline *)

(** The output does not depend on the order in which sets are iterated. *)
Lemma normalize_coordinates_order_irrelevant
    (iter1 iter2 : gset Z → list Z) (cells : list (CellType * list Cell)) :
  (∀ X, iter1 X ≡ₚ elements X) → (∀ X, iter2 X ≡ₚ elements X) →
  normalize_coordinates_with iter1 cells
  = normalize_coordinates_with iter2 cells.
Proof.
  intros H1 H2. unfold normalize_coordinates_with.
  assert (∀ X, sorted iter1 X = sorted iter2 X) as Hs.
  { intros X. apply (sorted_unique iter1 H1).
    - apply (sorted_StronglySorted iter2).
    - apply (sorted_NoDup iter2 H2).
    - intros v. apply (elem_of_sorted iter2 H2). }
  by rewrite !Hs.
Qed.

(** C9.  Two runs on the same decoded image with the same pitch and
    minimum area return the same output dictionary and write the same text
    to the structured data file, whatever the order in which each run
    iterates its sets; the class order is that of [COLORS] in both. *)
Theorem parse_scheme_order_irrelevant
    (iter1 iter2 : gset Z → list Z) (img : Image) (cell_size min_area : Z) :
  (∀ X, iter1 X ≡ₚ elements X) → (∀ X, iter2 X ≡ₚ elements X) →
  parse_scheme_with iter1 img cell_size min_area
  = parse_scheme_with iter2 img cell_size min_area ∧
  written_text (parse_scheme_with iter1 img cell_size min_area)
  = written_text (parse_scheme_with iter2 img cell_size min_area).
Proof.
  intros H1 H2.
  assert (parse_scheme_with iter1 img cell_size min_area
          = parse_scheme_with iter2 img cell_size min_area) as Hsame.
  { unfold parse_scheme_with.
    destruct (detect_cells img cell_size min_area COLORS) as [raw| |];
      try done.
    simpl. by rewrite (normalize_coordinates_order_irrelevant iter1 iter2). }
  split; [done|]. by rewrite Hsame.
Qed.

Lemma parse_scheme_order_witness :
  (∀ X : gset Z, elements X ≡ₚ elements X) ∧
  (∀ X : gset Z, reverse (elements X) ≡ₚ elements X) ∧
  parse_scheme_with elements (red_on_black 3 3 [(0, 0); (2, 2)]) 1 1
  = parse_scheme_with (λ X, reverse (elements X))
      (red_on_black 3 3 [(0, 0); (2, 2)]) 1 1 ∧
  written_text
    (parse_scheme_with elements (red_on_black 3 3 [(0, 0); (2, 2)]) 1 1)
  = written_text
      (parse_scheme_with (λ X, reverse (elements X))
         (red_on_black 3 3 [(0, 0); (2, 2)]) 1 1).
Proof.
  split; [done|]. split; [intros X; apply reverse_Permutation|].
  apply (parse_scheme_order_irrelevant elements (λ X, reverse (elements X)));
    [done|intros X; apply reverse_Permutation].
Defined.

(** Without a single cell in any class the run raises: the range report
    of [normalize_coordinates] takes the minimum of an empty list before
    [parse_scheme] reaches its guarded computation of the grid size. *)
Lemma parse_scheme_no_cells (img : Image) (cell_size min_area : Z)
    (raw : list (CellType * list Cell)) :
  detect_cells img cell_size min_area COLORS = Ok raw →
  all_cells raw = [] →
  parse_scheme img cell_size min_area = Raise ValueError.
Proof.
  intros Hraw Hnil. unfold parse_scheme, parse_scheme_with. rewrite Hraw.
  simpl.
  by rewrite (normalize_coordinates_with_empty elements elements_perm_refl).
Qed.

(** C1 (the code departs from it).  On an image without any pixel of a
    reference colour every class is detected empty and the run ends with
    [ValueError] instead of an output with a 0 x 0 grid; so does a run in
    which every blob is below the minimum area.  The guarded grid-size
    computation does yield 0 for an empty list, but it is never reached. *)
Theorem parse_scheme_empty_result_raises :
  detect_cells (red_on_black 2 2 []) 26 100 COLORS
    = Ok [(AZ, []); (TK, []); (RR, []); (AR, []); (LAR, []); (USP, [])] ∧
  normalize_coordinates
    [(AZ, []); (TK, []); (RR, []); (AR, []); (LAR, []); (USP, [])]
    = Raise ValueError ∧
  parse_scheme (red_on_black 2 2 []) 26 100 = Raise ValueError ∧
  parse_scheme (red_on_black 3 3 [(0, 0); (1, 0)]) 26 100 = Raise ValueError ∧
  extent [] = Ok 0.
Proof. by vm_compute. Qed.

(** *** From the output back to the blobs *)

Lemma make_cell_unusable (cell_size : Z) (c : Q * Q * Z) (cell : Cell) :
  ¬ usable_pitch cell_size → make_cell cell_size c ≠ Ok cell.
Proof.
  intros Hnot. destruct c as [[cx cy] n]. unfold make_cell.
  by destruct (float_div_unusable cx cell_size Hnot) as [-> | ->].
Qed.

Lemma collect_cells_unusable (cell_size min_area : Z)
    (comps : list (Q * Q * Z)) (cells : list Cell) :
  ¬ usable_pitch cell_size →
  collect_cells cell_size min_area comps = Ok cells → cells = [].
Proof.
  intros Hnot. revert cells.
  induction comps as [|c comps IH]; intros cells; cbn [collect_cells].
  - by intros [= <-].
  - destruct (min_area <=? c.2); [|apply IH].
    destruct (make_cell cell_size c) as [cell| |] eqn:Hcell; [|done..].
    by apply make_cell_unusable in Hcell.
Qed.

Lemma collect_cells_zero_pitch (min_area : Z) (comps : list (Q * Q * Z))
    (cells : list Cell) :
  collect_cells 0 min_area comps = Ok cells → cells = [].
Proof. apply collect_cells_unusable. by intros [? _]. Qed.

Lemma collect_cells_Ok (cell_size min_area : Z) (comps : list (Q * Q * Z))
    (cells : list Cell) :
  usable_pitch cell_size →
  collect_cells cell_size min_area comps = Ok cells →
  Forall2 (λ c cell, make_cell cell_size c = Ok cell)
          (filter (λ c, min_area ≤ c.2) comps) cells.
Proof.
  intros Hne Hc.
  destruct (collect_cells_spec cell_size min_area comps Hne)
    as (cells' & Hc' & Hall).
  by assert (cells' = cells) as -> by congruence.
Qed.

Lemma detect_cells_Ok (img : Image) (cell_size min_area : Z)
    (table : list (CellType * list Z)) (raw : list (CellType * list Cell)) :
  detect_cells img cell_size min_area table = Ok raw →
  Forall2 (λ e r, r.1 = e.1 ∧
     ∃ comps, find_connected_components img e.2 COLOR_TOLERANCE = Ok comps ∧
              collect_cells cell_size min_area comps = Ok r.2) table raw.
Proof.
  revert raw. induction table as [|[ty color] table IH]; intros raw;
    cbn [detect_cells].
  - intros [= <-]. constructor.
  - destruct (find_connected_components img color COLOR_TOLERANCE)
      as [comps| |] eqn:Hf; cbn [mbind res_bind]; try done.
    destruct (collect_cells cell_size min_area comps) as [cl| |] eqn:Hc;
      cbn [mbind res_bind]; try done.
    destruct (detect_cells img cell_size min_area table) as [more| |];
      cbn [mbind res_bind]; try done.
    intros [= <-]. constructor; [|by apply IH]. simpl. eauto.
Qed.

Lemma detect_cells_unusable (img : Image) (cell_size min_area : Z)
    (table : list (CellType * list Z)) (raw : list (CellType * list Cell)) :
  ¬ usable_pitch cell_size →
  detect_cells img cell_size min_area table = Ok raw → all_cells raw = [].
Proof.
  intros Hnot Hall%detect_cells_Ok. unfold all_cells.
  induction Hall as [|e r table raw (_ & comps & _ & Hc) _ IH]; [done|].
  apply collect_cells_unusable in Hc; [|done]. csimpl. by rewrite Hc, IH.
Qed.

Lemma detect_cells_zero_pitch (img : Image) (min_area : Z)
    (table : list (CellType * list Z)) (raw : list (CellType * list Cell)) :
  detect_cells img 0 min_area table = Ok raw → all_cells raw = [].
Proof. apply detect_cells_unusable. by intros [? _]. Qed.

(** A run that returns has detected at least one cell with a usable
    pitch, and its cells are the normalized detected ones. *)
Lemma parse_scheme_Ok (img : Image) (cell_size min_area : Z) (out : Output) :
  parse_scheme img cell_size min_area = Ok out →
  usable_pitch cell_size ∧
  ∃ raw, detect_cells img cell_size min_area COLORS = Ok raw ∧
    all_cells raw ≠ [] ∧
    normalize_coordinates raw = Ok (cells out).
Proof.
  unfold parse_scheme, parse_scheme_with. intros Hrun.
  destruct (detect_cells img cell_size min_area COLORS) as [raw| |] eqn:Hraw;
    cbn [mbind res_bind] in Hrun; try done.
  fold normalize_coordinates in Hrun.
  destruct (normalize_coordinates raw) as [cl| |] eqn:Hnorm;
    cbn [mbind res_bind] in Hrun; try done.
  assert (all_cells raw ≠ []) as Hne.
  { intros Hnil. unfold normalize_coordinates in Hnorm.
    by rewrite (normalize_coordinates_with_empty elements elements_perm_refl)
      in Hnorm. }
  split.
  - destruct (decide (cell_size = 0)) as [->|Hnz].
    { by apply detect_cells_zero_pitch in Hraw. }
    destruct (decide (Z.abs cell_size < float_limit)) as [Hlt|Hge]; [by split|].
    exfalso. apply Hne. eapply detect_cells_unusable; [|exact Hraw].
    by intros [_ ?].
  - exists raw. split; [done|]. split; [done|].
    destruct (extent (grid_x <$> all_cells cl)); cbn [mbind res_bind] in Hrun;
      try done.
    destruct (extent (grid_y <$> all_cells cl)); cbn [mbind res_bind] in Hrun;
      try done.
    by injection Hrun as <-.
Qed.

Lemma assoc_COLORS (cell_type : CellType) :
  assoc cell_type COLORS = Some (reference cell_type).
Proof. by destruct cell_type. Qed.

(** The cells the output holds for a class are, in order, those of the
    blobs of that class with at least the minimum area: each is the
    normalized form of the cell built from its blob. *)
Lemma parse_scheme_cells (img : Image) (cell_size min_area : Z) (out : Output)
    (cell_type : CellType) (cell_list : list Cell) :
  parse_scheme img cell_size min_area = Ok out →
  assoc cell_type (cells out) = Some cell_list →
  ∃ comps raw_list,
    find_connected_components img (reference cell_type) COLOR_TOLERANCE
      = Ok comps ∧
    Forall2 (λ c cell, make_cell cell_size c = Ok cell)
            (filter (λ c, min_area ≤ c.2) comps) raw_list ∧
    Forall2 (λ cell cell',
               pixel_x cell' = pixel_x cell ∧ pixel_y cell' = pixel_y cell ∧
               area cell' = area cell ∧
               original_grid_x cell' = Some (grid_x cell) ∧
               original_grid_y cell' = Some (grid_y cell))
            raw_list cell_list.
Proof.
  intros (Hpitch & raw & Hraw & Hne & Hnorm)%parse_scheme_Ok Hlist.
  apply detect_cells_Ok in Hraw.
  pose proof (assoc_Forall2
    (λ color cl, ∃ comps,
       find_connected_components img color COLOR_TOLERANCE = Ok comps ∧
       collect_cells cell_size min_area comps = Ok cl)
    _ _ cell_type Hraw) as Hty.
  rewrite assoc_COLORS in Hty.
  destruct (normalize_coordinates_with_total elements elements_perm_refl
              raw Hne) as (cl & Hcl & Hall).
  fold normalize_coordinates in Hcl.
  assert (cl = cells out) as -> by congruence.
  pose proof (assoc_Forall2
    (Forall2 (normalized_from (x_map_of elements raw) (y_map_of elements raw)))
    _ _ cell_type Hall) as Hty'.
  rewrite Hlist in Hty'.
  destruct (assoc cell_type raw) as [raw_list|]; [|done].
  destruct Hty as (comps & Hcomps & Hcollect).
  exists comps, raw_list. split; [done|].
  split; [by apply collect_cells_Ok|].
  eapply Forall2_impl; [exact Hty'|].
  intros c c' (_ & _ & ? & ? & ? & ? & ?). done.
Qed.

(** C2 as the code has it.  For every cell of the output, [pixel_x] and
    [pixel_y] are the arithmetic means of the x and y coordinates of the
    member pixels of its blob cut to integers by [int] (their floors): the
    cells under a class are, in order, those of the blobs of the class with
    at least the minimum area, and each holds the truncated centre and the
    pixel count of its blob. *)
Theorem pixel_centroid_is_truncated_mean (img : Image)
    (cell_size min_area : Z) (out : Output) (cell_type : CellType)
    (cell_list : list Cell) :
  parse_scheme img cell_size min_area = Ok out →
  assoc cell_type (cells out) = Some cell_list →
  ∃ comps,
    find_connected_components img (reference cell_type) COLOR_TOLERANCE
      = Ok comps ∧
    Forall2 (truncated_centroid img (reference cell_type) COLOR_TOLERANCE)
            (filter (λ c, min_area ≤ c.2) comps) cell_list.
Proof.
  intros Hrun Hlist.
  pose proof (parse_scheme_Ok _ _ _ _ Hrun) as [Hpitch _].
  destruct (parse_scheme_cells _ _ _ _ _ _ Hrun Hlist)
    as (comps & raw_list & Hcomps & Hmade & Hkept).
  exists comps. split; [done|].
  destruct (find_connected_components_spec img (reference cell_type)
              COLOR_TOLERANCE) as (comps' & Hcomps' & Hblobs).
  assert (comps' = comps) as -> by congruence.
  apply Forall2_same_length_lookup. split.
  { rewrite (Forall2_length _ _ _ Hmade). by eapply Forall2_length. }
  intros i c cell' Hc Hcell'.
  destruct (Forall2_lookup_l _ _ _ _ _ Hmade Hc) as (cell & Hcell & Hmk).
  destruct (Forall2_lookup_l _ _ _ _ _ Hkept Hcell) as (cell'' & Hcell'' & Hk).
  assert (cell'' = cell') as -> by congruence.
  destruct Hk as (Hpx & Hpy & Harea & _).
  assert (c ∈ comps) as Hin.
  { apply list_elem_of_lookup_2 in Hc.
    by apply list_elem_of_filter in Hc as [_ ?]. }
  rewrite Forall_forall in Hblobs. destruct (Hblobs c Hin) as [ps Hps].
  exists ps. split; [done|].
  apply blob_of_centroid in Hps as (-> & Hn & Hx & Hy).
  rewrite make_cell_Ok in Hmk by done. injection Hmk as <-.
  cbn [pixel_x pixel_y area fst snd] in *. rewrite Hpx, Hpy, Harea.
  rewrite !py_int_true_div, !Z.quot_div_nonneg by lia.
  split; [done|]. split; [done|]. split; [done|].
  rewrite <- !py_int_nonneg by (by apply true_div_nonneg).
  by rewrite !py_int_true_div, !Z.quot_div_nonneg by lia.
Qed.

Lemma pixel_centroid_witness :
  ∃ out cell_list,
    parse_scheme (red_on_black 3 3 [(0, 0); (1, 0)]) 26 1 = Ok out ∧
    assoc AZ (cells out) = Some cell_list ∧
    ∃ comps,
      find_connected_components (red_on_black 3 3 [(0, 0); (1, 0)])
        (reference AZ) COLOR_TOLERANCE = Ok comps ∧
      Forall2 (truncated_centroid (red_on_black 3 3 [(0, 0); (1, 0)])
                 (reference AZ) COLOR_TOLERANCE)
              (filter (λ c, 1 ≤ c.2) comps) cell_list.
Proof.
  eexists _, _. split; [by vm_compute|]. split; [reflexivity|].
  eapply (pixel_centroid_is_truncated_mean
            (red_on_black 3 3 [(0, 0); (1, 0)]) 26 1 _ AZ);
    [by vm_compute|reflexivity].
Defined.

(** The claim as worded fails: the blob of two pixels side by side has its
    centre at x = 1/2, and the cell of the output holds [pixel_x = 0]. *)
Lemma pixel_centroid_fraction_lost :
  ∃ out cell,
    parse_scheme (red_on_black 3 3 [(0, 0); (1, 0)]) 26 1 = Ok out ∧
    assoc AZ (cells out) = Some [cell] ∧
    find_connected_components (red_on_black 3 3 [(0, 0); (1, 0)]) red 25
      = Ok [((1 # 2)%Q, (0 # 2)%Q, 2)] ∧
    center_of_mass [(0, 0); (1, 0)] = Some ((1 # 2)%Q, (0 # 2)%Q, 2) ∧
    pixel_x cell = 0 ∧
    ¬ (inject_Z (pixel_x cell) == 1 # 2)%Q.
Proof.
  eexists _, _. split; [by vm_compute|]. split; [reflexivity|].
  split; [by vm_compute|]. split; [by vm_compute|]. split; [reflexivity|].
  simpl. unfold Qeq. simpl. lia.
Qed.

Lemma parse_scheme_no_cells_witness :
  detect_cells (red_on_black 2 2 []) 26 100 COLORS
    = Ok [(AZ, []); (TK, []); (RR, []); (AR, []); (LAR, []); (USP, [])] ∧
  all_cells [(AZ, []); (TK, []); (RR, []); (AR, []); (LAR, []); (USP, [])]
    = [] ∧
  parse_scheme (red_on_black 2 2 []) 26 100 = Raise ValueError.
Proof.
  split; [by vm_compute|]. split; [reflexivity|].
  apply (parse_scheme_no_cells (red_on_black 2 2 []) 26 100
           [(AZ, []); (TK, []); (RR, []); (AR, []); (LAR, []); (USP, [])]);
    [by vm_compute|reflexivity].
Defined.

(** The end-to-end scenario: a 104 x 104 image with one 10 x 10 block of
    the exact reference red around pixel (13, 13), pitch 26 and minimum
    area 100, gives one AZ cell of area 100 at raw and normalized grid
    (0, 0), no cell of any other class and a 1 x 1 grid. *)
Example end_to_end_scenario :
  parse_scheme (red_block 104 104 9 9 19 19) 26 100 = Ok
    {| metadata := {| image_size := (104, 104); cell_size := 26;
                      total_cells := 1; grid_size := (1, 1) |};
       cells :=
         [ (AZ, [ {| grid_x := 0; grid_y := 0; original_grid_x := Some 0;
                     original_grid_y := Some 0; pixel_x := 13; pixel_y := 13;
                     area := 100 |} ]);
           (TK, []); (RR, []); (AR, []); (LAR, []); (USP, []) ];
       positions_by_type :=
         [ (AZ, ["0,0"]); (TK, []); (RR, []); (AR, []); (LAR, []);
           (USP, []) ] |}.
Proof. by vm_compute. Qed.

(** With the minimum area one above the size of the block the same image
    yields no cell, and the run raises. *)
Example end_to_end_below_minimum :
  parse_scheme (red_block 104 104 9 9 19 19) 26 101 = Raise ValueError.
Proof. by vm_compute. Qed.

(** A zero pitch raises on the first blob that passes the filter; a
    negative one truncates the negative quotient toward zero. *)
Example non_positive_pitch :
  parse_scheme (red_on_black 3 3 [(0, 0); (1, 0)]) 0 1
    = Raise ZeroDivisionError ∧
  (grid_x <$> match make_cell (-26) (sample_component 13 13 100) with
              | Ok cell => Some cell | _ => None end) = Some 0 ∧
  Qfloor (inject_Z 13 / inject_Z (-26)) = -1.
Proof. by vm_compute. Qed.

(** ** Blob detector: the work of a scan and the areas it reports *)

Section detector_counts.
Context (img : Image) (target_color : list Z) (tolerance : Z).

Lemma elem_of_target_set (xy : Z * Z) :
  xy ∈ target_set img target_color tolerance ↔
  in_extent img xy ∧ matches_at img target_color tolerance xy = true.
Proof.
  unfold target_set. by rewrite elem_of_list_to_set, elem_of_matching_pixels.
Qed.

Lemma length_bind_const {A B : Type} (f : A → list B) (l : list A) (k : nat) :
  (∀ a, length (f a) = k) → length (l ≫= f) = (length l * k)%nat.
Proof.
  intros Hf. induction l as [|a l IH]; [done|].
  csimpl. rewrite length_app, IH, Hf. lia.
Qed.

Lemma length_raster :
  length (raster img) = (Z.to_nat (width img) * Z.to_nat (height img))%nat.
Proof.
  unfold raster.
  rewrite (length_bind_const _ _ (Z.to_nat (width img))).
  - rewrite length_seqZ. lia.
  - intros y. by rewrite length_fmap, length_seqZ.
Qed.

Lemma size_matching_pixels :
  size (target_set img target_color tolerance)
  = length (matching_pixels img target_color tolerance).
Proof.
  apply size_list_to_set. unfold matching_pixels.
  apply NoDup_filter, NoDup_raster.
Qed.

(** Every iteration of the fill loop that reads a pixel takes a coordinate
    from the queue, and only an iteration that adds a pixel of the target
    colour to [visited] puts four coordinates back. *)
Lemma fill_loop_reads_bound (fuel : nat) (s s' : FillState) :
  fill_loop img target_color tolerance fuel s = Ok s' →
  (length (reads s')
   + 4 * size (target_set img target_color tolerance ∖ visited s')
   ≤ length (reads s) + length (queue s)
     + 4 * size (target_set img target_color tolerance ∖ visited s))%nat.
Proof.
  intros Hloop.
  destruct (fill_loop_invariant img target_color tolerance
    (λ t, (length (reads t) + length (queue t)
           + 4 * size (target_set img target_color tolerance ∖ visited t)
           ≤ length (reads s) + length (queue s)
             + 4 * size (target_set img target_color tolerance ∖ visited s))%nat))
    with (fuel := fuel) (s := s) (s' := s') as [HP Hq]; [|done|done|].
  - clear Hloop s'. intros xy rest t t' Hqt HP Hb. rewrite Hqt in HP.
    simpl in HP.
    destruct (fill_body_cases img target_color tolerance xy rest t)
      as [[Heq _]|[(Heq & _)|(Heq & Hv & Hin & Hm)]];
      rewrite Heq in Hb; injection Hb as <-; simpl; [lia|lia|].
    rewrite length_app. simpl.
    rewrite (size_difference_visit (target_set img target_color tolerance)
               (visited t) xy) in HP; [lia| |done].
    by apply elem_of_target_set.
  - rewrite Hq in HP. simpl in HP. lia.
Qed.

(** A fill started at an unvisited pixel of the target colour visits it. *)
Lemma fill_loop_visits_start (fuel : nat) (V : gset (Z * Z))
    (rd : list (Z * Z)) (start : Z * Z) (s' : FillState) :
  in_extent img start → start ∉ V →
  matches_at img target_color tolerance start = true →
  fill_loop img target_color tolerance fuel
    {| queue := [start]; visited := V; component_pixels := [];
       reads := rd |} = Ok s' →
  start ∈ visited s' ∧ V ⊆ visited s'.
Proof.
  intros Hin HV Hm. rewrite fill_loop_unfold. simpl.
  destruct fuel as [|fuel]; [done|].
  destruct (fill_body_cases img target_color tolerance start []
              {| queue := [start]; visited := V; component_pixels := [];
                 reads := rd |})
    as [[_ [?|?]]|[(_ & _ & _ & Hm')|(-> & _)]]; simpl in *;
    [done|done|congruence|].
  intros (_ & _ & (new & _ & _ & _ & ->))%fill_loop_result. simpl.
  set_solver.
Qed.

(** One flood fill reads at most one pixel more than five times the
    pixels it adds to [visited]. *)
Lemma flood_fill_reads_bound (V : gset (Z * Z)) (lg : list (Z * Z))
    (start : Z * Z) :
  in_extent img start →
  ∃ c V' lg',
    flood_fill img target_color tolerance (fill_fuel img) V lg start
      = Ok (c, V', lg') ∧
    (length lg' + 5 * size (target_set img target_color tolerance ∖ V')
     ≤ length lg + 1 + 5 * size (target_set img target_color tolerance ∖ V))%nat.
Proof.
  intros Hin. unfold flood_fill.
  destruct (decide (start ∈ V)) as [|HV].
  { eexists _, _, _. split; [done|]. lia. }
  rewrite (getpixel_in_extent img start Hin). cbn -[fill_loop fill_fuel].
  destruct (matches_color target_color tolerance
              (pixels img start.1 start.2)) eqn:Hm; cbn -[fill_loop fill_fuel].
  2: { eexists _, _, _. split; [done|]. simpl. lia. }
  destruct (fill_loop_terminates img target_color tolerance (fill_fuel img)
    {| queue := [start]; visited := V; component_pixels := [];
       reads := start :: lg |}) as [s' Hs']; [apply fill_fuel_enough|].
  rewrite Hs'. cbn [mbind res_bind]. eexists _, _, _. split; [done|].
  pose proof (fill_loop_reads_bound _ _ _ Hs') as Hbound. simpl in Hbound.
  destruct (fill_loop_visits_start _ _ _ _ _ Hin HV Hm Hs') as [Hstart Hsub].
  assert (size (target_set img target_color tolerance ∖ visited s')
          < size (target_set img target_color tolerance ∖ V))%nat; [|lia].
  rewrite (size_difference_visit (target_set img target_color tolerance) V start);
    [|by apply elem_of_target_set|done].
  apply Nat.lt_succ_r, subseteq_size, elem_of_subseteq. intros p.
  rewrite !elem_of_difference, elem_of_union, elem_of_singleton.
  intros [? Hp]. split; [done|]. intros [->|?]; [done|]. by apply Hp, Hsub.
Qed.

Lemma scan_step_reads_bound (st : ScanState) (xy : Z * Z) :
  in_extent img xy →
  ∃ st',
    scan_step img target_color tolerance (fill_fuel img) st xy = Ok st' ∧
    (length (log st')
     + 5 * size (target_set img target_color tolerance ∖ seen st')
     ≤ length (log st) + 1
       + 5 * size (target_set img target_color tolerance ∖ seen st))%nat.
Proof.
  intros Hin. unfold scan_step. destruct (decide (xy ∈ seen st)).
  { exists st. split; [done|]. lia. }
  destruct (flood_fill_reads_bound (seen st) (log st) xy Hin)
    as (c & V' & lg' & -> & Hbound). cbn [mbind res_bind].
  destruct c; eexists; (split; [done|]); done.
Qed.

Lemma scan_reads_bound (l : list (Z * Z)) :
  Forall (in_extent img) l →
  ∀ st, ∃ st',
    for_each (scan_step img target_color tolerance (fill_fuel img)) l st
      = Ok st' ∧
    (length (log st')
     + 5 * size (target_set img target_color tolerance ∖ seen st')
     ≤ length (log st) + length l
       + 5 * size (target_set img target_color tolerance ∖ seen st))%nat.
Proof.
  induction 1 as [|xy l Hin _ IH]; intros st; cbn [for_each].
  - exists st. split; [done|]. simpl. lia.
  - destruct (scan_step_reads_bound st xy Hin) as (st1 & -> & H1).
    cbn [mbind res_bind]. destruct (IH st1) as (st' & -> & H').
    exists st'. split; [done|]. simpl. lia.
Qed.

(** The work of a scan is linear in the size of the image.  Scanning a
    [width] x [height] image for a colour returns after evaluating
    [pixels[x, y]] at most once per pixel of the image plus five times per
    pixel of the target colour, hence at most [6 * width * height] times. *)
Theorem scan_reads_linear :
  ∃ st, scan_image img target_color tolerance = Ok st ∧
    (length (log st)
     ≤ length (raster img)
       + 5 * length (matching_pixels img target_color tolerance))%nat ∧
    (length (matching_pixels img target_color tolerance)
     ≤ length (raster img))%nat ∧
    length (raster img) = (Z.to_nat (width img) * Z.to_nat (height img))%nat.
Proof.
  unfold scan_image.
  destruct (scan_reads_bound (raster img)) with
    (st := {| seen := ∅; components := []; log := [] |})
    as (st & -> & Hbound).
  { apply Forall_forall. intros xy. apply elem_of_raster. }
  exists st. split; [done|]. simpl in Hbound.
  rewrite difference_empty_L, size_matching_pixels in Hbound.
  split; [lia|]. split; [|apply length_raster].
  unfold matching_pixels. apply length_filter.
Qed.

(** The blobs behind the components of a scan: lists of pixels that
    together hold every pixel of the target colour once. *)
Lemma detected_blobs :
  ∃ blobs comps,
    find_connected_components img target_color tolerance = Ok comps ∧
    Forall2 (blob_of img target_color tolerance) blobs comps ∧
    mjoin blobs ≡ₚ matching_pixels img target_color tolerance.
Proof.
  unfold find_connected_components, scan_image.
  destruct (scan_regions img target_color tolerance (raster img)) with
    (st := {| seen := ∅; components := []; log := [] |})
    (blobs := @nil (list (Z * Z)))
    as (st' & blobs' & -> & _ & Hseen & Hblobs & _ & Hnd & _ & Hcov);
    simpl.
  - apply Forall_forall. intros xy. apply elem_of_raster.
  - intros r n Hr. by apply not_elem_of_empty in Hr.
  - done.
  - constructor.
  - constructor.
  - constructor.
  - exists blobs', (components st'). split; [done|]. split; [done|].
    apply NoDup_Permutation; [done| |].
    { unfold matching_pixels. apply NoDup_filter, NoDup_raster. }
    intros p. rewrite elem_of_matching_pixels. split.
    + intros (ps & Hp & Hps)%list_elem_of_join.
      apply list_elem_of_lookup in Hps as [i Hi].
      destruct (Forall2_lookup_l _ _ _ _ _ Hblobs Hi) as (c & _ & Hc).
      destruct Hc as (_ & Hin & Hm & _).
      rewrite Forall_forall in Hin. rewrite Forall_forall in Hm. auto.
    + intros [Hin Hm]. apply (elem_of_list_to_set (C := gset (Z * Z))).
      rewrite <- Hseen. apply Hcov; [by apply elem_of_raster|done].
Qed.

(** No pixel is lost or counted twice.  The detector returns components of
    at least one pixel each, and their areas add up to the number of pixels
    of the target colour in the image; so there are at most that many
    components. *)
Theorem component_areas_count_target_pixels :
  ∃ comps,
    find_connected_components img target_color tolerance = Ok comps ∧
    Forall (λ c, 1 ≤ c.2) comps ∧
    Zsum (snd <$> comps)
    = Z.of_nat (length (matching_pixels img target_color tolerance)) ∧
    (length comps
     ≤ length (matching_pixels img target_color tolerance))%nat.
Proof.
  destruct detected_blobs as (blobs & comps & Hcomps & Hblobs & Hperm).
  exists comps. split; [done|].
  assert (Forall (λ c, 1 ≤ c.2) comps ∧
          Zsum (snd <$> comps) = Z.of_nat (length (mjoin blobs)) ∧
          (length comps ≤ length (mjoin blobs))%nat) as (? & ? & ?).
  { clear Hperm Hcomps.
    induction Hblobs as [|ps c blobs comps Hb _ (IH1 & IH2 & IH3)];
      [by repeat split|].
    apply blob_of_centroid in Hb as (-> & Hn & _).
    split; [constructor; [simpl; lia|done]|].
    rewrite fmap_cons. cbn [mjoin list_join Zsum foldr snd].
    fold (Zsum (snd <$> comps)). rewrite length_app, IH2.
    split; [by rewrite Nat2Z.inj_add|]. cbn [length].
    assert (1 ≤ length ps)%nat by (apply Nat2Z.inj_le; lia).
    apply Nat.le_succ_l.
    eapply Nat.le_lt_trans; [exact IH3|]. apply Nat.lt_add_pos_l. done. }
  rewrite <- Hperm. done.
Qed.

End detector_counts.

(** ** Colour matcher: the detector's test and [identify_color] agree *)

(** The closure [matches_color] the detector uses for a class and
    [identify_color] give the same verdict on every pixel of three or more
    channels: the pixel matches the reference colour of a class exactly
    when [identify_color] names that class.  So such a pixel matches at
    most one class. *)
Theorem matcher_agrees_with_identify_color (pixel : list Z) :
  (3 ≤ length pixel)%nat →
  (∀ cell_type,
     matches_color (reference cell_type) COLOR_TOLERANCE pixel = true ↔
     identify_color pixel = Some cell_type) ∧
  (∀ c1 c2,
     matches_color (reference c1) COLOR_TOLERANCE pixel = true →
     matches_color (reference c2) COLOR_TOLERANCE pixel = true → c1 = c2).
Proof.
  intros Hlen. unfold matches_color. split.
  - intros cell_type. rewrite <- within_tolerance_decide, identify_color_Some.
    split; [|by intros [? _]]. intros Hw. split; [done|].
    intros c Hc Hw'.
    pose proof (reference_colors_separated pixel c cell_type Hlen Hw' Hw).
    subst c. lia.
  - intros c1 c2. rewrite <- !within_tolerance_decide.
    by apply reference_colors_separated.
Qed.

Lemma matcher_agrees_witness :
  (3 ≤ length [0xDE + 10; 0x1A; 0x03; 255])%nat ∧
  (matches_color (reference AZ) COLOR_TOLERANCE [0xDE + 10; 0x1A; 0x03; 255]
     = true ↔
   identify_color [0xDE + 10; 0x1A; 0x03; 255] = Some AZ).
Proof.
  split; [simpl; lia|].
  apply (matcher_agrees_with_identify_color [0xDE + 10; 0x1A; 0x03; 255]).
  simpl. lia.
Defined.

(** A pixel of fewer than three channels can match several classes: with
    no channel to compare, every distance is zero. *)
Example short_pixel_matches_all :
  matches_color (reference AZ) COLOR_TOLERANCE [] = true ∧
  matches_color (reference TK) COLOR_TOLERANCE [] = true ∧
  identify_color [] = Some AZ.
Proof. by vm_compute. Qed.

(** ** The pipeline: how a run ends *)

Section outcomes.
Context (img : Image) (cell_size min_area : Z).











End outcomes.

(** The four ways a run ends, on an image with one blob of two pixels. *)
Example parse_scheme_four_outcomes :
  some_blob_kept two_red_pixels 2 ∧
  parse_scheme two_red_pixels 26 3 = Raise ValueError ∧
  parse_scheme two_red_pixels (10 ^ 400) 3 = Raise ValueError ∧
  parse_scheme two_red_pixels (10 ^ 400) 2 = Raise OverflowError ∧
  parse_scheme two_red_pixels (- 10 ^ 400) 2 = Raise OverflowError ∧
  parse_scheme two_red_pixels 0 2 = Raise ZeroDivisionError ∧
  total_cells <$> (metadata <$> match parse_scheme two_red_pixels 26 2 with
                                | Ok out => Some out | _ => None end)
  = Some 1.
Proof.
  split; [|by vm_compute].
  exists AZ, [((1 # 2)%Q, (0 # 2)%Q, 2)], ((1 # 2)%Q, (0 # 2)%Q, 2).
  split; [by vm_compute|]. split; [by left|done].
Qed.

(** ** The pipeline: what every cell of an output satisfies *)

(** Truncating the centre and dividing by the pitch commute: cutting the
    quotient of the exact centre is cutting the quotient of the cut
    centre. *)
Lemma py_int_centre_pitch (a b d : Z) :
  0 < b → d ≠ 0 →
  py_int (true_div a b / inject_Z d) = py_int (true_div a b) ÷ d.
Proof.
  intros Hb Hd. rewrite py_int_true_div by done.
  destruct b as [|p|p]; try lia. destruct d as [|q|q]; try lia.
  - unfold true_div, Qdiv, Qmult, Qinv, py_int. simpl.
    rewrite !Z.mul_1_r, Z.quot_quot by lia. done.
  - unfold true_div, Qdiv, Qmult, Qinv, py_int. simpl.
    rewrite !Z.mul_1_r, Z.quot_quot by lia.
    change (Z.neg q) with (- Z.pos q).
    rewrite Z.mul_opp_r, Z.quot_opp_r by lia.
    replace (a * -1) with (- a) by lia.
    rewrite Z.quot_opp_l by lia. done.
Qed.

Lemma Zsum_fmap_bounds {A : Type} (f : A → Z) (lo hi : Z) (l : list A) :
  Forall (λ a, lo ≤ f a ≤ hi) l →
  Z.of_nat (length l) * lo ≤ Zsum (f <$> l) ≤ Z.of_nat (length l) * hi.
Proof.
  induction 1 as [|a l Ha _ IH]; [simpl; lia|].
  rewrite fmap_cons. cbn [Zsum foldr length]. fold (Zsum (f <$> l)). lia.
Qed.

(** The triple of a blob lies inside the image: its means are between 0
    and the last column and row, and it has between one pixel and all of
    them. *)
Lemma blob_of_bounds (img : Image) (target_color : list Z) (tolerance : Z)
    (ps : list (Z * Z)) (c : Q * Q * Z) :
  blob_of img target_color tolerance ps c →
  0 ≤ py_int c.1.1 < width img ∧ 0 ≤ py_int c.1.2 < height img ∧
  1 ≤ c.2 ≤ width img * height img.
Proof.
  intros Hb. pose proof Hb as (_ & Hin & _ & Hnd & _).
  apply blob_of_centroid in Hb as (-> & Hn & _). cbn [fst snd].
  rewrite !py_int_true_div by done.
  assert (Forall (λ xy : Z * Z, 0 ≤ xy.1 ≤ width img - 1) ps) as Hx.
  { eapply Forall_impl; [exact Hin|]. intros xy. unfold in_extent.
    rewrite out_of_extent_false. lia. }
  assert (Forall (λ xy : Z * Z, 0 ≤ xy.2 ≤ height img - 1) ps) as Hy.
  { eapply Forall_impl; [exact Hin|]. intros xy. unfold in_extent.
    rewrite out_of_extent_false. lia. }
  apply Zsum_fmap_bounds in Hx, Hy.
  set (n := Z.of_nat (length ps)) in *.
  rewrite !Z.quot_div_nonneg by lia.
  split; [|split].
  - split; [apply Z.div_pos; lia|]. apply Z.div_lt_upper_bound; nia.
  - split; [apply Z.div_pos; lia|]. apply Z.div_lt_upper_bound; nia.
  - split; [lia|].
    assert (length ps ≤ length (raster img))%nat as Hlen.
    { apply submseteq_length, NoDup_submseteq; [done|].
      intros p Hp. apply elem_of_raster.
      rewrite Forall_forall in Hin. by apply Hin. }
    rewrite length_raster in Hlen.
    assert (0 < width img ∧ 0 < height img) as [Hw Hh].
    { destruct ps as [|p ps]; [simpl in Hn; lia|].
      apply Forall_cons in Hin as [Hp _]. unfold in_extent in Hp.
      rewrite out_of_extent_false in Hp. lia. }
    unfold n. apply Nat2Z.inj_le in Hlen.
    rewrite Nat2Z.inj_mul, !Z2Nat.id in Hlen by lia. done.
Qed.

Lemma assoc_elem_of {A : Type} (d : list (CellType * A)) (key : CellType)
    (v : A) :
  NoDup (fst <$> d) → (key, v) ∈ d → assoc key d = Some v.
Proof.
  induction d as [|[k w] d IH]; intros Hnd Hin; [by apply elem_of_nil in Hin|].
  rewrite fmap_cons in Hnd. apply NoDup_cons in Hnd as [Hk Hnd].
  simpl. apply elem_of_cons in Hin as [[= -> ->]|Hin].
  - by rewrite decide_True.
  - rewrite decide_False; [by apply IH|]. intros ->. apply Hk.
    apply list_elem_of_fmap. by exists (key, v).
Qed.

Lemma detect_cells_keys (img : Image) (cell_size min_area : Z)
    (table : list (CellType * list Z)) (raw : list (CellType * list Cell)) :
  detect_cells img cell_size min_area table = Ok raw →
  fst <$> raw = fst <$> table.
Proof.
  intros Hall%detect_cells_Ok.
  induction Hall as [|e r table raw [Heq _] _ IH]; [done|].
  by rewrite !fmap_cons, Heq, IH.
Qed.

(** The output has the six classes as keys, in the order of [COLORS]. *)
Lemma parse_scheme_keys (img : Image) (cell_size min_area : Z)
    (out : Output) :
  parse_scheme img cell_size min_area = Ok out →
  fst <$> cells out = [AZ; TK; RR; AR; LAR; USP].
Proof.
  intros (_ & raw & Hraw & Hne & Hnorm)%parse_scheme_Ok.
  destruct (normalize_coordinates_with_total elements elements_perm_refl
              raw Hne) as (cl & Hcl & Hall).
  fold normalize_coordinates in Hcl.
  assert (cl = cells out) as -> by congruence.
  apply normalized_keys in Hall. rewrite Hall.
  by rewrite (detect_cells_keys _ _ _ _ _ Hraw).
Qed.

(** Every cell of an output lies inside the image it was read from.  Its
    area is at least the minimum area, at least one and at most the number
    of pixels of the image; its pixel centre is a pixel of the image; and
    its raw grid coordinates, kept as [original_grid_x] and
    [original_grid_y], are the pixel centre divided by the pitch and cut
    toward zero. *)
Theorem output_cells_within_image (img : Image) (cell_size min_area : Z)
    (out : Output) :
  parse_scheme img cell_size min_area = Ok out →
  Forall (λ cell,
            min_area ≤ area cell ∧
            1 ≤ area cell ≤ width img * height img ∧
            0 ≤ pixel_x cell < width img ∧
            0 ≤ pixel_y cell < height img ∧
            original_grid_x cell = Some (pixel_x cell ÷ cell_size) ∧
            original_grid_y cell = Some (pixel_y cell ÷ cell_size))
         (all_cells (cells out)).
Proof.
  intros Hrun. apply Forall_forall. intros cell' Hcell'.
  pose proof (parse_scheme_Ok _ _ _ _ Hrun) as [Hpitch _].
  apply elem_of_all_cells in Hcell' as ([ty cell_list] & He & Hin).
  simpl in Hin.
  assert (assoc ty (cells out) = Some cell_list) as Hlist.
  { apply assoc_elem_of; [|done].
    rewrite (parse_scheme_keys _ _ _ _ Hrun).
    apply (bool_decide_unpack _). by vm_compute. }
  destruct (parse_scheme_cells _ _ _ _ _ _ Hrun Hlist)
    as (comps & raw_list & Hcomps & Hmade & Hkept).
  apply list_elem_of_lookup in Hin as [i Hi].
  destruct (Forall2_lookup_r _ _ _ _ _ Hkept Hi) as (cell & Hcell & Hk).
  destruct (Forall2_lookup_r _ _ _ _ _ Hmade Hcell) as (c & Hc & Hmk).
  apply list_elem_of_lookup_2, list_elem_of_filter in Hc as [Harea Hc].
  destruct (find_connected_components_spec img (reference ty)
              COLOR_TOLERANCE) as (comps' & Hcomps' & Hblobs).
  assert (comps' = comps) as -> by congruence.
  rewrite Forall_forall in Hblobs. destruct (Hblobs c Hc) as [ps Hps].
  pose proof (blob_of_bounds _ _ _ _ _ Hps) as (Hx & Hy & Hn).
  apply blob_of_centroid in Hps as (-> & Hpos & _).
  rewrite make_cell_Ok in Hmk by done. injection Hmk as <-.
  destruct Hk as (-> & -> & -> & -> & ->).
  cbn [pixel_x pixel_y area grid_x grid_y fst snd] in *.
  destruct Hpitch as [Hnz _]. by rewrite !py_int_centre_pitch.
Qed.

Lemma output_cells_witness :
  ∃ out,
    parse_scheme two_red_pixels 26 2 = Ok out ∧
    Forall (λ cell,
              2 ≤ area cell ∧
              1 ≤ area cell ≤ width two_red_pixels * height two_red_pixels ∧
              0 ≤ pixel_x cell < width two_red_pixels ∧
              0 ≤ pixel_y cell < height two_red_pixels ∧
              original_grid_x cell = Some (pixel_x cell ÷ 26) ∧
              original_grid_y cell = Some (pixel_y cell ÷ 26))
           (all_cells (cells out)).
Proof.
  eexists. split; [by vm_compute|].
  apply (output_cells_within_image two_red_pixels 26 2). by vm_compute.
Defined.

(** ** The pipeline: the reported grid *)

Lemma foldl_max_spec (l : list Z) (x : Z) :
  (foldl Z.max x l = x ∨ foldl Z.max x l ∈ l) ∧
  x ≤ foldl Z.max x l ∧ Forall (λ v, v ≤ foldl Z.max x l) l.
Proof.
  revert x. induction l as [|y l IH]; intros x; simpl.
  - split; [by left|]. split; [lia|constructor].
  - destruct (IH (Z.max x y)) as ([Heq|Hin] & Hle & Hall).
    + split; [|split; [lia|constructor; [lia|done]]].
      rewrite Heq. destruct (Z.max_spec x y) as [[_ ->]|[_ ->]];
        [right; by left|by left].
    + split; [right; by right|]. split; [lia|constructor; [lia|done]].
Qed.

Lemma foldl_min_spec (l : list Z) (x : Z) :
  (foldl Z.min x l = x ∨ foldl Z.min x l ∈ l) ∧
  foldl Z.min x l ≤ x ∧ Forall (λ v, foldl Z.min x l ≤ v) l.
Proof.
  revert x. induction l as [|y l IH]; intros x; simpl.
  - split; [by left|]. split; [lia|constructor].
  - destruct (IH (Z.min x y)) as ([Heq|Hin] & Hle & Hall).
    + split; [|split; [lia|constructor; [lia|done]]].
      rewrite Heq. destruct (Z.min_spec x y) as [[_ ->]|[_ ->]];
        [by left|right; by left].
    + split; [right; by right|]. split; [lia|constructor; [lia|done]].
Qed.

(** The extent of a list that holds exactly the values [0 .. n - 1]. *)
Lemma extent_dense (l : list Z) (n : Z) :
  0 < n → (∀ k, k ∈ l ↔ 0 ≤ k < n) → extent l = Ok n.
Proof.
  intros Hn Hl. destruct l as [|x l].
  { assert (0 ∈ @nil Z) as H0 by (apply Hl; lia). by apply elem_of_nil in H0. }
  cbn [extent py_max py_min mbind res_bind].
  destruct (foldl_max_spec l x) as (Hmax & Hxmax & Hallmax).
  destruct (foldl_min_spec l x) as (Hmin & Hxmin & Hallmin).
  set (hi := foldl Z.max x l) in *. set (lo := foldl Z.min x l) in *.
  assert (hi ∈ x :: l) as Hhi by (destruct Hmax as [->|?]; [by left|by right]).
  assert (lo ∈ x :: l) as Hlo by (destruct Hmin as [->|?]; [by left|by right]).
  assert (∀ v, v ∈ x :: l → lo ≤ v ≤ hi) as Hbounds.
  { intros v [->|Hv]%elem_of_cons; [lia|].
    rewrite Forall_forall in Hallmax. rewrite Forall_forall in Hallmin.
    split; auto. }
  apply Hl in Hhi, Hlo.
  assert (0 ∈ x :: l) as H0 by (apply Hl; lia).
  assert (n - 1 ∈ x :: l) as Hn1 by (apply Hl; lia).
  apply Hbounds in H0, Hn1. f_equal. lia.
Qed.

(** The ranks of a list of cells along one axis are exactly the values
    below the number of distinct coordinates. *)
Lemma ranks_image (f : Cell → Z) (m : gmap Z Z) (l l' : list Cell) (k : Z) :
  rank_bijection (list_to_set (f <$> l)) m →
  Forall2 (λ c c', m !! f c = Some (f c')) l l' →
  k ∈ f <$> l' ↔ 0 ≤ k < Z.of_nat (size (list_to_set (f <$> l) : gset Z)).
Proof.
  intros (Hdom & Hrange & _ & Honto) Hall.
  rewrite list_elem_of_fmap. split.
  - intros (c' & -> & [i Hi]%list_elem_of_lookup).
    destruct (Forall2_lookup_r _ _ _ _ _ Hall Hi) as (c & _ & Hc).
    by apply (Hrange _ _ Hc).
  - intros Hk. destruct (Honto k Hk) as (v & Hv & Hvk).
    apply elem_of_list_to_set, list_elem_of_fmap in Hv
      as (c & -> & [i Hi]%list_elem_of_lookup).
    destruct (Forall2_lookup_l _ _ _ _ _ Hall Hi) as (c' & Hi' & Hc).
    exists c'. split; [congruence|]. by eapply list_elem_of_lookup_2.
Qed.

Lemma size_list_to_set_le (l : list Z) :
  (size (list_to_set l : gset Z) ≤ length l)%nat.
Proof.
  induction l as [|x l IH]; [by rewrite list_to_set_nil, size_empty|].
  rewrite list_to_set_cons, size_union_alt, size_singleton. simpl.
  assert (size (list_to_set l ∖ {[ x ]} : gset Z)
          ≤ size (list_to_set l : gset Z))%nat
    by (by apply subseteq_size, subseteq_difference_l).
  lia.
Qed.

Lemma size_list_to_set_pos (l : list Z) :
  l ≠ [] → (0 < size (list_to_set l : gset Z))%nat.
Proof.
  destruct l as [|x l]; [done|]. intros _.
  assert (size (list_to_set (x :: l) : gset Z) ≠ 0)%nat; [|lia].
  apply size_non_empty_iff. intros Hempty.
  assert (x ∈ (list_to_set (x :: l) : gset Z)) as Hx by set_solver.
  rewrite Hempty in Hx. by apply not_elem_of_empty in Hx.
Qed.

Lemma total_all_cells (cells : list (CellType * list Cell)) :
  Zsum ((λ e, Z.of_nat (length e.2)) <$> cells)
  = Z.of_nat (length (all_cells cells)).
Proof.
  unfold all_cells. induction cells as [|e cells IH]; [done|].
  rewrite fmap_cons. csimpl. cbn [Zsum foldr].
  fold (Zsum ((λ e, Z.of_nat (length e.2)) <$> cells)).
  rewrite IH, length_app. lia.
Qed.

(** The parts of an output, read off a run that returned. *)
Lemma parse_scheme_inv (img : Image) (pitch min_area : Z) (out : Output) :
  parse_scheme img pitch min_area = Ok out →
  ∃ raw,
    detect_cells img pitch min_area COLORS = Ok raw ∧
    all_cells raw ≠ [] ∧
    normalize_coordinates raw = Ok (cells out) ∧
    extent (grid_x <$> all_cells (cells out))
    = Ok ((grid_size (metadata out)).1) ∧
    extent (grid_y <$> all_cells (cells out))
    = Ok ((grid_size (metadata out)).2) ∧
    total_cells (metadata out) = Z.of_nat (length (all_cells (cells out))) ∧
    image_size (metadata out) = (width img, height img) ∧
    cell_size (metadata out) = pitch ∧
    positions_by_type out
    = (λ e : CellType * list Cell, (e.1, position_string <$> e.2))
      <$> cells out.
Proof.
  intros Hrun.
  pose proof (parse_scheme_Ok _ _ _ _ Hrun) as (_ & raw & Hraw & Hne & Hnorm).
  exists raw. split; [done|]. split; [done|]. split; [done|].
  unfold parse_scheme, parse_scheme_with in Hrun. rewrite Hraw in Hrun.
  cbn [mbind res_bind] in Hrun. fold normalize_coordinates in Hrun.
  rewrite Hnorm in Hrun. cbn [mbind res_bind] in Hrun.
  destruct (extent (grid_x <$> all_cells (cells out))) as [gw| |];
    cbn [mbind res_bind] in Hrun; try done.
  destruct (extent (grid_y <$> all_cells (cells out))) as [gh| |];
    cbn [mbind res_bind] in Hrun; try done.
  injection Hrun as <-. cbn [metadata grid_size total_cells image_size
    cell_size positions_by_type cells fst snd].
  by rewrite total_all_cells.
Qed.

(** The two axes of the reported grid: the normalized columns of the
    cells of an output are the values below the grid width, which is the
    number of raw columns, and likewise for the rows. *)
Lemma grid_axes (img : Image) (cell_size min_area : Z) (out : Output) :
  parse_scheme img cell_size min_area = Ok out →
  ∃ raw,
    all_cells raw ≠ [] ∧
    Forall2 (normalized_from (x_map raw) (y_map raw))
            (all_cells raw) (all_cells (cells out)) ∧
    (∀ k, k ∈ grid_x <$> all_cells (cells out) ↔
          0 ≤ k < (grid_size (metadata out)).1) ∧
    (∀ k, k ∈ grid_y <$> all_cells (cells out) ↔
          0 ≤ k < (grid_size (metadata out)).2) ∧
    (grid_size (metadata out)).1 = Z.of_nat (size (all_x raw)) ∧
    (grid_size (metadata out)).2 = Z.of_nat (size (all_y raw)).
Proof.
  intros (raw & _ & Hne & Hnorm & Hgw & Hgh & _)%parse_scheme_inv.
  destruct (normalize_coordinates_total raw Hne) as (cl & Hcl & Hall).
  assert (cl = cells out) as -> by congruence. clear Hcl.
  exists raw. split; [done|]. split; [done|]. unfold all_x, all_y.
  set (l := all_cells raw) in *. set (l' := all_cells (cells out)) in *.
  assert (∀ k, k ∈ grid_x <$> l' ↔
    0 ≤ k < Z.of_nat (size (list_to_set (grid_x <$> l) : gset Z))) as Hx.
  { intros k. apply (ranks_image grid_x (x_map raw)); [apply x_map_bijection|].
    eapply Forall2_impl; [exact Hall|]. by intros c c' (? & _). }
  assert (∀ k, k ∈ grid_y <$> l' ↔
    0 ≤ k < Z.of_nat (size (list_to_set (grid_y <$> l) : gset Z))) as Hy.
  { intros k. apply (ranks_image grid_y (y_map raw)); [apply y_map_bijection|].
    eapply Forall2_impl; [exact Hall|]. by intros c c' (_ & ? & _). }
  assert (grid_x <$> l ≠ [] ∧ grid_y <$> l ≠ []) as [Hnx Hny].
  { clearbody l. destruct l; [done|]. by split. }
  pose proof (size_list_to_set_pos _ Hnx) as Hpx.
  pose proof (size_list_to_set_pos _ Hny) as Hpy.
  rewrite (extent_dense _ _ (proj1 (Nat2Z.inj_lt 0 _) Hpx) Hx) in Hgw.
  rewrite (extent_dense _ _ (proj1 (Nat2Z.inj_lt 0 _) Hpy) Hy) in Hgh.
  injection Hgw as <-. injection Hgh as <-. done.
Qed.

(** The reported grid is exactly filled.  In the output of a run, the
    normalized columns of the cells are exactly [0 .. width - 1] and the
    normalized rows exactly [0 .. height - 1] for the reported grid size:
    no cell lies outside the grid and no column or row of it is empty.  The
    grid width is the number of distinct raw columns and the grid height
    the number of distinct raw rows; [total_cells] is the number of cells,
    at least one and not below either grid dimension. *)
Theorem reported_grid_is_filled (img : Image) (cell_size min_area : Z)
    (out : Output) :
  parse_scheme img cell_size min_area = Ok out →
  (∀ k, (∃ cell, cell ∈ all_cells (cells out) ∧ grid_x cell = k) ↔
        0 ≤ k < (grid_size (metadata out)).1) ∧
  (∀ k, (∃ cell, cell ∈ all_cells (cells out) ∧ grid_y cell = k) ↔
        0 ≤ k < (grid_size (metadata out)).2) ∧
  (grid_size (metadata out)).1
  = Z.of_nat (size (list_to_set
       (omap original_grid_x (all_cells (cells out))) : gset Z)) ∧
  (grid_size (metadata out)).2
  = Z.of_nat (size (list_to_set
       (omap original_grid_y (all_cells (cells out))) : gset Z)) ∧
  total_cells (metadata out) = Z.of_nat (length (all_cells (cells out))) ∧
  1 ≤ (grid_size (metadata out)).1 ≤ total_cells (metadata out) ∧
  1 ≤ (grid_size (metadata out)).2 ≤ total_cells (metadata out).
Proof.
  intros Hrun.
  pose proof (parse_scheme_inv _ _ _ _ Hrun)
    as (_ & _ & _ & _ & _ & _ & Htotal & _).
  destruct (grid_axes _ _ _ _ Hrun)
    as (raw & Hne & Hall & Hx & Hy & Hw & Hh).
  unfold all_x in Hw. unfold all_y in Hh.
  set (l := all_cells raw) in *. set (l' := all_cells (cells out)) in *.
  assert (length l' = length l) as Hlen
    by (symmetry; by eapply Forall2_length).
  assert (omap original_grid_x l' = grid_x <$> l ∧
          omap original_grid_y l' = grid_y <$> l) as [Hox Hoy].
  { clearbody l l'. clear -Hall.
    induction Hall as [|c c' l l' (_ & _ & Hx & Hy & _) _ [IHx IHy]];
      [done|].
    rewrite !fmap_cons. cbn [omap list_omap]. rewrite Hx, Hy.
    fold (omap original_grid_x l'). fold (omap original_grid_y l').
    by rewrite IHx, IHy. }
  rewrite Hox, Hoy.
  assert (grid_x <$> l ≠ [] ∧ grid_y <$> l ≠ []) as [Hnx Hny].
  { clearbody l. destruct l; [done|]. by split. }
  pose proof (size_list_to_set_pos _ Hnx) as Hpx.
  pose proof (size_list_to_set_pos _ Hny) as Hpy.
  pose proof (size_list_to_set_le (grid_x <$> l)) as Hlx.
  pose proof (size_list_to_set_le (grid_y <$> l)) as Hly.
  rewrite length_fmap in Hlx, Hly.
  split; [|split]; [| |rewrite Htotal, Hlen; repeat split; lia].
  - intros k. rewrite <- Hx, list_elem_of_fmap. split.
    + intros (cell & Hcell & <-). eauto.
    + intros (cell & -> & Hcell). eauto.
  - intros k. rewrite <- Hy, list_elem_of_fmap. split.
    + intros (cell & Hcell & <-). eauto.
    + intros (cell & -> & Hcell). eauto.
Qed.

Lemma reported_grid_witness :
  ∃ out,
    parse_scheme (red_on_black 3 3 [(0, 0); (2, 2)]) 1 1 = Ok out ∧
    grid_size (metadata out) = (2, 2) ∧
    (∀ k, (∃ cell, cell ∈ all_cells (cells out) ∧ grid_x cell = k) ↔
          0 ≤ k < (grid_size (metadata out)).1).
Proof.
  eexists. split; [by vm_compute|]. split; [reflexivity|].
  apply (reported_grid_is_filled (red_on_black 3 3 [(0, 0); (2, 2)]) 1 1).
  by vm_compute.
Defined.

(** ** The code listing *)

Lemma add_to_row_lookup (by_row : gmap Z (list Z)) (p : Cell) (row : Z) :
  add_to_row by_row p !! row =
  if decide (row = grid_y p)
  then Some (default [] (by_row !! row) ++ [grid_x p])
  else by_row !! row.
Proof.
  unfold add_to_row. destruct (decide (row = grid_y p)) as [->|Hne].
  - rewrite lookup_alter_eq.
    destruct (by_row !! grid_y p) as [cols|] eqn:Hrow; simpl.
    + by rewrite Hrow.
    + by rewrite lookup_insert_eq.
  - rewrite lookup_alter_ne by done.
    destruct (by_row !! grid_y p); [done|]. by rewrite lookup_insert_ne.
Qed.

(** The columns the loop has appended for a row: those of the positions
    in the row, in order. *)
Lemma foldl_add_to_row_lookup (positions : list Cell)
    (by_row : gmap Z (list Z)) (row : Z) :
  foldl add_to_row by_row positions !! row =
  match grid_x <$> filter (λ p, grid_y p = row) positions with
  | [] => by_row !! row
  | new => Some (default [] (by_row !! row) ++ new)
  end.
Proof.
  revert by_row. induction positions as [|p positions IH]; intros by_row;
    [done|].
  cbn [foldl]. rewrite IH, add_to_row_lookup, filter_cons.
  destruct (decide (grid_y p = row)) as [Hp|Hp].
  - rewrite decide_True by done. rewrite fmap_cons. simpl.
    destruct (grid_x <$> filter (λ p, grid_y p = row) positions); [done|].
    by rewrite <- app_assoc.
  - by rewrite decide_False by done.
Qed.

Lemma group_by_row_lookup (positions : list Cell) (row : Z) (cols : list Z) :
  group_by_row positions !! row = Some cols ↔
  cols = grid_x <$> filter (λ p, grid_y p = row) positions ∧ cols ≠ [].
Proof.
  unfold group_by_row. rewrite foldl_add_to_row_lookup, lookup_empty.
  destruct (grid_x <$> filter (λ p, grid_y p = row) positions) as [|c l];
    simpl; [split; [done|by intros [-> ?]]|].
  split; [by intros [= <-]|by intros [-> _]].
Qed.

Lemma StronglySorted_le_lt (l : list Z) :
  StronglySorted Z.le l → NoDup l → StronglySorted Z.lt l.
Proof.
  induction 1 as [|x l _ IH Hx]; intros Hnd; [constructor|].
  apply NoDup_cons in Hnd as [Hin Hnd]. constructor; [by apply IH|].
  apply Forall_forall. intros y Hy. rewrite Forall_forall in Hx.
  specialize (Hx y Hy). assert (x ≠ y) by (by intros ->). lia.
Qed.

Lemma fmap_fst_pair {A B : Type} (F : A → B) (l : list A) :
  ((λ a, (a, F a)) <$> l).*1 = l.
Proof. induction l as [|a l IH]; [done|]. rewrite !fmap_cons, IH. done. Qed.

(** [join] is the concatenation with a separator of the library. *)
Lemma join_concat (sep : string) (parts : list string) :
  join sep parts = String.concat sep parts.
Proof.
  induction parts as [|p [|q parts] IH]; [done|done|].
  change (p +:+ sep +:+ join sep (q :: parts)
          = p +:+ sep +:+ String.concat sep (q :: parts)).
  by rewrite IH.
Qed.

Lemma list_bind_pointwise {A B : Type} (f g : A → list B) (l : list A) :
  (∀ a, f a = g a) → l ≫= f = l ≫= g.
Proof.
  intros Hfg. induction l as [|a l IH]; [done|]. csimpl. by rewrite Hfg, IH.
Qed.

Section listing_properties.
Context (set_iter : gset Z → list Z).
Context (set_iter_perm : ∀ X, set_iter X ≡ₚ elements X).

Lemma sorted_lt (X : gset Z) : StronglySorted Z.lt (sorted set_iter X).
Proof.
  apply StronglySorted_le_lt; [apply sorted_StronglySorted|].
  by apply sorted_NoDup.
Qed.

(** The listing of a class, row by row. *)
Lemma row_listing_with_eq (positions : list Cell) :
  row_listing_with set_iter positions =
  Ok ((λ row, (row, sorted set_iter (list_to_set
                      (grid_x <$> filter (λ p, grid_y p = row) positions))))
      <$> sorted set_iter (dom (group_by_row positions))).
Proof.
  unfold row_listing_with.
  assert (∀ row, row ∈ sorted set_iter (dom (group_by_row positions)) →
    getrow (group_by_row positions) row
    = Ok (grid_x <$> filter (λ p, grid_y p = row) positions)) as Hrows.
  { intros row Hrow. apply (elem_of_sorted set_iter set_iter_perm) in Hrow.
    apply elem_of_dom in Hrow as [cols Hcols]. unfold getrow. rewrite Hcols.
    by apply group_by_row_lookup in Hcols as [-> _]. }
  induction (sorted set_iter (dom (group_by_row positions))) as [|row l IH];
    [done|].
  cbn [map_res]. rewrite Hrows by (by left). cbn [mbind res_bind].
  rewrite IH; [done|]. intros r Hr. apply Hrows. by right.
Qed.

(** A column is written in a row exactly when a position of the class
    has these coordinates. *)
Lemma listed_row_listing (positions : list Cell) (col row : Z) :
  listed ((λ row, (row, sorted set_iter (list_to_set
                     (grid_x <$> filter (λ p, grid_y p = row) positions))))
          <$> sorted set_iter (dom (group_by_row positions))) col row ↔
  ∃ p, p ∈ positions ∧ grid_x p = col ∧ grid_y p = row.
Proof.
  set (cols := λ row,
         grid_x <$> filter (λ p, grid_y p = row) positions).
  assert (∀ col row, col ∈ cols row ↔
            ∃ p, p ∈ positions ∧ grid_x p = col ∧ grid_y p = row) as Hcols.
  { intros c r. unfold cols. rewrite list_elem_of_fmap. split.
    - intros (p & -> & [Hrow Hp]%list_elem_of_filter). eauto.
    - intros (p & Hp & <- & <-). exists p. split; [done|].
      by apply list_elem_of_filter. }
  rewrite <- Hcols. unfold listed. split.
  - intros (cs & (r & [= -> ->] & Hr)%list_elem_of_fmap & Hcol).
    by apply (elem_of_sorted set_iter set_iter_perm),
      elem_of_list_to_set in Hcol.
  - intros Hcol. eexists. split.
    + apply list_elem_of_fmap. exists row. split; [done|].
      apply (elem_of_sorted set_iter set_iter_perm), elem_of_dom.
      exists (cols row). apply group_by_row_lookup. split; [done|].
      intros Hnil. rewrite Hnil in Hcol. by apply elem_of_nil in Hcol.
    + by apply (elem_of_sorted set_iter set_iter_perm),
        elem_of_list_to_set.
Qed.

Lemma row_listing_with_sorted (positions : list Cell)
    (listing : list (Z * list Z)) :
  row_listing_with set_iter positions = Ok listing →
  StronglySorted Z.lt listing.*1 ∧
  Forall (λ e, e.2 ≠ [] ∧ StronglySorted Z.lt e.2) listing ∧
  ∀ col row,
    listed listing col row ↔
    ∃ p, p ∈ positions ∧ grid_x p = col ∧ grid_y p = row.
Proof.
  rewrite row_listing_with_eq. intros [= <-].
  split; [|split]; [| |apply listed_row_listing].
  - rewrite fmap_fst_pair. apply sorted_lt.
  - apply Forall_fmap, Forall_forall. intros row Hrow. simpl. split.
    + apply (elem_of_sorted set_iter set_iter_perm), elem_of_dom in Hrow
        as [cs (-> & Hne)%group_by_row_lookup].
      intros Hnil.
      destruct (grid_x <$> filter (λ p, grid_y p = row) positions)
        as [|c l] eqn:Hc; [done|].
      assert (c ∈ sorted set_iter (list_to_set (c :: l))) as Hin.
      { apply (elem_of_sorted set_iter set_iter_perm), elem_of_list_to_set.
        by left. }
      rewrite Hnil in Hin. by apply elem_of_nil in Hin.
    + apply sorted_lt.
Qed.

(** The lines written for a class, spelled out for its listing. *)
Lemma class_lines_with_written (cell_type : CellType)
    (positions : list Cell) (listing : list (Z * list Z)) :
  row_listing_with set_iter positions = Ok listing →
  class_lines_with set_iter cell_type positions
  = Ok match positions with
       | [] => []
       | _ :: _ =>
           [ "// "
               +:+ match cell_type with
                   | AZ => "AZ" | TK => "TK" | RR => "RR"
                   | AR => "AR" | LAR => "LAR" | USP => "USP"
                   end
               +:+ " positions - " +:+ pretty (length positions)
               +:+ " cells";
             "const "
               +:+ match cell_type with
                   | AZ => "az" | TK => "tk" | RR => "rr"
                   | AR => "ar" | LAR => "lar" | USP => "usp"
                   end
               +:+ "Positions = new Set<string>([" ]
           ++ (e ← listing;
               [ "    // Row " +:+ pretty e.1;
                 "    "
                   +:+ String.concat ", "
                         ((λ col, "'" +:+ pretty col +:+ ","
                                      +:+ pretty e.1 +:+ "'") <$> e.2)
                   +:+ "," ])
           ++ [ "]);"; "" ]
       end.
Proof.
  intros Hlisting. unfold class_lines_with.
  destruct positions as [|p positions]; [done|].
  rewrite Hlisting. cbn [mbind res_bind].
  rewrite (list_bind_pointwise row_lines
             (λ e, [ "    // Row " +:+ pretty e.1;
                     "    "
                       +:+ String.concat ", "
                             ((λ col, "'" +:+ pretty col +:+ ","
                                          +:+ pretty e.1 +:+ "'") <$> e.2)
                       +:+ "," ]) listing).
  - by destruct cell_type.
  - intros e. unfold row_lines, quoted_position. by rewrite join_concat.
Qed.

(** The lines written for a class show exactly the grid positions of its
    cells.  For a class with cells, [generate_typescript] writes a comment
    with the name of the class and the number of its cells, the declaration
    of the set under the name of the class in small letters, then for every
    row of a listing a comment with the row and one line with the quoted
    positions ['col,row'] of the row, separated by commas, and the two
    closing lines; for a class without cells it writes nothing.  In the
    listing the rows are strictly increasing, every row has at least one
    column and its columns are strictly increasing, and a column stands in
    a row exactly when some cell of the class has these grid coordinates:
    cells that share their coordinates are written once. *)
Theorem class_listing_is_exact (cell_type : CellType)
    (positions : list Cell) :
  ∃ listing,
    StronglySorted Z.lt listing.*1 ∧
    Forall (λ e, e.2 ≠ [] ∧ StronglySorted Z.lt e.2) listing ∧
    (∀ col row,
       listed listing col row ↔
       ∃ p, p ∈ positions ∧ grid_x p = col ∧ grid_y p = row) ∧
    class_lines_with set_iter cell_type positions
    = Ok match positions with
         | [] => []
         | _ :: _ =>
             [ "// "
                 +:+ match cell_type with
                     | AZ => "AZ" | TK => "TK" | RR => "RR"
                     | AR => "AR" | LAR => "LAR" | USP => "USP"
                     end
                 +:+ " positions - " +:+ pretty (length positions)
                 +:+ " cells";
               "const "
                 +:+ match cell_type with
                     | AZ => "az" | TK => "tk" | RR => "rr"
                     | AR => "ar" | LAR => "lar" | USP => "usp"
                     end
                 +:+ "Positions = new Set<string>([" ]
             ++ (e ← listing;
                 [ "    // Row " +:+ pretty e.1;
                   "    "
                     +:+ String.concat ", "
                           ((λ col, "'" +:+ pretty col +:+ ","
                                        +:+ pretty e.1 +:+ "'") <$> e.2)
                     +:+ "," ])
             ++ [ "]);"; "" ]
         end.
Proof.
  pose proof (row_listing_with_eq positions) as Hlisting.
  eexists. split; [|split; [|split]];
    [apply (row_listing_with_sorted positions _ Hlisting)..|].
  by apply class_lines_with_written.
Qed.

Lemma class_lines_with_total (cell_type : CellType) (positions : list Cell) :
  ∃ lines, class_lines_with set_iter cell_type positions = Ok lines ∧
           (positions = [] → lines = []).
Proof.
  unfold class_lines_with. destruct positions as [|p positions]; [eauto|].
  rewrite row_listing_with_eq. cbn [mbind res_bind].
  eexists. split; [done|done].
Qed.

Lemma sections_skip_empty (cells : list (CellType * list Cell)) :
  ∃ sections,
    map_res (λ e, class_lines_with set_iter e.1 e.2) cells = Ok sections ∧
    ∃ sections',
      map_res (λ e, class_lines_with set_iter e.1 e.2)
              (filter (λ e, e.2 ≠ []) cells) = Ok sections' ∧
      mjoin sections' = mjoin sections ∧
      (all_cells cells = [] → mjoin sections = []).
Proof.
  unfold all_cells.
  induction cells as [|[ty ps] cells (ss & IH & ss' & IH' & Hjoin & Hnil)].
  { exists []. split; [done|]. exists []. by repeat split. }
  cbn [map_res fst snd].
  destruct (class_lines_with_total ty ps) as (lines & Hlines & Hempty).
  rewrite Hlines, IH. cbn [mbind res_bind].
  eexists. split; [done|]. rewrite filter_cons. cbn [snd].
  destruct (decide (ps ≠ [])) as [Hne|Heq].
  - cbn [map_res fst snd]. rewrite Hlines, IH'. cbn [mbind res_bind].
    eexists. split; [done|].
    change (mjoin (lines :: ss')) with (lines ++ mjoin ss').
    change (mjoin (lines :: ss)) with (lines ++ mjoin ss).
    rewrite Hjoin. split; [done|]. csimpl. by intros [? _]%app_eq_nil.
  - assert (ps = []) as -> by (by destruct ps; [|exfalso; apply Heq]).
    rewrite (Hempty eq_refl). exists ss'. split; [done|].
    change (mjoin ([] :: ss)) with (mjoin ss). csimpl. done.
Qed.

End listing_properties.

Lemma sorted_order_irrelevant (iter1 iter2 : gset Z → list Z) (X : gset Z) :
  (∀ X, iter1 X ≡ₚ elements X) → (∀ X, iter2 X ≡ₚ elements X) →
  sorted iter1 X = sorted iter2 X.
Proof.
  intros H1 H2. apply (sorted_unique iter1 H1).
  - apply (sorted_StronglySorted iter2).
  - apply (sorted_NoDup iter2 H2).
  - intros v. apply (elem_of_sorted iter2 H2).
Qed.

Lemma class_lines_order_irrelevant (iter1 iter2 : gset Z → list Z)
    (cell_type : CellType) (positions : list Cell) :
  (∀ X, iter1 X ≡ₚ elements X) → (∀ X, iter2 X ≡ₚ elements X) →
  class_lines_with iter1 cell_type positions
  = class_lines_with iter2 cell_type positions.
Proof.
  intros H1 H2. unfold class_lines_with.
  destruct positions as [|p positions]; [done|].
  rewrite (row_listing_with_eq iter1 H1), (row_listing_with_eq iter2 H2).
  rewrite (sorted_order_irrelevant iter1 iter2 (dom _) H1 H2).
  by rewrite (list_fmap_ext _ _ _
    (λ _ row _, f_equal (pair row)
       (sorted_order_irrelevant iter1 iter2 _ H1 H2))).
Qed.

(** [generate_typescript] returns for every collection, and its text does
    not depend on the order in which sets are iterated.  A class without
    cells leaves no trace in the text, which is the one written for the
    collection without such classes; and when no class has a cell the text
    holds the header lines alone. *)
Theorem generate_typescript_skips_empty_classes
    (set_iter : gset Z → list Z) (cells : list (CellType * list Cell)) :
  (∀ X, set_iter X ≡ₚ elements X) →
  ∃ text,
    generate_typescript_with set_iter cells = Ok text ∧
    generate_typescript cells = Ok text ∧
    generate_typescript (filter (λ e, e.2 ≠ []) cells) = Ok text ∧
    (all_cells cells = [] → text = join newline header_lines).
Proof.
  intros Hperm.
  assert (generate_typescript_with set_iter cells = generate_typescript cells)
    as Hsame.
  { unfold generate_typescript, generate_typescript_with.
    assert (map_res (λ e, class_lines_with set_iter e.1 e.2) cells
            = map_res (λ e, class_lines_with elements e.1 e.2) cells) as ->;
      [|done].
    induction cells as [|[ty ps] cells IH]; [done|]. cbn [map_res fst snd].
    rewrite IH.
    by rewrite (class_lines_order_irrelevant set_iter elements ty ps Hperm
                  elements_perm_refl). }
  rewrite Hsame. unfold generate_typescript, generate_typescript_with.
  destruct (sections_skip_empty elements elements_perm_refl cells)
    as (ss & -> & ss' & -> & Hjoin & Hnil).
  cbn [mbind res_bind]. eexists. split; [done|]. split; [done|].
  rewrite Hjoin. split; [done|]. intros Hempty.
  by rewrite (Hnil Hempty), app_nil_r.
Qed.

Lemma generate_typescript_witness :
  (∀ X : gset Z, reverse (elements X) ≡ₚ elements X) ∧
  ∃ text,
    generate_typescript_with (λ X, reverse (elements X)) sample_cells
      = Ok text ∧
    generate_typescript sample_cells = Ok text ∧
    generate_typescript (filter (λ e, e.2 ≠ []) sample_cells) = Ok text ∧
    (all_cells sample_cells = [] → text = join newline header_lines).
Proof.
  split; [intros X; apply reverse_Permutation|].
  apply (generate_typescript_skips_empty_classes
           (λ X, reverse (elements X)) sample_cells).
  intros X. apply reverse_Permutation.
Defined.

Lemma class_listing_witness :
  (∀ X : gset Z, elements X ≡ₚ elements X) ∧
  ∃ listing,
    StronglySorted Z.lt listing.*1 ∧
    Forall (λ e, e.2 ≠ [] ∧ StronglySorted Z.lt e.2) listing ∧
    (∀ col row,
       listed listing col row ↔
       ∃ p, p ∈ [sample_cell 4 1 0 0 1; sample_cell 2 0 0 0 1;
                 sample_cell 1 1 0 0 1; sample_cell 4 1 0 0 1] ∧
            grid_x p = col ∧ grid_y p = row) ∧
    class_lines_with elements AZ
      [sample_cell 4 1 0 0 1; sample_cell 2 0 0 0 1; sample_cell 1 1 0 0 1;
       sample_cell 4 1 0 0 1]
    = Ok ([ "// AZ positions - 4 cells";
            "const azPositions = new Set<string>([" ]
          ++ (e ← listing;
              [ "    // Row " +:+ pretty e.1;
                "    "
                  +:+ String.concat ", "
                        ((λ col, "'" +:+ pretty col +:+ ","
                                     +:+ pretty e.1 +:+ "'") <$> e.2)
                  +:+ "," ])
          ++ [ "]);"; "" ]).
Proof.
  split; [done|].
  apply (class_listing_is_exact elements elements_perm_refl AZ
           [sample_cell 4 1 0 0 1; sample_cell 2 0 0 0 1;
            sample_cell 1 1 0 0 1; sample_cell 4 1 0 0 1]).
Defined.

(** The listing written for a collection with two classes: positions by
    row, columns in increasing order, a repeated position once. *)
Example generate_typescript_sample :
  generate_typescript
    [ (AZ, [sample_cell 4 1 0 0 1; sample_cell 2 0 0 0 1;
            sample_cell 1 1 0 0 1; sample_cell 4 1 0 0 1]);
      (TK, []);
      (USP, [sample_cell 0 3 0 0 1]) ]
  = Ok (join newline
      [ "// Auto-generated from OPB-82 scheme image";
        "// Cell positions extracted by parse_opb82_scheme.py";
        "// Coordinates are normalized to a continuous grid (grid lines removed)";
        "";
        "// AZ positions - 4 cells";
        "const azPositions = new Set<string>([";
        "    // Row 0";
        "    '2,0',";
        "    // Row 1";
        "    '1,1', '4,1',";
        "]);";
        "";
        "// USP positions - 1 cells";
        "const uspPositions = new Set<string>([";
        "    // Row 3";
        "    '0,3',";
        "]);";
        "" ]).
Proof. by vm_compute. Qed.

(** ** Position strings *)

Lemma pretty_N_go_no_comma (x : N) (s : string) :
  has_comma s = false → has_comma (pretty_N_go x s) = false.
Proof.
  revert s. induction (N.lt_wf_0 x) as [x _ IH]; intros s Hs.
  assert (x = 0 ∨ 0 < x)%N as [->|Hx] by lia.
  - by rewrite pretty_N_go_0.
  - rewrite pretty_N_go_step by done. apply IH.
    { by apply N.div_lt. }
    simpl. rewrite Hs, orb_false_r. apply bool_decide_eq_false.
    unfold pretty_N_char. by repeat case_match.
Qed.

(** The decimal form of an integer holds digits and at most a sign. *)
Lemma pretty_Z_no_comma (z : Z) : has_comma (pretty z) = false.
Proof.
  assert (∀ p : positive, has_comma (pretty p) = false) as Hpos.
  { intros p. unfold pretty, pretty_positive, pretty, pretty_N.
    destruct (decide (N.pos p = 0%N)); [done|].
    by apply pretty_N_go_no_comma. }
  destruct z as [|p|p]; [done|apply Hpos|].
  unfold pretty, pretty_Z. simpl. apply Hpos.
Qed.

Lemma string_length_append (s t : string) :
  String.length (s +:+ t) = (String.length s + String.length t)%nat.
Proof.
  induction s as [|c s IH]; [done|].
  change (S (String.length (s +:+ t))
          = S (String.length s + String.length t)). by rewrite IH.
Qed.

Lemma string_append_nil_r (s : string) : s +:+ "" = s.
Proof.
  induction s as [|c s IH]; [done|].
  change (String c (s +:+ "") = String c s). by rewrite IH.
Qed.

Lemma append_comma_inj (s1 s2 t1 t2 : string) :
  has_comma s1 = false → has_comma s2 = false →
  s1 +:+ "," +:+ t1 = s2 +:+ "," +:+ t2 → s1 = s2 ∧ t1 = t2.
Proof.
  revert s2. induction s1 as [|c s1 IH]; intros [|d s2]; simpl.
  - intros _ _ Heq. split; [done|]. injection Heq as Heq. exact Heq.
  - intros _ [Hd _]%orb_false_elim [= <- _].
    by apply bool_decide_eq_false in Hd.
  - intros [Hc _]%orb_false_elim _ [= -> _].
    by apply bool_decide_eq_false in Hc.
  - intros [_ H1]%orb_false_elim [_ H2]%orb_false_elim [= -> Heq].
    destruct (IH s2 H1 H2 Heq) as [-> ->]. done.
Qed.

(** The position strings tell the grid positions apart.  Two cells get
    the same ["x,y"] string in [positions_by_type], and the same quoted
    string in the code listing, exactly when they have the same grid
    coordinates: no two positions collide in the set of strings. *)
Theorem position_string_inj (p q : Cell) :
  (position_string p = position_string q ↔
   grid_x p = grid_x q ∧ grid_y p = grid_y q) ∧
  (quoted_position (grid_y p) (grid_x p)
   = quoted_position (grid_y q) (grid_x q) ↔
   grid_x p = grid_x q ∧ grid_y p = grid_y q).
Proof.
  assert (∀ x y x' y' : Z, ∀ t t' : string,
    pretty x +:+ "," +:+ pretty y +:+ t
    = pretty x' +:+ "," +:+ pretty y' +:+ t' →
    String.length t = String.length t' → x = x' ∧ y = y') as Hinj.
  { intros x y x' y' t t' Heq Hlen.
    apply append_comma_inj in Heq as [Hx Hy]; [|apply pretty_Z_no_comma..].
    apply (inj pretty) in Hx. split; [done|].
    assert (pretty y = pretty y') as Hy'; [|by apply (inj pretty) in Hy'].
    revert Hy Hlen. generalize (pretty y) (pretty y'). clear.
    intros s s'. revert s' t t'.
    induction s as [|c s IH]; intros [|c' s'] t t' Heq Hlen.
    - done.
    - change (t = String c' (s' +:+ t')) in Heq. rewrite Heq in Hlen.
      simpl in Hlen. rewrite string_length_append in Hlen. lia.
    - change (String c (s +:+ t) = t') in Heq. rewrite <- Heq in Hlen.
      simpl in Hlen. rewrite string_length_append in Hlen. lia.
    - change (String c (s +:+ t) = String c' (s' +:+ t')) in Heq.
      injection Heq as -> Heq. f_equal. by eapply IH. }
  split; split.
  - unfold position_string. intros Heq.
    apply (Hinj _ _ _ _ "" ""); [|done].
    by rewrite !string_append_nil_r.
  - unfold position_string. by intros [-> ->].
  - unfold quoted_position. intros [= Heq]. by apply (Hinj _ _ _ _ "'" "'").
  - by intros [-> ->].
Qed.

(** ** Coordinate normalizer: only the order of the raw values matters *)

Section relabel.
Context (f g : Z → Z).
Context (f_increasing : increasing f) (g_increasing : increasing g).

Lemma increasing_inj (h : Z → Z) : increasing h → Inj (=) (=) h.
Proof.
  intros Hh a b Heq.
  destruct (Z.lt_trichotomy a b) as [Hlt|[?|Hlt]]; [|done|];
    apply Hh in Hlt; lia.
Qed.

Lemma increasing_le (h : Z → Z) (a b : Z) : increasing h → a ≤ b → h a ≤ h b.
Proof.
  intros Hh Hab. destruct (decide (a = b)) as [->|]; [lia|].
  assert (h a < h b) by (apply Hh; lia). lia.
Qed.

Lemma all_cells_relabel (cells : list (CellType * list Cell)) :
  all_cells (relabel f g cells) = relabel_cell f g <$> all_cells cells.
Proof.
  unfold all_cells, relabel. induction cells as [|e cells IH]; [done|].
  rewrite fmap_cons. csimpl. by rewrite IH, fmap_app.
Qed.

(** The sorted list of the renamed values is the renamed sorted list. *)
Lemma sorted_increasing (h : Z → Z) (X X' : gset Z) :
  increasing h → (∀ v, v ∈ X' ↔ ∃ u, u ∈ X ∧ v = h u) →
  sorted elements X' = h <$> sorted elements X.
Proof.
  intros Hh HX'. pose proof (increasing_inj h Hh).
  apply (sorted_unique elements elements_perm_refl).
  - apply StronglySorted_fmap with (R1 := Z.le);
      [|apply (sorted_StronglySorted elements)].
    intros a b. by apply increasing_le.
  - apply NoDup_fmap_2; [done|].
    apply (sorted_NoDup elements elements_perm_refl).
  - intros v. rewrite HX', list_elem_of_fmap. split.
    + intros (u & -> & Hu). exists u. split; [|done].
      by apply (elem_of_sorted elements elements_perm_refl) in Hu.
    + intros (u & Hu & ->). exists u. split; [done|].
      by apply (elem_of_sorted elements elements_perm_refl).
Qed.

(** A renamed value has the rank of the value it renames. *)
Lemma rank_increasing (h : Z → Z) (X X' : gset Z) (v : Z) :
  increasing h → (∀ v, v ∈ X' ↔ ∃ u, u ∈ X ∧ v = h u) →
  enumerate_map (sorted elements X') !! h v
  = enumerate_map (sorted elements X) !! v.
Proof.
  intros Hh HX'. pose proof (increasing_inj h Hh).
  rewrite (sorted_increasing h X X' Hh HX').
  pose proof (sorted_NoDup elements elements_perm_refl X) as Hnd.
  assert (NoDup (h <$> sorted elements X)) as Hnd' by (by apply NoDup_fmap_2).
  apply option_eq. intros n.
  rewrite !enumerate_map_lookup by done. split.
  - intros (k & Hk & ->). exists k. split; [|done].
    rewrite list_lookup_fmap in Hk.
    destruct (sorted elements X !! k) as [u|]; [|done].
    injection Hk as Hk. by apply (inj h) in Hk as ->.
  - intros (k & Hk & ->). exists k. split; [|done].
    by rewrite list_lookup_fmap, Hk.
Qed.

(** Normalization depends on the order of the raw grid values only.
    Renaming the columns and the rows of a collection by strictly
    increasing functions (a shift or a change of scale, say) changes no
    normalized coordinate: both collections are normalized to cells with
    the same [grid_x] and [grid_y], which differ in the recorded original
    coordinates only. *)
Theorem normalization_ignores_increasing_renaming
    (cells : list (CellType * list Cell)) :
  all_cells cells ≠ [] →
  ∃ out out',
    normalize_coordinates cells = Ok out ∧
    normalize_coordinates (relabel f g cells) = Ok out' ∧
    Forall2 (λ c c',
               grid_x c' = grid_x c ∧ grid_y c' = grid_y c ∧
               original_grid_x c' = f <$> original_grid_x c ∧
               original_grid_y c' = g <$> original_grid_y c ∧
               pixel_x c' = pixel_x c ∧ pixel_y c' = pixel_y c ∧
               area c' = area c)
            (all_cells out) (all_cells out').
Proof.
  intros Hne.
  assert (all_cells (relabel f g cells) ≠ []) as Hne'.
  { rewrite all_cells_relabel. by destruct (all_cells cells). }
  destruct (normalize_coordinates_total cells Hne) as (out & Hout & Hall).
  destruct (normalize_coordinates_total _ Hne') as (out' & Hout' & Hall').
  exists out, out'. split; [done|]. split; [done|].
  rewrite all_cells_relabel in Hall'.
  rewrite Forall2_fmap_l in Hall'.
  assert (∀ v, x_map (relabel f g cells) !! f v = x_map cells !! v) as Hx.
  { intros v. apply rank_increasing; [done|]. intros w.
    rewrite !elem_of_all_x, all_cells_relabel. split.
    - intros (c' & (c & -> & Hc)%list_elem_of_fmap & <-).
      exists (grid_x c). split; [|done]. apply elem_of_all_x. eauto.
    - intros (u & (c & Hc & <-)%elem_of_all_x & ->).
      exists (relabel_cell f g c). split; [|done].
      apply list_elem_of_fmap. eauto. }
  assert (∀ v, y_map (relabel f g cells) !! g v = y_map cells !! v) as Hy.
  { intros v. apply rank_increasing; [done|]. intros w.
    rewrite !elem_of_all_y, all_cells_relabel. split.
    - intros (c' & (c & -> & Hc)%list_elem_of_fmap & <-).
      exists (grid_y c). split; [|done]. apply elem_of_all_y. eauto.
    - intros (u & (c & Hc & <-)%elem_of_all_y & ->).
      exists (relabel_cell f g c). split; [|done].
      apply list_elem_of_fmap. eauto. }
  apply Forall2_same_length_lookup. split.
  { rewrite <- (Forall2_length _ _ _ Hall). by eapply Forall2_length. }
  intros i c1 c2 Hc1 Hc2.
  destruct (Forall2_lookup_r _ _ _ _ _ Hall Hc1) as (c & Hc & H1).
  destruct (Forall2_lookup_l _ _ _ _ _ Hall' Hc) as (c2' & Hc2' & H2).
  assert (c2' = c2) as -> by congruence.
  destruct H1 as (Hx1 & Hy1 & Hox1 & Hoy1 & Hpx1 & Hpy1 & Ha1).
  destruct H2 as (Hx2 & Hy2 & Hox2 & Hoy2 & Hpx2 & Hpy2 & Ha2).
  cbn [relabel_cell grid_x grid_y pixel_x pixel_y area] in *.
  rewrite Hx in Hx2. rewrite Hy in Hy2.
  rewrite Hox1, Hoy1, Hox2, Hoy2. simpl.
  repeat split; congruence.
Qed.

End relabel.

Lemma normalization_renaming_witness :
  increasing (λ v, 3 * v + 7) ∧ increasing (λ v, v - 40) ∧
  all_cells sample_cells ≠ [] ∧
  ∃ out out',
    normalize_coordinates sample_cells = Ok out ∧
    normalize_coordinates
      (relabel (λ v, 3 * v + 7) (λ v, v - 40) sample_cells) = Ok out' ∧
    Forall2 (λ c c',
               grid_x c' = grid_x c ∧ grid_y c' = grid_y c ∧
               original_grid_x c' = (λ v, 3 * v + 7) <$> original_grid_x c ∧
               original_grid_y c' = (λ v, v - 40) <$> original_grid_y c ∧
               pixel_x c' = pixel_x c ∧ pixel_y c' = pixel_y c ∧
               area c' = area c)
            (all_cells out) (all_cells out').
Proof.
  assert (increasing (λ v, 3 * v + 7)) as Hf by (intros a b; lia).
  assert (increasing (λ v, v - 40)) as Hg by (intros a b; lia).
  split; [exact Hf|]. split; [exact Hg|]. split; [discriminate|].
  apply (normalization_ignores_increasing_renaming _ _ Hf Hg sample_cells).
  discriminate.
Defined.

(** ** Blob detector: no pixel of the target colour *)

Section no_target.
Context (img : Image) (target_color : list Z) (tolerance : Z).

Lemma blob_of_nonempty (ps : list (Z * Z)) (c : Q * Q * Z) :
  blob_of img target_color tolerance ps c → ps ≠ [].
Proof. intros (Hc & _) ->. done. Qed.

Lemma no_component_iff :
  find_connected_components img target_color tolerance = Ok [] ↔
  matching_pixels img target_color tolerance = [].
Proof.
  destruct (detected_blobs img target_color tolerance)
    as (blobs & comps & Hcomps & Hblobs & Hperm).
  rewrite Hcomps. split.
  - intros [= ->]. apply Forall2_nil_inv_r in Hblobs as ->.
    by apply Permutation_nil_l in Hperm.
  - intros Hnil. rewrite Hnil in Hperm. apply Permutation_nil_r in Hperm.
    destruct Hblobs as [|ps c blobs comps Hb _]; [done|].
    apply blob_of_nonempty in Hb. by destruct ps.
Qed.

(** The detector reports no component exactly when no pixel of the image
    has the target colour.  That is the case for every image when the
    tolerance is zero or negative, since no distance is below it, and for
    every target colour when the image has no pixel at all. *)
Theorem no_component_without_target_pixel :
  (find_connected_components img target_color tolerance = Ok [] ↔
   matching_pixels img target_color tolerance = []) ∧
  (tolerance ≤ 0 →
   find_connected_components img target_color tolerance = Ok []) ∧
  (width img ≤ 0 ∨ height img ≤ 0 →
   find_connected_components img target_color tolerance = Ok []).
Proof.
  split; [apply no_component_iff|]. split.
  - intros Htol. apply no_component_iff. unfold matching_pixels.
    induction (raster img) as [|xy l IH]; [done|].
    rewrite filter_cons, decide_False; [done|].
    unfold matches_at, matches_color, distance_below.
    by rewrite (proj2 (Z.ltb_ge 0 tolerance)) by lia.
  - intros Hempty. apply no_component_iff. unfold matching_pixels, raster.
    destruct Hempty as [Hw|Hh].
    + assert (seqZ 0 (width img) = []) as ->.
      { apply length_zero_iff_nil. rewrite length_seqZ. lia. }
      by induction (seqZ 0 (height img)).
    + assert (seqZ 0 (height img) = []) as ->; [|done].
      apply length_zero_iff_nil. rewrite length_seqZ. lia.
Qed.

End no_target.

(** ** Colour matcher: channels past the third *)

Lemma sum_sq_diff_take (c1 c2 : list Z) :
  sum_sq_diff (take (length c2) c1) c2 = sum_sq_diff c1 c2.
Proof.
  unfold sum_sq_diff. f_equal. revert c2.
  induction c1 as [|a c1 IH]; intros [|b c2]; simpl; try done.
  by rewrite IH.
Qed.

Lemma distance_below_strip_alpha (pixel color : list Z) (tolerance : Z) :
  length color = 3%nat →
  distance_below (strip_alpha pixel) color tolerance
  = distance_below (take 3 pixel) color tolerance.
Proof.
  intros Hlen. unfold distance_below, strip_alpha.
  destruct (length pixel =? 4)%nat; [done|].
  by rewrite <- (sum_sq_diff_take pixel color), Hlen.
Qed.

Lemma strip_alpha_take (pixel : list Z) :
  strip_alpha (take 3 pixel) = take 3 pixel.
Proof.
  unfold strip_alpha.
  assert (length (take 3 pixel) ≤ 3)%nat as Hlen
    by (rewrite length_take; lia).
  destruct (length (take 3 pixel) =? 4)%nat eqn:H4; [|done].
  apply Nat.eqb_eq in H4. lia.
Qed.

(** Only the first three channels of a pixel count.  Against a target of
    three channels the detector's test gives the same verdict on a pixel
    and on its first three channels, whatever follows them, and so does
    [identify_color]: an alpha channel never changes the class of a
    pixel. *)
Theorem channels_past_third_ignored (target_color : list Z) (tolerance : Z)
    (pixel : list Z) :
  length target_color = 3%nat →
  matches_color target_color tolerance pixel
  = matches_color target_color tolerance (take 3 pixel) ∧
  identify_color pixel = identify_color (take 3 pixel).
Proof.
  intros Hlen. unfold matches_color, identify_color.
  rewrite strip_alpha_take. split; [by apply distance_below_strip_alpha|].
  assert (Forall (λ e : CellType * list Z, length e.2 = 3%nat) COLORS)
    as Hcolors by (by repeat constructor).
  induction Hcolors as [|[ty color] table Hc _ IH]; [done|].
  cbn [identify_in]. simpl in Hc.
  by rewrite distance_below_strip_alpha, IH.
Qed.

Lemma channels_past_third_witness :
  length (reference AZ) = 3%nat ∧
  matches_color (reference AZ) 25 [0xDE; 0x1A; 0x03; 0; 77]
  = matches_color (reference AZ) 25 (take 3 [0xDE; 0x1A; 0x03; 0; 77]) ∧
  identify_color [0xDE; 0x1A; 0x03; 0; 77]
  = identify_color (take 3 [0xDE; 0x1A; 0x03; 0; 77]).
Proof.
  split; [reflexivity|].
  apply (channels_past_third_ignored (reference AZ) 25). reflexivity.
Defined.

(** ** Area filter: raising the minimum *)

(** Raising the minimum area removes cells and changes none.  The cells
    kept with a larger minimum are those kept with the smaller one whose
    area reaches the larger, in the same order. *)
Theorem area_filter_monotone (cell_size min_area min_area' : Z)
    (comps : list (Q * Q * Z)) (kept kept' : list Cell) :
  min_area ≤ min_area' →
  collect_cells cell_size min_area comps = Ok kept →
  collect_cells cell_size min_area' comps = Ok kept' →
  kept' = filter (λ cell, min_area' ≤ area cell) kept.
Proof.
  intros Hle. revert kept kept'.
  induction comps as [|[[cx cy] n] comps IH]; intros kept kept';
    cbn [collect_cells snd].
  - by intros [= <-] [= <-].
  - destruct (min_area' <=? n) eqn:Hn'.
    + apply Z.leb_le in Hn'. rewrite (proj2 (Z.leb_le min_area n)) by lia.
      destruct (make_cell cell_size (cx, cy, n)) as [cell| |] eqn:Hcell;
        cbn [mbind res_bind]; try done.
      destruct (collect_cells cell_size min_area comps) as [r| |];
        cbn [mbind res_bind]; try done.
      destruct (collect_cells cell_size min_area' comps) as [r'| |];
        cbn [mbind res_bind]; try done.
      intros [= <-] [= <-]. rewrite filter_cons.
      assert (area cell = n) as Harea.
      { unfold make_cell in Hcell.
        destruct (float_div cx cell_size); cbn [mbind res_bind] in Hcell;
          try done.
        destruct (float_div cy cell_size); cbn [mbind res_bind] in Hcell;
          try done.
        by injection Hcell as <-. }
      rewrite decide_True by lia. f_equal. by apply IH.
    + apply Z.leb_gt in Hn'. destruct (min_area <=? n); [|by apply IH].
      destruct (make_cell cell_size (cx, cy, n)) as [cell| |] eqn:Hcell;
        cbn [mbind res_bind]; try done.
      destruct (collect_cells cell_size min_area comps) as [r| |];
        cbn [mbind res_bind]; try done.
      intros [= <-] Hkept'. rewrite filter_cons.
      assert (area cell = n) as Harea.
      { unfold make_cell in Hcell.
        destruct (float_div cx cell_size); cbn [mbind res_bind] in Hcell;
          try done.
        destruct (float_div cy cell_size); cbn [mbind res_bind] in Hcell;
          try done.
        by injection Hcell as <-. }
      rewrite decide_False by lia. by apply IH.
Qed.

Lemma area_filter_monotone_witness :
  ∃ kept kept',
    100 ≤ 101 ∧
    collect_cells 26 100
      [sample_component 13 13 99; sample_component 40 13 100;
       sample_component 70 13 101] = Ok kept ∧
    collect_cells 26 101
      [sample_component 13 13 99; sample_component 40 13 100;
       sample_component 70 13 101] = Ok kept' ∧
    length kept = 2%nat ∧ length kept' = 1%nat ∧
    kept' = filter (λ cell, 101 ≤ area cell) kept.
Proof.
  eexists _, _. split; [lia|]. split; [by vm_compute|].
  split; [by vm_compute|]. split; [reflexivity|]. split; [reflexivity|].
  apply (area_filter_monotone 26 100 101
           [sample_component 13 13 99; sample_component 40 13 100;
            sample_component 70 13 101]); [lia|by vm_compute|by vm_compute].
Defined.

(** ** The code listing of a run *)

(** The code listing agrees with the structured output.  For a run that
    returns, the text [generate_typescript] writes for the cells of the
    output is the four header lines followed by the lines of the six
    classes in the order of the output, joined by line feeds.  A class
    without cells has no lines.  A class with cells has a comment with its
    name and the number of its cells, the declaration of its set, for
    every row of a listing a comment and one line with the quoted positions
    of the row, and the two closing lines.  In the listing the rows are
    strictly increasing, every row has a column and its columns are
    strictly increasing; a column stands in a row exactly when a cell of
    the class has these normalized coordinates, and every listed position
    lies inside the reported grid. *)
Theorem listing_within_reported_grid (img : Image) (cell_size min_area : Z)
    (out : Output) :
  parse_scheme img cell_size min_area = Ok out →
  ∃ sections,
    typescript_text (parse_scheme img cell_size min_area)
    = Ok (String.concat (String (Ascii.ascii_of_nat 10) EmptyString)
            ([ "// Auto-generated from OPB-82 scheme image";
               "// Cell positions extracted by parse_opb82_scheme.py";
               "// Coordinates are normalized to a continuous grid (grid lines removed)";
               "" ]
             ++ mjoin sections)) ∧
    Forall2
      (λ (e : CellType * list Cell) (lines : list string),
         ∃ listing,
           StronglySorted Z.lt listing.*1 ∧
           Forall (λ r, r.2 ≠ [] ∧ StronglySorted Z.lt r.2) listing ∧
           (∀ col row,
              listed listing col row ↔
              ∃ p, p ∈ e.2 ∧ grid_x p = col ∧ grid_y p = row) ∧
           (∀ col row,
              listed listing col row →
              0 ≤ col < (grid_size (metadata out)).1 ∧
              0 ≤ row < (grid_size (metadata out)).2) ∧
           lines
           = match e.2 with
             | [] => []
             | _ :: _ =>
                 [ "// "
                     +:+ match e.1 with
                         | AZ => "AZ" | TK => "TK" | RR => "RR"
                         | AR => "AR" | LAR => "LAR" | USP => "USP"
                         end
                     +:+ " positions - " +:+ pretty (length e.2)
                     +:+ " cells";
                   "const "
                     +:+ match e.1 with
                         | AZ => "az" | TK => "tk" | RR => "rr"
                         | AR => "ar" | LAR => "lar" | USP => "usp"
                         end
                     +:+ "Positions = new Set<string>([" ]
                 ++ (r ← listing;
                     [ "    // Row " +:+ pretty r.1;
                       "    "
                         +:+ String.concat ", "
                               ((λ col, "'" +:+ pretty col +:+ ","
                                            +:+ pretty r.1 +:+ "'") <$> r.2)
                         +:+ "," ])
                 ++ [ "]);"; "" ]
             end)
      (cells out) sections.
Proof.
  intros Hrun. rewrite Hrun. unfold typescript_text. cbn [mbind res_bind].
  unfold generate_typescript, generate_typescript_with.
  destruct (map_res_Forall2 (λ e, class_lines_with elements e.1 e.2)
              (cells out)) as (sections & -> & Hsections).
  { intros e _.
    destruct (class_lines_with_total elements elements_perm_refl e.1 e.2)
      as (lines & Hlines & _).
    eauto. }
  cbn [mbind res_bind]. exists sections. split; [by rewrite join_concat|].
  destruct (grid_axes _ _ _ _ Hrun) as (raw & _ & _ & Hx & Hy & _).
  apply Forall2_same_length_lookup.
  split; [by eapply Forall2_length|].
  intros i e lines He Hl.
  pose proof (Forall2_lookup_lr _ _ _ _ _ _ Hsections He Hl) as Hlines.
  simpl in Hlines.
  pose proof (row_listing_with_eq elements elements_perm_refl e.2)
    as Hlisting.
  destruct (row_listing_with_sorted elements elements_perm_refl e.2 _
              Hlisting) as (Hrows & Hcols & Hlisted).
  rewrite (class_lines_with_written elements e.1 e.2 _
             Hlisting) in Hlines.
  injection Hlines as <-.
  eexists. split; [exact Hrows|]. split; [exact Hcols|].
  split; [exact Hlisted|]. split; [|done].
  intros col row (p & Hp & <- & <-)%Hlisted.
  assert (p ∈ all_cells (cells out)) as Hcell.
  { apply elem_of_all_cells. exists e. split; [|done].
    by eapply list_elem_of_lookup_2. }
  split; [apply Hx|apply Hy]; apply list_elem_of_fmap; eauto.
Qed.

Lemma listing_within_grid_witness :
  ∃ out,
    parse_scheme (red_on_black 3 3 [(0, 0); (2, 2)]) 1 1 = Ok out ∧
    ∃ sections,
      typescript_text (parse_scheme (red_on_black 3 3 [(0, 0); (2, 2)]) 1 1)
      = Ok (String.concat (String (Ascii.ascii_of_nat 10) EmptyString)
              ([ "// Auto-generated from OPB-82 scheme image";
                 "// Cell positions extracted by parse_opb82_scheme.py";
                 "// Coordinates are normalized to a continuous grid (grid lines removed)";
                 "" ]
               ++ mjoin sections)) ∧
      Forall2
        (λ (e : CellType * list Cell) (lines : list string),
           ∃ listing,
             StronglySorted Z.lt listing.*1 ∧
             Forall (λ r, r.2 ≠ [] ∧ StronglySorted Z.lt r.2) listing ∧
             (∀ col row,
                listed listing col row ↔
                ∃ p, p ∈ e.2 ∧ grid_x p = col ∧ grid_y p = row) ∧
             (∀ col row,
                listed listing col row →
                0 ≤ col < (grid_size (metadata out)).1 ∧
                0 ≤ row < (grid_size (metadata out)).2) ∧
             lines
             = match e.2 with
               | [] => []
               | _ :: _ =>
                   [ "// "
                       +:+ match e.1 with
                           | AZ => "AZ" | TK => "TK" | RR => "RR"
                           | AR => "AR" | LAR => "LAR" | USP => "USP"
                           end
                       +:+ " positions - " +:+ pretty (length e.2)
                       +:+ " cells";
                     "const "
                       +:+ match e.1 with
                           | AZ => "az" | TK => "tk" | RR => "rr"
                           | AR => "ar" | LAR => "lar" | USP => "usp"
                           end
                       +:+ "Positions = new Set<string>([" ]
                   ++ (r ← listing;
                       [ "    // Row " +:+ pretty r.1;
                         "    "
                           +:+ String.concat ", "
                                 ((λ col, "'" +:+ pretty col +:+ ","
                                              +:+ pretty r.1 +:+ "'") <$> r.2)
                           +:+ "," ])
                   ++ [ "]);"; "" ]
               end)
        (cells out) sections.
Proof.
  eexists. split; [by vm_compute|].
  apply (listing_within_reported_grid
           (red_on_black 3 3 [(0, 0); (2, 2)]) 1 1 _).
  by vm_compute.
Defined.

(** The text written for the image with two red pixels in opposite
    corners: both cells in the class of the red colour, on the diagonal of
    a 2 x 2 grid. *)
Example typescript_text_sample :
  typescript_text (parse_scheme (red_on_black 3 3 [(0, 0); (2, 2)]) 1 1)
  = Ok (String.concat (String (Ascii.ascii_of_nat 10) EmptyString)
      [ "// Auto-generated from OPB-82 scheme image";
        "// Cell positions extracted by parse_opb82_scheme.py";
        "// Coordinates are normalized to a continuous grid (grid lines removed)";
        "";
        "// AZ positions - 2 cells";
        "const azPositions = new Set<string>([";
        "    // Row 0";
        "    '0,0',";
        "    // Row 1";
        "    '1,1',";
        "]);";
        "" ]).
Proof. by vm_compute. Qed.

(** ** Blob detector: the order of the components *)

Section component_order.
Context (img : Image) (target_color : list Z) (tolerance : Z).

Lemma StronglySorted_raster : StronglySorted raster_lt (raster img).
Proof.
  unfold raster.
  assert (∀ ys, StronglySorted Z.lt ys →
    StronglySorted raster_lt
      (y ← ys; (λ x, (x, y)) <$> seqZ 0 (width img))) as Hrows.
  { induction 1 as [|y ys _ IH Hy]; [constructor|]. csimpl.
    apply StronglySorted_app_2; [| |done].
    - intros p q (x & -> & _)%list_elem_of_fmap
        (y' & (x' & -> & _)%list_elem_of_fmap & Hy')%list_elem_of_bind.
      left. simpl. rewrite Forall_forall in Hy. by apply Hy.
    - apply StronglySorted_fmap with (R1 := Z.lt).
      + intros x x' Hx. right. by split.
      + apply StronglySorted_le_lt; [apply StronglySorted_seqZ|].
        apply NoDup_seqZ. }
  apply Hrows, StronglySorted_le_lt; [apply StronglySorted_seqZ|].
  apply NoDup_seqZ.
Qed.

(** The first pixel a fill collects is the one it was started at. *)
Lemma fill_loop_head (fuel : nat) (V : gset (Z * Z)) (rd : list (Z * Z))
    (start : Z * Z) (s' : FillState) :
  in_extent img start → start ∉ V →
  matches_at img target_color tolerance start = true →
  fill_loop img target_color tolerance fuel
    {| queue := [start]; visited := V; component_pixels := [];
       reads := rd |} = Ok s' →
  ∃ rest, component_pixels s' = start :: rest.
Proof.
  intros Hin HV Hm. rewrite fill_loop_unfold. simpl.
  destruct fuel as [|fuel]; [done|].
  destruct (fill_body_cases img target_color tolerance start []
              {| queue := [start]; visited := V; component_pixels := [];
                 reads := rd |})
    as [[_ [?|?]]|[(_ & _ & _ & Hm')|(-> & _)]]; simpl in *;
    [done|done|congruence|].
  intros (_ & _ & (new & -> & _))%fill_loop_result. simpl. eauto.
Qed.

(** One step of the scan either reports nothing, and then the coordinate
    is visited already or not of the target colour, or reports a blob that
    begins with the coordinate and holds unvisited pixels only. *)
Lemma scan_step_head (st : ScanState) (xy : Z * Z) :
  in_extent img xy →
  ∃ st',
    scan_step img target_color tolerance (fill_fuel img) st xy = Ok st' ∧
    ((components st' = components st ∧ seen st' = seen st ∧
      (matches_at img target_color tolerance xy = true → xy ∈ seen st)) ∨
     (∃ rest b,
        components st' = components st ++ [b] ∧
        blob_of img target_color tolerance (xy :: rest) b ∧
        seen st' = list_to_set (xy :: rest) ∪ seen st ∧
        ∀ p, p ∈ xy :: rest → p ∉ seen st)).
Proof.
  intros Hin. destruct (decide (xy ∈ seen st)) as [Hseen|Hseen].
  { rewrite scan_step_visited by done. exists st. split; [done|]. by left. }
  destruct (matches_at img target_color tolerance xy) eqn:Hm.
  2: { rewrite scan_step_other_color by done. eexists. split; [done|].
       left. by repeat split. }
  unfold scan_step, flood_fill. rewrite !decide_False by done.
  rewrite (getpixel_in_extent img xy Hin). cbn -[fill_loop fill_fuel].
  pose proof Hm as Hm'. unfold matches_at in Hm'. rewrite Hm'.
  cbn -[fill_loop fill_fuel].
  destruct (fill_loop_terminates img target_color tolerance (fill_fuel img)
    {| queue := [xy]; visited := seen st; component_pixels := [];
       reads := xy :: log st |}) as [s' Hs']; [apply fill_fuel_enough|].
  rewrite Hs'. cbn [mbind res_bind].
  destruct (fill_loop_head _ _ _ _ _ Hin Hseen Hm Hs') as [rest Hhead].
  pose proof (fill_loop_linked _ _ _ _ _ _ _ _ Hs') as [Hnd Hlk].
  pose proof (fill_loop_result _ _ _ _ _ _ Hs')
    as (_ & _ & (nc & Hc & Hnc & Hmc & Hv)).
  simpl in Hc, Hv. subst nc.
  assert (∀ p, p ∈ component_pixels s' → p ∉ seen st) as Hfresh.
  { eapply (fill_loop_fresh img target_color tolerance (fill_fuel img)
              (seen st)); [| |exact Hs']; simpl;
      [by intros ? ?%elem_of_nil|done]. }
  rewrite Hhead in *.
  eexists. split; [reflexivity|]. right. exists rest. eexists.
  cbn [components seen]. split; [reflexivity|]. by repeat split.
Qed.

Lemma scan_order (l : list (Z * Z)) :
  ∀ (done_ : list (Z * Z)) (st : ScanState) (starts : list (Z * Z))
    (blobs : list (list (Z * Z))),
    raster img = done_ ++ l →
    (∀ p, p ∈ done_ → matches_at img target_color tolerance p = true →
          p ∈ seen st) →
    Forall2 (blob_of img target_color tolerance) blobs (components st) →
    Forall2 starts_at starts blobs →
    Forall (λ s, s ∈ done_) starts →
    StronglySorted raster_lt starts →
    ∃ st' starts' blobs',
      for_each (scan_step img target_color tolerance (fill_fuel img)) l st
        = Ok st' ∧
      Forall2 (blob_of img target_color tolerance) blobs' (components st') ∧
      Forall2 starts_at starts' blobs' ∧
      StronglySorted raster_lt starts'.
Proof.
  induction l as [|xy l IH];
    intros done_ st starts blobs Hraster Hdone Hblobs Hstarts Hin Hsorted;
    cbn [for_each]; [by exists st, starts, blobs|].
  pose proof StronglySorted_raster as Hrs. rewrite Hraster in Hrs.
  assert (in_extent img xy) as Hxy.
  { apply elem_of_raster. rewrite Hraster. apply elem_of_app. right. by left. }
  assert (raster img = (done_ ++ [xy]) ++ l) as Hraster'
    by (by rewrite <- app_assoc).
  destruct (scan_step_head st xy Hxy)
    as (st1 & -> & [(Hc & Hs & Hm)|(rest & b & Hc & Hb & Hs & Hfresh)]);
    cbn [mbind res_bind].
  - apply (IH (done_ ++ [xy]) st1 starts blobs); try done.
    + rewrite Hs. intros p [Hp|Hp%list_elem_of_singleton]%elem_of_app;
        [auto|]. by subst p.
    + by rewrite Hc.
    + eapply Forall_impl; [exact Hin|]. intros s Hs'. apply elem_of_app.
      by left.
  - apply (IH (done_ ++ [xy]) st1 (starts ++ [xy]) (blobs ++ [xy :: rest]));
      try done.
    + rewrite Hs. intros p Hp Hm. apply elem_of_union.
      apply elem_of_app in Hp as [Hp|Hp%list_elem_of_singleton].
      * right. by apply Hdone.
      * subst p. left. apply elem_of_list_to_set. by left.
    + rewrite Hc. apply Forall2_app; [done|]. by constructor.
    + apply Forall2_app; [done|]. constructor; [|done].
      exists rest. split; [done|]. apply Forall_forall. intros p Hp.
      pose proof Hb as (_ & Hext & Hmatch & Hnd & _).
      rewrite Forall_forall in Hext. rewrite Forall_forall in Hmatch.
      assert (p ∈ xy :: rest) as Hp' by (by right).
      assert (p ∈ raster img) as Hpr by (by apply elem_of_raster, Hext).
      rewrite Hraster in Hpr.
      apply elem_of_app in Hpr as [Hpd|[->|Hpl]%elem_of_cons].
      * exfalso. apply (Hfresh p Hp'), Hdone; [done|]. by apply Hmatch.
      * apply NoDup_cons in Hnd as [Hnd _]. done.
      * apply StronglySorted_app_1_r, StronglySorted_cons in Hrs as [Hrs _].
        rewrite Forall_forall in Hrs. by apply Hrs.
    + apply Forall_app. split.
      * eapply Forall_impl; [exact Hin|]. intros s Hs'. apply elem_of_app.
        by left.
      * constructor; [|done]. apply elem_of_app. right. by left.
    + apply StronglySorted_app_2; [|done|repeat constructor].
      intros s q Hs' Hq%list_elem_of_singleton. subst q.
      rewrite Forall_forall in Hin.
      eapply (StronglySorted_app_1_elem_of _ _ _ _ _ Hrs); [by apply Hin|].
      by left.
Qed.

(** The components come in the raster order of their first pixels.  The
    blob behind each component begins with a pixel that lies above, or to
    the left in the same row of, every other pixel of the blob, and these
    first pixels are in strictly increasing raster order along the list of
    components. *)
Theorem components_in_raster_order :
  ∃ starts blobs comps,
    find_connected_components img target_color tolerance = Ok comps ∧
    Forall2 (blob_of img target_color tolerance) blobs comps ∧
    Forall2 starts_at starts blobs ∧
    StronglySorted raster_lt starts.
Proof.
  unfold find_connected_components, scan_image.
  destruct (scan_order (raster img) [] {| seen := ∅; components := []; log := [] |}
              [] []) as (st' & starts & blobs & -> & Hblobs & Hstarts & Hs);
    simpl; try done; try by constructor.
  - by intros p ?%elem_of_nil.
  - by exists starts, blobs, (components st').
Qed.

End component_order.

(** Two blobs whose first pixels share a row are reported left to right,
    also when the right one reaches further up elsewhere: here the second
    blob starts in row 0 as well, at column 2. *)
Example components_left_to_right :
  find_connected_components (red_on_black 4 2 [(0, 0); (0, 1); (2, 0)]) red 25
  = Ok [((0 # 2)%Q, (1 # 2)%Q, 2); ((2 # 1)%Q, (0 # 1)%Q, 1)].
Proof. by vm_compute. Qed.
